(** * Flash-Sale-Service: a shallow embedding of the Go sources

    The development follows the packages of the repository:
    - [GoInt], [GoTime]: the machine integers and the [time] values the code
      computes with;
    - [Http]: the part of [net/http] the handlers use (a response writer);
    - [RateLimit]: [middleware/ratelimit.go], the token bucket behind
      [RateLimitMiddleware];
    - [Health]: [handlers/health.go];
    - [Purchase]: [handlers/purchase.go], over the coordinator interface of
      package [redis] that the handler calls;
    - [Scheduler]: the two scheduler entry points of package [scheduler].

    Conventions.  A Go [int] / [int64] is a [Z] with its two's-complement
    wrap-around written out ([GoInt.wrap64]).  A [time.Time] is the number of
    nanoseconds since Go's zero time, a [time.Duration] is a number of
    nanoseconds.  A Go [map[string]T] is a [gmap string T]; reading a missing
    key yields the zero value of [T], as in Go.  A Go result pair
    [(v, err)] is a [result]: [Ok v] when [err == nil], [Err e] otherwise.

    The file has two parts: the embedding (definitions only), then the
    properties proved about it. *)

From Stdlib Require Import ZArith List Lia.
From Stdlib Require DecimalString DecimalZ DecimalPos.
From Stdlib.Strings Require Byte.
From stdpp Require Import gmap strings list.

Local Open Scope Z_scope.

(* ===================================================================== *)
(** * Part I: the embedding *)
(* ===================================================================== *)

(** ** Go integers *)

Module GoInt.

Definition maxInt64 : Z := 2 ^ 63 - 1.
Definition minInt64 : Z := - 2 ^ 63.

(** Two's-complement wrap-around of a 64-bit signed result. *)
Definition wrap64 (z : Z) : Z := (z + 2 ^ 63) mod 2 ^ 64 - 2 ^ 63.

Definition in_int64 (z : Z) : Prop := minInt64 <= z <= maxInt64.

End GoInt.

(** ** The parts of package [time] the sources use *)

Module GoTime.
Import GoInt.

Definition Second : Z := 1000000000.
Definition Minute : Z := 60 * Second.
Definition Hour : Z := 60 * Minute.

(** [t.Sub(u)]: the duration [t - u], saturated to the range of
    [time.Duration] (an [int64] count of nanoseconds). *)
Definition Sub (t u : Z) : Z :=
  if maxInt64 <? t - u then maxInt64
  else if t - u <? minInt64 then minInt64
  else t - u.

(** *** [d.Seconds()]

    [Seconds] returns the float64
    [float64(d / Second) + float64(d % Second) / 1e9]: one division and one
    addition of float64, each rounded to the nearest float64, ties to even.
    Both integers convert exactly (they are below 2^53), so the two
    roundings are all there is.  A float64 of this computation is a
    multiple of 2^-82 (the quotient is 0 or at least 2^-30, and a float64
    has 53 significant bits): the model holds it as the integer count of
    that unit. *)

(** The integer nearest to [a / b], ties to the even one ([0 < b]). *)
Definition round_half_even (a b : Z) : Z :=
  let q := a / b in
  let r := a mod b in
  if 2 * r <? b then q
  else if b <? 2 * r then q + 1
  else if Z.even q then q else q + 1.

Definition float64_unit : Z := 2 ^ 82.

(** The float64 nearest to [a / b], in units of 2^-82, for [0 <= a],
    [0 < b] and a quotient that is 0 or at least 2^-30: with [p] the
    exponent of the quotient in these units, the result is a multiple of
    [2 ^ (p - 52)], the spacing of the float64 around it. *)
Definition float64_nearest (a b : Z) : Z :=
  if a =? 0 then 0
  else
    let x := a * float64_unit in
    let p := Z.log2 (x / b) in
    let ulp := 2 ^ (p - 52) in
    ulp * round_half_even x (b * ulp).

(** [Seconds] of a duration of [a >= 0] nanoseconds, in units of 2^-82. *)
Definition Seconds_abs (a : Z) : Z :=
  float64_nearest
    (a / Second * float64_unit + float64_nearest (a mod Second) 1000000000)
    float64_unit.

(** [d.Seconds()], in units of 2^-82.  Go's [/] and [%] truncate toward
    zero and rounding to nearest is symmetric, so a negative duration gives
    the opposite of what its absolute value gives. *)
Definition Seconds (d : Z) : Z := Z.sgn d * Seconds_abs (Z.abs d).

(** [int(d.Seconds())]: the conversion to [int] truncates toward zero. *)
Definition whole_seconds (d : Z) : Z := Z.quot (Seconds d) float64_unit.

(** [t.Add(d)]. *)
Definition Add (t d : Z) : Z := t + d.

(** [t.Truncate(d)]: [t] rounded down to a multiple of [d] since the zero
    time; [t] itself when [d <= 0]. *)
Definition Truncate (t d : Z) : Z :=
  if d <=? 0 then t else t - t mod d.

End GoTime.

(** ** Go result pairs *)

(** Modelled from the spec: the [error] values of the packages that are not
    in the sources.  The handlers only test [err != nil]; the two
    constructors are the error kinds of the specification that the
    coordinator model below produces (a record that is not there, and a
    collaborator that cannot be reached). *)
Inductive error := ErrNotFound | ErrUnavailable.

Inductive result (A : Type) :=
| Ok (a : A)
| Err (e : error).
Arguments Ok {A} a.
Arguments Err {A} e.

(** ** net/http: requests and the response writer *)

Module Http.
Import Stdlib.Strings.Ascii.

Definition StatusOK : Z := 200.
Definition StatusBadRequest : Z := 400.
Definition StatusForbidden : Z := 403.
Definition StatusConflict : Z := 409.
Definition StatusTooManyRequests : Z := 429.
Definition StatusInternalServerError : Z := 500.
Definition StatusServiceUnavailable : Z := 503.

(** The field values the handlers hand to [encoding/json]; every document
    they encode is a flat object. *)
Inductive jvalue :=
| JBool (b : bool)
| JInt (n : Z)
| JString (s : string).

Definition json : Type := list (string * jvalue).

(** What a handler writes to the body: raw text or one JSON object. *)
Inductive chunk :=
| Text (s : string)
| Json (v : json).

(** [http.ResponseWriter]: the header map, the status line once it has been
    written, and the body written so far. *)
Record ResponseWriter := mkResponseWriter {
  header : gmap string string;
  statusCode : option Z;
  body : list chunk
}.

Definition newResponseWriter : ResponseWriter := mkResponseWriter ∅ None [].

(** The bytes a header field name may hold ([validHeaderFieldByte] of
    package [textproto]): letters, digits and the other token characters of
    RFC 7230. *)
Definition validHeaderFieldByte (c : ascii) : bool :=
  let n := N_of_ascii c in
  ((48 <=? n) && (n <=? 57) || (65 <=? n) && (n <=? 90) ||
   (97 <=? n) && (n <=? 122) ||
   existsb (N.eqb n)
     [33; 35; 36; 37; 38; 39; 42; 43; 45; 46; 94; 95; 96; 124; 126])%N.

(** The loop of [canonicalMIMEHeaderKey]: the first letter and every letter
    after a dash in upper case, the other letters in lower case. *)
Fixpoint canonical_from (upper : bool) (s : string) : string :=
  match s with
  | EmptyString => EmptyString
  | String c rest =>
      let n := N_of_ascii c in
      let c' :=
        if upper && (97 <=? n)%N && (n <=? 122)%N then ascii_of_N (n - 32)
        else if negb upper && (65 <=? n)%N && (n <=? 90)%N
             then ascii_of_N (n + 32)
        else c in
      String c' (canonical_from (Ascii.eqb c' "-") rest)
  end.

(** [textproto.CanonicalMIMEHeaderKey]: a key with a byte that is not valid
    in a field name (a space, for one) is returned as it is. *)
Definition CanonicalMIMEHeaderKey (s : string) : string :=
  if forallb validHeaderFieldByte (String.list_ascii_of_string s)
  then canonical_from true s
  else s.

(** [w.Header().Set(k, v)]: the value is stored under the canonical form of
    the key. *)
Definition Header_Set (k v : string) (w : ResponseWriter) : ResponseWriter :=
  mkResponseWriter (<[CanonicalMIMEHeaderKey k := v]> (header w))
    (statusCode w) (body w).

(** [w.WriteHeader(code)]; a second call does not change the status. *)
Definition WriteHeader (code : Z) (w : ResponseWriter) : ResponseWriter :=
  match statusCode w with
  | None => mkResponseWriter (header w) (Some code) (body w)
  | Some _ => w
  end.

(** [w.Write(data)]: if [WriteHeader] has not been called yet, [Write] calls
    [WriteHeader(http.StatusOK)] before writing the data. *)
Definition Write (c : chunk) (w : ResponseWriter) : ResponseWriter :=
  let w1 := WriteHeader StatusOK w in
  mkResponseWriter (header w1) (statusCode w1) (body w1 ++ [c]).

(** The line feed that [fmt.Fprintln] puts after its operand. *)
Definition newline : string := String "010" EmptyString.

(** [http.Error(w, msg, code)]: the two headers, the status, and the
    message as a line ([fmt.Fprintln(w, msg)]). *)
Definition Error (w : ResponseWriter) (msg : string) (code : Z) : ResponseWriter :=
  let w1 := Header_Set "Content-Type" "text/plain; charset=utf-8" w in
  let w2 := Header_Set "X-Content-Type-Options" "nosniff" w1 in
  Write (Text (String.append msg newline)) (WriteHeader code w2).

(** [json.NewEncoder(w).Encode(v)]. *)
Definition Encode (v : json) (w : ResponseWriter) : ResponseWriter :=
  Write (Json v) w.

(** The status the client receives: the one written, or 200 when the
    handler returns without writing any. *)
Definition sent_status (w : ResponseWriter) : Z :=
  default StatusOK (statusCode w).

(** [*http.Request], reduced to its query string: the (key, value) pairs in
    the order of the URL. *)
Record Request := mkRequest { query : list (string * string) }.

(** [r.URL.Query().Get(key)]: the first value of the key, [""] if none. *)
Definition Query_Get (r : Request) (key : string) : string :=
  match find (fun kv => String.eqb (fst kv) key) (query r) with
  | Some kv => snd kv
  | None => ""
  end.

End Http.

(** ** middleware/ratelimit.go *)

Module RateLimit.
Import GoInt GoTime.

(** [type RateLimiter struct].  The mutex is not a field of the model: every
    [Allow] holds it from its first to its last statement, so calls are
    serialised and a run of the limiter is a sequence of [Allow] calls. *)
Record RateLimiter := mkRateLimiter {
  rate : Z;
  burst : Z;
  tokens : gmap string Z;
  lastRefill : gmap string Z
}.

Definition NewRateLimiter (rate burst : Z) : RateLimiter :=
  mkRateLimiter rate burst ∅ ∅.

(** [rl.tokens[key]]: the zero value when the key is absent. *)
Definition tok (rl : RateLimiter) (key : string) : Z :=
  default 0 (tokens rl !! key).

(** [rl.tokens[key] = n]. *)
Definition set_tokens (rl : RateLimiter) (key : string) (n : Z) : RateLimiter :=
  mkRateLimiter (rate rl) (burst rl) (<[key := n]> (tokens rl)) (lastRefill rl).

(** [rl.lastRefill[key] = t]. *)
Definition set_lastRefill (rl : RateLimiter) (key : string) (t : Z) : RateLimiter :=
  mkRateLimiter (rate rl) (burst rl) (tokens rl) (<[key := t]> (lastRefill rl)).

(** [func min(a, b int) int]. *)
Definition min (a b : Z) : Z := if a <? b then a else b.

(** [tokensToAdd := int(now.Sub(lastRefill).Seconds()) * rl.rate]. *)
Definition tokensToAdd (rl : RateLimiter) (now last : Z) : Z :=
  wrap64 (whole_seconds (Sub now last) * rate rl).

(** The refill block of [Allow], for a key last refilled at [last]. *)
Definition refill (rl : RateLimiter) (now : Z) (key : string) (last : Z)
  : RateLimiter :=
  let add := tokensToAdd rl now last in
  if 0 <? add then
    set_lastRefill
      (set_tokens rl key (min (wrap64 (tok rl key + add)) (burst rl)))
      key now
  else rl.

(** [func (rl *RateLimiter) Allow(key string) bool], with the reading of
    [time.Now()] as the argument [now]. *)
Definition Allow (rl : RateLimiter) (now : Z) (key : string)
  : RateLimiter * bool :=
  match lastRefill rl !! key with
  | None =>
      (set_lastRefill (set_tokens rl key (burst rl)) key now, true)
  | Some last =>
      let rl1 := refill rl now key last in
      if 0 <? tok rl1 key then
        (set_tokens rl1 key (wrap64 (tok rl1 key - 1)), true)
      else (rl1, false)
  end.

(** A run of the limiter: the calls in the order in which they take the
    mutex, each with its clock reading and its key. *)
Fixpoint run (rl : RateLimiter) (calls : list (Z * string))
  : RateLimiter * list bool :=
  match calls with
  | [] => (rl, [])
  | (now, key) :: rest =>
      let '(rl1, ok) := Allow rl now key in
      let '(rl2, oks) := run rl1 rest in
      (rl2, ok :: oks)
  end.

(** The parameters for which no computation of [Allow] leaves the range of
    [int]: a [time.Duration] holds at most 9223372036 whole seconds. *)
Definition sane (rl : RateLimiter) : Prop :=
  0 <= rate rl /\ 0 <= burst rl /\
  rate rl * 9223372036 + burst rl <= maxInt64.

(** The keys that have been seen hold between 0 and [burst] tokens. *)
Definition bounded (rl : RateLimiter) : Prop :=
  forall key, is_Some (lastRefill rl !! key) -> 0 <= tok rl key <= burst rl.

(** Second definition, following the specification's words: the token count
    after a refill that is proportional to the elapsed time,
    [tokens += elapsed_seconds * rate], clamped at [burst] (whole tokens). *)
Definition proportional_refill (rl : RateLimiter) (now : Z) (key : string)
  (last : Z) : Z :=
  Z.min (tok rl key + (now - last) * rate rl / Second) (burst rl).

End RateLimit.

(** ** handlers/health.go *)

Module Health.
Import Http.

(** The anonymous struct the handler encodes. *)
Record health := mkHealth {
  Status : string;
  Timestamp : Z;
  Database : string;
  Redis : string
}.

(** The JSON document of the struct, with the field tags of the source. *)
Definition health_json (h : health) : json :=
  [("status", JString (Status h));
   ("timestamp", JInt (Timestamp h));
   ("database", JString (Database h));
   ("redis", JString (Redis h))].

(** [func HealthCheck(db, redisClient) http.HandlerFunc].  The two
    collaborators are not in the sources; the handler only looks at the
    [error] their [Ping] returns, which is what the model takes: [dbPing] and
    [redisPing] are [None] for [nil].  [unix] is [time.Now().Unix()]. *)
Definition HealthCheck (dbPing redisPing : option error) (unix : Z)
  (w : ResponseWriter) : ResponseWriter :=
  let h0 := mkHealth "OK" unix "OK" "OK" in
  let h1 :=
    match dbPing with
    | Some _ => mkHealth "ERROR" (Timestamp h0) "ERROR" (Redis h0)
    | None => h0
    end in
  let h2 :=
    match redisPing with
    | Some _ => mkHealth "ERROR" (Timestamp h1) (Database h1) "ERROR"
    | None => h1
    end in
  Encode (health_json h2) (Header_Set "Content-Type" "application/json" w).

End Health.

(** ** handlers/purchase.go *)

Module Purchase.
Import Http.

(** *** The two collaborators of the handler *)

(** Modelled from the spec: a row of the [purchases] table of the durable
    store, with the attributes the specification lists for a Purchase
    (section 3).  Package [database] is not in the sources. *)
Record PurchaseRow := mkPurchaseRow {
  purchase_id : string;
  row_user_id : string;
  row_item_id : string;
  row_sale_id : string;
  checkout_code : string
}.

(** Modelled from the spec: the durable store, reduced to its [purchases]
    table. *)
Record DB := mkDB { purchases : list PurchaseRow }.

(** The functions of package [redis] that the handler calls, as an
    interface over the coordinator's state [C]: each call takes the state
    before and gives the state after with the Go result. *)
Class Coordinator (C : Type) := {
  GetCheckoutSession : C -> string -> C * result (string * string);
  DecrementInventory : C -> string -> C * result bool
}.

(** *** The source *)

(** [func recordPurchase(db, userID, itemID) (string, error)]: the placeholder
    of the source; it does not touch [db]. *)
Definition recordPurchase (db : DB) (userID itemID : string)
  : DB * result string :=
  (db, Ok "purchase_a1b2c3d4e5f6g7h8").

(** The map the handler encodes on success; [encoding/json] writes the keys
    of a map in sorted order. *)
Definition success_body (purchaseID : string) : json :=
  [("message", JString "Purchase completed successfully");
   ("purchase_id", JString purchaseID);
   ("success", JBool true)].

(** [func PurchaseHandler(db, redisClient) http.HandlerFunc], applied to a
    request and a response writer. *)
Definition PurchaseHandler {C} `{Coordinator C} (db : DB) (co : C)
  (r : Request) (w : ResponseWriter) : DB * C * ResponseWriter :=
  let checkoutCode := Query_Get r "code" in
  if String.eqb checkoutCode "" then
    (db, co, Error w "Missing checkout code" StatusBadRequest)
  else
    let '(co1, session) := GetCheckoutSession co checkoutCode in
    match session with
    | Err _ =>
        (db, co1, Error w "Invalid or expired checkout code" StatusBadRequest)
    | Ok (userID, itemID) =>
        let '(co2, decremented) := DecrementInventory co1 itemID in
        match decremented with
        | Err _ =>
            (db, co2,
             Error w "Error processing purchase" StatusInternalServerError)
        | Ok false => (db, co2, Error w "Item sold out" StatusConflict)
        | Ok true =>
            let '(db1, recorded) := recordPurchase db userID itemID in
            match recorded with
            | Err _ =>
                (db1, co2,
                 Error w "Error recording purchase" StatusInternalServerError)
            | Ok purchaseID =>
                (db1, co2,
                 Encode (success_body purchaseID)
                   (Header_Set "Content-Type" "application/json" w))
            end
        end
    end.

(** *** The handler as a goroutine that can be interleaved with others

    Each request runs on its own goroutine.  Between two calls to a
    collaborator a handler can be descheduled, so a goroutine is the handler's
    local variables with the place it has reached; one [step] runs it up to
    and including its next call. *)
Inductive label := LLookup | LDecrement | LRecord | LDone.

Record goroutine := mkGoroutine {
  pc : label;
  checkoutCode : string;
  userID : string;
  itemID : string;
  resp : ResponseWriter
}.

(** From the entry of the handler to its first call. *)
Definition spawn (r : Request) (w : ResponseWriter) : goroutine :=
  let code := Query_Get r "code" in
  if String.eqb code "" then
    mkGoroutine LDone code "" ""
      (Error w "Missing checkout code" StatusBadRequest)
  else mkGoroutine LLookup code "" "" w.

Definition step {C} `{Coordinator C} (db : DB) (co : C) (t : goroutine)
  : DB * C * goroutine :=
  match pc t with
  | LLookup =>
      let '(co1, session) := GetCheckoutSession co (checkoutCode t) in
      match session with
      | Err _ =>
          (db, co1,
           mkGoroutine LDone (checkoutCode t) (userID t) (itemID t)
             (Error (resp t) "Invalid or expired checkout code"
                StatusBadRequest))
      | Ok (u, i) =>
          (db, co1, mkGoroutine LDecrement (checkoutCode t) u i (resp t))
      end
  | LDecrement =>
      let '(co2, decremented) := DecrementInventory co (itemID t) in
      match decremented with
      | Err _ =>
          (db, co2,
           mkGoroutine LDone (checkoutCode t) (userID t) (itemID t)
             (Error (resp t) "Error processing purchase"
                StatusInternalServerError))
      | Ok false =>
          (db, co2,
           mkGoroutine LDone (checkoutCode t) (userID t) (itemID t)
             (Error (resp t) "Item sold out" StatusConflict))
      | Ok true =>
          (db, co2,
           mkGoroutine LRecord (checkoutCode t) (userID t) (itemID t) (resp t))
      end
  | LRecord =>
      let '(db1, recorded) := recordPurchase db (userID t) (itemID t) in
      match recorded with
      | Err _ =>
          (db1, co,
           mkGoroutine LDone (checkoutCode t) (userID t) (itemID t)
             (Error (resp t) "Error recording purchase"
                StatusInternalServerError))
      | Ok purchaseID =>
          (db1, co,
           mkGoroutine LDone (checkoutCode t) (userID t) (itemID t)
             (Encode (success_body purchaseID)
                (Header_Set "Content-Type" "application/json" (resp t))))
      end
  | LDone => (db, co, t)
  end.

(** The system: the two stores and the goroutines in flight. *)
Definition system (C : Type) : Type := DB * C * list goroutine.

(** The scheduler lets goroutine [i] take its next step. *)
Definition step_at {C} `{Coordinator C} (s : system C) (i : nat) : system C :=
  let '(db, co, ts) := s in
  match ts !! i with
  | Some t =>
      let '(db1, co1, t1) := step db co t in
      (db1, co1, <[i := t1]> ts)
  | None => s
  end.

(** An execution under a schedule: the indices of the goroutines in the
    order in which they take their steps. *)
Definition exec {C} `{Coordinator C} (s : system C) (sched : list nat)
  : system C :=
  fold_left step_at sched s.

(** A granted purchase: the goroutine has passed the inventory decrement, or
    has finished with status 200. *)
Definition granted (t : goroutine) : bool :=
  match pc t with
  | LLookup | LDecrement => false
  | LRecord => true
  | LDone => sent_status (resp t) =? StatusOK
  end.

(** *** The coordinator

    Package [redis] ([GetCheckoutSession], [DecrementInventory]) is not in
    the sources; this part models it from the specification. *)

(** Modelled from the spec: the record kept under [checkout:{code}]
    (section 6, CO key schema). *)
Record Session := mkSession {
  user_id : string;
  item_id : string;
  sale_id : string
}.

(** Modelled from the spec: the state of the coordinator, with the key
    spaces of section 6: the checkout sessions by code, the integer
    counters by key, the per-(sale, user) counters.  [link] is the
    connectivity the next calls will meet, one entry per call ([true]: the
    call reaches the coordinator); when the list is used up every call
    reaches it. *)
Record CO := mkCO {
  sessions : gmap string Session;
  inventory : gmap string Z;
  user_count : gmap (string * string) Z;
  link : list bool
}.

(** Modelled from the spec: one call reaches the coordinator or not
    (section 7: a connectivity failure is [Transient]). *)
Definition reach (co : CO) : bool * CO :=
  match link co with
  | [] => (true, co)
  | up :: rest =>
      (up, mkCO (sessions co) (inventory co) (user_count co) rest)
  end.

(** Modelled from the spec: [redis.GetCheckoutSession] as the [get] of the
    keyed session record (section 4.2); a missing, expired or deleted
    session is absent from [sessions].  An unreachable coordinator is the
    specification's [Transient]. *)
Definition spec_GetCheckoutSession (co : CO) (code : string)
  : CO * result (string * string) :=
  let '(up, co1) := reach co in
  if up then
    match sessions co1 !! code with
    | Some s => (co1, Ok (user_id s, item_id s))
    | None => (co1, Err ErrNotFound)
    end
  else (co1, Err ErrUnavailable).

(** Modelled from the spec: [redis.DecrementInventory] as the atomic counter
    with decrement-if-positive semantics (section 4.2): [true] with the
    counter decremented, or [false] (depleted) with the counter unchanged; an
    absent counter counts as 0.  The handler passes an item id and the
    specification keeps one counter per sale, [sale:{sale_id}:inventory];
    [inventory_key] is the key of the counter that the function addresses
    for an item id. *)
Definition spec_DecrementInventory (inventory_key : string -> string)
  (co : CO) (itemID : string) : CO * result bool :=
  let '(up, co1) := reach co in
  if up then
    let k := inventory_key itemID in
    let n := default 0 (inventory co1 !! k) in
    if 0 <? n then
      (mkCO (sessions co1) (<[k := n - 1]> (inventory co1)) (user_count co1)
         (link co1), Ok true)
    else (co1, Ok false)
  else (co1, Err ErrUnavailable).

(** Modelled from the spec: package [redis] as the two functions above. *)
Definition specCoordinator (inventory_key : string -> string)
  : Coordinator CO :=
  {| GetCheckoutSession := spec_GetCheckoutSession;
     DecrementInventory := spec_DecrementInventory inventory_key |}.

(** The counter an item's purchases draw on, read in a state. *)
Definition stock (co : CO) (k : string) : Z := default 0 (inventory co !! k).

(** The per-(sale, user) counter, read in a state. *)
Definition bought (co : CO) (sale user : string) : Z :=
  default 0 (user_count co !! (sale, user)).

(** The state after one unit has been taken from the counter of an item. *)
Definition taken (inventory_key : string -> string) (co : CO) (item : string)
  : CO :=
  mkCO (sessions co)
    (<[inventory_key item := stock co (inventory_key item) - 1]> (inventory co))
    (user_count co) (link co).

(** The number of goroutines of a list that pass a test. *)
Fixpoint tally (f : goroutine -> bool) (ts : list goroutine) : Z :=
  match ts with
  | [] => 0
  | t :: rest => Z.b2z (f t) + tally f rest
  end.

(** A granted purchase that drew on the counter of key [k]. *)
Definition draws (inventory_key : string -> string) (k : string) (t : goroutine)
  : bool :=
  granted t && String.eqb (inventory_key (itemID t)) k.

(** A goroutine that has not finished has not answered yet. *)
Definition unanswered (t : goroutine) : Prop :=
  pc t <> LDone -> statusCode (resp t) = None.

(** The goroutines of the requests that have just come in. *)
Definition arrivals (reqs : list Request) : list goroutine :=
  map (fun r => spawn r newResponseWriter) reqs.

(** *** The outcome the specification assigns to a redemption

    Second definitions, following the specification's words (sections 4.4,
    6 and 7), to compare the handler with. *)
Inductive outcome :=
| Success
| MissingCode
| InvalidOrExpiredCode
| UserLimitExceeded
| SoldOut
| Conflict
| Transient.

(** Section 6: the status of each outcome of [POST /purchase]. *)
Definition spec_status (o : outcome) : Z :=
  match o with
  | Success => 200
  | MissingCode | InvalidOrExpiredCode => 400
  | UserLimitExceeded => 403
  | SoldOut | Conflict => 409
  | Transient => 503
  end.

(** Section 4.4, steps 1 to 4, with per-user cap [cap]: the outcome of
    redeeming [code] in the coordinator state [co]. *)
Definition spec_outcome (inventory_key : string -> string) (cap : Z)
  (co : CO) (code : string) : outcome :=
  if String.eqb code "" then MissingCode
  else if negb (fst (reach co)) then Transient
  else
    match sessions co !! code with
    | None => InvalidOrExpiredCode
    | Some s =>
        if cap <=? bought co (sale_id s) (user_id s) then UserLimitExceeded
        else if 0 <? stock co (inventory_key (item_id s)) then Success
        else SoldOut
    end.

(** *** The purchases of a sale

    The handler receives from [GetCheckoutSession] the user and the item of
    a session, not its sale, and hands [DecrementInventory] the item id. *)

(** Modelled from the spec: the key of the inventory counter of a sale,
    [sale:{sale_id}:inventory] (section 6, CO key schema). *)
Definition sale_inventory_key (sale : string) : string :=
  String.append "sale:" (String.append sale ":inventory").

(** Modelled from the spec: package [redis] for items that are known by
    their sale.  An item belongs to exactly one sale (section 3), which
    [sale_of] gives; the counter that [DecrementInventory] addresses for an
    item id is the counter of the item's sale (section 4.4, step 4). *)
Definition saleCoordinator (sale_of : string -> string) : Coordinator CO :=
  specCoordinator (fun item => sale_inventory_key (sale_of item)).

(** Modelled from the spec: a checkout session names the sale of its item
    (sections 3 and 4.3: the checkout validates the item against the
    sale). *)
Definition sessions_consistent (sale_of : string -> string) (co : CO) : Prop :=
  forall code ses,
    sessions co !! code = Some ses -> sale_id ses = sale_of (item_id ses).

(** The number of Purchase rows with [sale_id = s]. *)
Definition rows_of_sale (s : string) (db : DB) : Z :=
  Z.of_nat
    (length
       (List.filter (fun row => String.eqb (row_sale_id row) s)
          (purchases db))).

(** A granted purchase of the sale [s]: the session of the code that the
    goroutine redeems, as the coordinator [co] holds it, is a session of
    [s]. *)
Definition purchase_of_sale (co : CO) (s : string) (t : goroutine) : bool :=
  granted t &&
  match sessions co !! checkoutCode t with
  | Some ses => String.eqb (sale_id ses) s
  | None => false
  end.

(** A goroutine that is past the lookup holds the item of the session of
    its code. *)
Definition holds_session (co : CO) (t : goroutine) : Prop :=
  pc t = LDecrement \/ pc t = LRecord \/ (pc t = LDone /\ granted t = true) ->
  exists ses,
    sessions co !! checkoutCode t = Some ses /\ item_id ses = itemID t.

(** *** A small sale, for concrete runs

    The end-to-end scenarios of the specification (section 8): one sale
    [s1] whose items all draw on the counter [sale:s1:inventory], two users
    with a checkout code each. *)
Definition s1_key (item : string) : string := "sale:s1:inventory".

Definition post (code : string) : Request := mkRequest [("code", code)].

Definition s1_sessions : gmap string Session :=
  {[ "K1" := mkSession "u1" "I1" "s1"; "K2" := mkSession "u2" "I2" "s1" ]}.

(** [n] items left, user [u1] having bought [c] items already. *)
Definition s1_state (n c : Z) (link : list bool) : CO :=
  mkCO s1_sessions {[ "sale:s1:inventory" := n ]} {[ ("s1", "u1") := c ]} link.

(** Two sales: the items [I1] and [I2] belong to [s1], every other item to
    [s2]; a third code [K3] of user [u1] for the item [J1] of [s2]. *)
Definition two_sales_of (item : string) : string :=
  if String.eqb item "I1" || String.eqb item "I2" then "s1" else "s2".

(** [n1] items left in [s1], [n2] in [s2]. *)
Definition two_sales_state (n1 n2 : Z) : CO :=
  mkCO (<["K3" := mkSession "u1" "J1" "s2"]> s1_sessions)
    {[ "sale:s1:inventory" := n1; "sale:s2:inventory" := n2 ]} ∅ [].

End Purchase.

(** ** package scheduler *)

Module Scheduler.
Import GoInt GoTime.

(** Modelled from the spec: the status values of a sale (section 3);
    package [models] is not in the sources. *)
Inductive SaleStatus :=
| SaleStatusScheduled
| SaleStatusActive
| SaleStatusCompleted
| SaleStatusCancelled.

(** [models.Sale], with the fields of the literal in [createNewSale]. *)
Record Sale := mkSale {
  SaleID : string;
  StartTime : Z;
  EndTime : Z;
  TotalItems : Z;
  ItemsSold : Z;
  Status : SaleStatus
}.

(** The row of the [INSERT INTO sales (start_time, end_time, total_items)]
    of the second entry point. *)
Record SaleRow := mkSaleRow {
  start_time : Z;
  end_time : Z;
  total_items : Z
}.

(** The channels the scheduler's [select] statements wait on; a run of the
    scheduler is the list of the channels that fire, in order. *)
Inductive event := AfterC | TickerC | CleanupTickerC | CtxDone.

(** [func waitUntilNextHour() time.Duration], at the clock reading [now]. *)
Definition waitUntilNextHour (now : Z) : Z :=
  let nextHour := Add (Truncate now Hour) Hour in
  Sub nextHour now.

Section WithCollaborators.

(** What the scheduler takes from outside: the constant
    [models.ItemsPerSale]; what [generateSaleID] returns at an instant, an
    id or the error of [rand.Read] (its random bytes are not modelled
    here); whether [db.CreateSale] accepts a sale given the rows present;
    whether the rest of [createNewSale] (item generation, [CreateItems],
    [InitializeSale]) succeeds for a sale; and [db.GetActiveSale]. *)
Variable ItemsPerSale : Z.
Variable generateSaleID : Z -> result string.
Variable CreateSale_ok : list Sale -> Sale -> bool.
Variable provision_ok : Sale -> bool.
Variable GetActiveSale : list Sale -> result (option Sale).

(** The sale record [createNewSale] builds for the id [saleID] at the clock
    reading [now]. *)
Definition Scheduler_newSale (saleID : string) (now : Z) : Sale :=
  let startTime := Truncate now Hour in
  let endTime := Add startTime Hour in
  mkSale saleID startTime endTime ItemsPerSale 0 SaleStatusActive.

(** [func (s *Scheduler) createNewSale() error] on the [sales] table.  When
    the id cannot be generated nothing is inserted; a sale row that has been
    inserted stays when a later step fails. *)
Definition Scheduler_createNewSale (db : list Sale) (now : Z)
  : list Sale * option error :=
  match generateSaleID now with
  | Err e => (db, Some e)
  | Ok saleID =>
      let sale := Scheduler_newSale saleID now in
      if CreateSale_ok db sale then
        if provision_ok sale then (db ++ [sale], None)
        else (db ++ [sale], Some ErrUnavailable)
      else (db, Some ErrUnavailable)
  end.

(** The rows that one call of [createNewSale] at [now] adds to a store that
    accepts every sale: the sale, when its id could be generated. *)
Definition attempted (now : Z) : list Sale :=
  match generateSaleID now with
  | Ok saleID => [Scheduler_newSale saleID now]
  | Err _ => []
  end.

(** The main loop of [Start].  [ticker] is the instant of the ticker's last
    tick, or of its creation before the first one: a [time.Ticker] of period
    [d] delivers its ticks [d] apart, the first one [d] after
    [time.NewTicker(d)]. *)
Fixpoint Scheduler_loop (db : list Sale) (ticker : Z) (evs : list event)
  : list Sale :=
  match evs with
  | TickerC :: rest =>
      let tick := Add ticker Hour in
      Scheduler_loop (fst (Scheduler_createNewSale db tick)) tick rest
  | CleanupTickerC :: rest => Scheduler_loop db ticker rest
  | _ => db
  end.

(** [func (s *Scheduler) Start(ctx) error]: the [sales] table it leaves.
    [now] is the clock reading of the initial [createNewSale], [now'] the
    later reading of [waitUntilNextHour]; [time.After(waitDuration)] fires
    [waitDuration] after [now']. *)
Definition Scheduler_Start_at (db : list Sale) (now now' : Z)
  (evs : list event) : list Sale :=
  match GetActiveSale db with
  | Err _ => db
  | Ok activeSale =>
      let created :=
        match activeSale with
        | None => Scheduler_createNewSale db now
        | Some _ => (db, None)
        end in
      match created with
      | (db1, Some _) => db1
      | (db1, None) =>
          let waitDuration := waitUntilNextHour now' in
          match evs with
          | AfterC :: rest => Scheduler_loop db1 (Add now' waitDuration) rest
          | _ => db1
          end
      end
  end.

(** [Start] when the startup takes no time: both readings are [now]. *)
Definition Scheduler_Start (db : list Sale) (now : Z) (evs : list event)
  : list Sale :=
  Scheduler_Start_at db now now evs.

(** [func createNewSale(db *sql.DB)]: the row it inserts at [now]. *)
Definition newSaleRow (now : Z) : SaleRow :=
  let startTime := Truncate now Hour in
  let endTime := Add startTime (1 * Hour) in
  mkSaleRow startTime endTime 10000.

Variable Exec_ok : list SaleRow -> SaleRow -> bool.

Definition createNewSale (db : list SaleRow) (now : Z) : list SaleRow :=
  let row := newSaleRow now in
  if Exec_ok db row then db ++ [row] else db.

(** [func StartScheduler(db *sql.DB)], started at [now]: the table after
    the given number of ticks of its ticker. *)
Fixpoint StartScheduler (db : list SaleRow) (now : Z) (ticks : nat)
  : list SaleRow :=
  match ticks with
  | O => db
  | S n =>
      let tick := Add now (1 * Hour) in
      StartScheduler (createNewSale db tick) tick n
  end.

End WithCollaborators.

(** Modelled from the spec: [db.GetActiveSale] returns the sale whose status
    is active, or none (section 4.1). *)
Definition spec_GetActiveSale (db : list Sale) : result (option Sale) :=
  Ok (List.find
        (fun s => match Status s with SaleStatusActive => true | _ => false end)
        db).

(** The first instant of the hour numbered [h] since the zero time, and an
    instant [m] minutes into it. *)
Definition hour_start (h : Z) : Z := h * Hour.
Definition at_minute (h m : Z) : Z := h * Hour + m * Minute.

End Scheduler.

(** ** middleware/ratelimit.go and main.go: the middleware chain *)

Module Middleware.
Import Http RateLimit.

(** [*http.Request] with the fields the middlewares read; [URL] is the
    query the handlers read. *)
Record HttpRequest := mkHttpRequest {
  Method : string;
  Path : string;
  RemoteAddr : string;
  URL : Request
}.

(** The interface [http.ResponseWriter]: the three methods, on a writer of
    any type. *)
Class Writer (W : Type) := {
  w_Header_Set : string -> string -> W -> W;
  w_WriteHeader : Z -> W -> W;
  w_Write : chunk -> W -> W
}.

(** The writer of the server itself. *)
Instance serverWriter : Writer ResponseWriter := {|
  w_Header_Set := Header_Set;
  w_WriteHeader := WriteHeader;
  w_Write := Write
|}.

(** [type responseWriter struct] of main.go: the wrapped writer and the
    status code captured for the log. *)
Record responseWriter (W : Type) := mkResponseWriterWrapper {
  wrapped : W;
  captured : Z
}.
Arguments mkResponseWriterWrapper {W} wrapped captured.
Arguments wrapped {W} r.
Arguments captured {W} r.

(** [func (rw *responseWriter) WriteHeader(code int)]. *)
Definition responseWriter_WriteHeader {W} `{Writer W} (code : Z)
  (rw : responseWriter W) : responseWriter W :=
  mkResponseWriterWrapper (w_WriteHeader code (wrapped rw)) code.

(** The wrapper as an [http.ResponseWriter]: [Header] and [Write] are the
    promoted methods of the embedded writer, [WriteHeader] is its own. *)
Instance wrapperWriter {W} `{Writer W} : Writer (responseWriter W) := {|
  w_Header_Set k v rw :=
    mkResponseWriterWrapper (w_Header_Set k v (wrapped rw)) (captured rw);
  w_WriteHeader := responseWriter_WriteHeader;
  w_Write c rw :=
    mkResponseWriterWrapper (w_Write c (wrapped rw)) (captured rw)
|}.

(** [http.Error(w, msg, code)] on any writer. *)
Definition w_Error {W} `{Writer W} (w : W) (msg : string) (code : Z) : W :=
  let w1 := w_Header_Set "Content-Type" "text/plain; charset=utf-8" w in
  let w2 := w_Header_Set "X-Content-Type-Options" "nosniff" w1 in
  w_Write (Text (String.append msg newline)) (w_WriteHeader code w2).

(** [http.Handler]: [ServeHTTP(w, r)] on a writer of any type, at the clock
    reading [now], over the state [S] the handler works on. *)
Definition Handler (S : Type) : Type :=
  forall W, Writer W -> Z -> S -> HttpRequest -> W -> S * W.

(** [func RateLimitMiddleware(next, limiter) http.Handler]. *)
Definition RateLimitMiddleware {S} (next : Handler S)
  : Handler (RateLimiter * S) :=
  fun W _ now st r w =>
    let '(limiter, ok) := Allow st.1 now (RemoteAddr r) in
    if negb ok then
      ((limiter, st.2), w_Error w "Rate limit exceeded" StatusTooManyRequests)
    else
      let '(s1, w1) := next W _ now st.2 r w in
      ((limiter, s1), w1).

(** [func corsMiddleware(next) http.Handler]. *)
Definition corsMiddleware {S} (next : Handler S) : Handler S :=
  fun W _ now s r w =>
    let w1 := w_Header_Set "Access-Control-Allow-Origin" "*" w in
    let w2 :=
      w_Header_Set "Access-Control-Allow-Methods"
        "GET, POST, PUT, DELETE, OPTIONS" w1 in
    let w3 :=
      w_Header_Set "Access-Control-Allow-Headers"
        "Content-Type, Authorization" w2 in
    if String.eqb (Method r) "OPTIONS" then (s, w_WriteHeader StatusOK w3)
    else next W _ now s r w3.

(** A line of the request log: method, path and status (the duration is not
    modelled). *)
Record LogLine := mkLogLine {
  log_method : string;
  log_path : string;
  log_status : Z
}.

(** [func loggingMiddleware(next) http.Handler]; the log is part of the
    state. *)
Definition loggingMiddleware {S} (next : Handler S)
  : Handler (list LogLine * S) :=
  fun W _ now st r w =>
    let wrapper := mkResponseWriterWrapper w StatusOK in
    let '(s1, wrapper1) := next (responseWriter W) _ now st.2 r wrapper in
    ((st.1 ++ [mkLogLine (Method r) (Path r) (captured wrapper1)], s1),
     wrapped wrapper1).

(** [finalHandler] of [main], over the handler behind the three
    middlewares (the mux). *)
Definition finalHandler {S} (mux : Handler S)
  : Handler (list LogLine * (RateLimiter * S)) :=
  corsMiddleware (loggingMiddleware (RateLimitMiddleware mux)).

(** The handler of the root route in [main]. *)
Definition rootHandler : Handler unit :=
  fun W _ now s r w =>
    if negb (String.eqb (Path r) "/") then
      (s, w_Error w "404 page not found" 404)
    else
      let w1 := w_Header_Set "Content-Type" "application/json" w in
      let w2 := w_WriteHeader StatusOK w1 in
      (s, w_Write
            (Json [("success", JBool true);
                   ("message", JString "Flash Sale Service is running");
                   ("version", JString "1.0.0")]) w2).

(** What a handler does to its writer, as the method calls it makes. *)
Inductive call :=
| CHeaderSet (k v : string)
| CWriteHeader (code : Z)
| CWrite (c : chunk).

Definition play1 {W} `{Writer W} (w : W) (c : call) : W :=
  match c with
  | CHeaderSet k v => w_Header_Set k v w
  | CWriteHeader code => w_WriteHeader code w
  | CWrite ch => w_Write ch w
  end.

Definition play {W} `{Writer W} (calls : list call) (w : W) : W :=
  fold_left play1 calls w.

(** A handler given by the calls it makes, which it chooses from the clock,
    its state and the request. *)
Definition scripted {S} (script : Z -> S -> HttpRequest -> S * list call)
  : Handler S :=
  fun W _ now s r w =>
    let '(s1, calls) := script now s r in (s1, play calls w).

(** The calls of [http.Error]. *)
Definition Error_calls (msg : string) (code : Z) : list call :=
  [CHeaderSet "Content-Type" "text/plain; charset=utf-8";
   CHeaderSet "X-Content-Type-Options" "nosniff";
   CWriteHeader code;
   CWrite (Text (String.append msg newline))].

Definition is_WriteHeader (c : call) : bool :=
  match c with CWriteHeader _ => true | _ => false end.

(** Calls that write the status at most once, and not after the body has
    begun. *)
Fixpoint orderly (calls : list call) : bool :=
  match calls with
  | [] => true
  | CHeaderSet _ _ :: rest => orderly rest
  | CWriteHeader _ :: rest => forallb (fun c => negb (is_WriteHeader c)) rest
  | CWrite _ :: rest => forallb (fun c => negb (is_WriteHeader c)) rest
  end.

(** The server serves the requests one after the other, each with its clock
    reading and a fresh writer. *)
Fixpoint serve_all {S} (h : Handler S) (s : S) (reqs : list (Z * HttpRequest))
  : S * list ResponseWriter :=
  match reqs with
  | [] => (s, [])
  | (now, r) :: rest =>
      let '(s1, w1) := h ResponseWriter _ now s r newResponseWriter in
      let '(s2, ws) := serve_all h s1 rest in
      (s2, w1 :: ws)
  end.

(** The calls of the limiter that a list of requests makes. *)
Definition limiter_calls (reqs : list (Z * HttpRequest)) : list (Z * string) :=
  map (fun tr => (tr.1, RemoteAddr tr.2)) reqs.

(** The requests that the limiter's verdicts let through. *)
Fixpoint admitted (reqs : list (Z * HttpRequest)) (oks : list bool)
  : list (Z * HttpRequest) :=
  match reqs, oks with
  | tr :: reqs, ok :: oks =>
      if ok then tr :: admitted reqs oks else admitted reqs oks
  | _, _ => []
  end.

(** The number of calls of a run that were made for [key] and granted. *)
Fixpoint grants (key : string) (calls : list (Z * string)) (oks : list bool)
  : Z :=
  match calls, oks with
  | (_, k) :: calls, ok :: oks =>
      (if decide (k = key) then Z.b2z ok else 0) + grants key calls oks
  | _, _ => 0
  end.

(** The budget of a key first served at [t0], over calls that arrive within
    [D] of [t0]: the grants so far and the tokens in hand are covered by
    the burst, the free first call and the whole seconds refilled. *)
Definition within_budget (R B : Z) (key : string) (t0 D : Z) (rl : RateLimiter)
  (G : Z) : Prop :=
  rate rl = R /\ burst rl = B /\
  exists last,
    lastRefill rl !! key = Some last /\
    t0 <= last <= t0 + D /\
    0 <= tok rl key <= B /\
    G + tok rl key <= 1 + B + R * ((last - t0) / GoTime.Second).

(** The answer of [RateLimitMiddleware] to a request it refuses. *)
Definition refusal : ResponseWriter :=
  Error newResponseWriter "Rate limit exceeded" StatusTooManyRequests.

(** The answers to a list of requests, from the limiter's verdicts and the
    answers of the handler to the requests that were let through. *)
Fixpoint answers (oks : list bool) (served : list ResponseWriter)
  : list ResponseWriter :=
  match oks with
  | [] => []
  | false :: oks => refusal :: answers oks served
  | true :: oks =>
      match served with
      | w :: served => w :: answers oks served
      | [] => []
      end
  end.

(** The calls that [RateLimitMiddleware] makes around a handler given by its
    calls. *)
Definition gate_script {S} (script : Z -> S -> HttpRequest -> S * list call)
  (now : Z) (st : RateLimiter * S) (r : HttpRequest)
  : (RateLimiter * S) * list call :=
  let '(limiter, ok) := Allow st.1 now (RemoteAddr r) in
  if negb ok then
    ((limiter, st.2), Error_calls "Rate limit exceeded" StatusTooManyRequests)
  else
    let '(s1, calls) := script now st.2 r in
    ((limiter, s1), calls).

(** The calls of the handler of the root route. *)
Definition root_script (now : Z) (s : unit) (r : HttpRequest)
  : unit * list call :=
  if negb (String.eqb (Path r) "/") then
    (s, Error_calls "404 page not found" 404)
  else
    (s, [CHeaderSet "Content-Type" "application/json";
         CWriteHeader StatusOK;
         CWrite
           (Json [("success", JBool true);
                  ("message", JString "Flash Sale Service is running");
                  ("version", JString "1.0.0")])]).

(** The three headers of [corsMiddleware]. *)
Definition cors_keys : list string :=
  ["Access-Control-Allow-Origin"; "Access-Control-Allow-Methods";
   "Access-Control-Allow-Headers"].

(** The calls leave the headers of [corsMiddleware] alone, under any
    spelling of their names: no call sets a key whose canonical form is one
    of the three. *)
Definition keeps_cors (calls : list call) : Prop :=
  forall k v,
    In (CHeaderSet k v) calls -> ~ In (CanonicalMIMEHeaderKey k) cors_keys.

End Middleware.

(** ** main.go: the configuration *)

Module Config.
Import GoInt.
Import Stdlib.Strings.Ascii.

(** [strconv.Atoi]: an optional sign, then one or more decimal digits and
    nothing else, and a value within the range of [int]; [None] is a non-nil
    error. *)
Definition Atoi (s : string) : option Z :=
  match s with
  | EmptyString => None
  | String c rest =>
      let digits :=
        if Ascii.eqb c "-" || Ascii.eqb c "+" then rest else s in
      match DecimalString.NilZero.uint_of_string digits with
      | None => None
      | Some d =>
          let n := Z.of_uint d in
          let v := if Ascii.eqb c "-" then - n else n in
          if (minInt64 <=? v) && (v <=? maxInt64) then Some v else None
      end
  end.

(** A character that is not a decimal digit. *)
Definition not_digit (c : ascii) : Prop :=
  (N_of_ascii c < 48)%N \/ (57 < N_of_ascii c)%N.

(** [strconv.Itoa]. *)
Definition Itoa (n : Z) : string :=
  DecimalString.NilZero.string_of_int (Z.to_int n).

(** [os.Getenv]: the value of the variable, [""] when it is not set. *)
Definition Getenv (env : gmap string string) (key : string) : string :=
  default "" (env !! key).

(** [func getEnv(key, defaultValue string) string]. *)
Definition getEnv (env : gmap string string) (key defaultValue : string)
  : string :=
  let value := Getenv env key in
  if negb (String.eqb value "") then value else defaultValue.

(** [func getEnvInt(key string, defaultValue int) int]. *)
Definition getEnvInt (env : gmap string string) (key : string)
  (defaultValue : Z) : Z :=
  let value := Getenv env key in
  if negb (String.eqb value "") then
    match Atoi value with
    | Some intValue => intValue
    | None => defaultValue
    end
  else defaultValue.

(** [database.Config] and [redis.Config], with the fields of the literals in
    [loadConfig]. *)
Record DatabaseConfig := mkDatabaseConfig {
  Host : string;
  DBPort : Z;
  User : string;
  Password : string;
  DBName : string;
  SSLMode : string
}.

Record RedisConfig := mkRedisConfig {
  Addr : string;
  RedisPassword : string;
  RedisDB : Z
}.

(** [type Config struct]. *)
Record Config := mkConfig {
  Port : Z;
  Database : DatabaseConfig;
  Redis : RedisConfig
}.

(** [func loadConfig() Config], in the environment [env]. *)
Definition loadConfig (env : gmap string string) : Config :=
  mkConfig
    (getEnvInt env "PORT" 8080)
    (mkDatabaseConfig
       (getEnv env "DB_HOST" "localhost")
       (getEnvInt env "DB_PORT" 5432)
       (getEnv env "DB_USER" "postgres")
       (getEnv env "DB_PASSWORD" "password")
       (getEnv env "DB_NAME" "flashsale")
       (getEnv env "DB_SSLMODE" "disable"))
    (mkRedisConfig
       (getEnv env "REDIS_ADDR" "localhost:6379")
       (getEnv env "REDIS_PASSWORD" "")
       (getEnvInt env "REDIS_DB" 0)).

(** The [Addr] of the [http.Server] in [main]. *)
Definition serverAddr (config : Config) : string :=
  String.append "0.0.0.0:" (Itoa (Port config)).

End Config.

(** ** package scheduler: the generators *)

Module Generators.
Import GoInt.
Import Stdlib.Strings.Ascii.

(** [encoding/hex]: the digit table and [EncodeToString]. *)
Definition hextable : string := "0123456789abcdef".

Definition hexdigit (n : N) : ascii :=
  match String.get (N.to_nat n) hextable with
  | Some c => c
  | None => "0"%char
  end.

Fixpoint EncodeToString (src : list Byte.byte) : string :=
  match src with
  | [] => EmptyString
  | v :: rest =>
      String (hexdigit (N.shiftr (Byte.to_N v) 4))
        (String (hexdigit (N.land (Byte.to_N v) 15)) (EncodeToString rest))
  end.

(** The sum of the codes of the digits that [EncodeToString] writes for the
    bytes. *)
Definition digit_sum (bs : list Byte.byte) : Z :=
  foldr (fun b acc =>
           Z.of_N (N_of_ascii (hexdigit (N.shiftr (Byte.to_N b) 4))) +
           Z.of_N (N_of_ascii (hexdigit (N.land (Byte.to_N b) 15))) + acc)
    0 bs.

(** [func generateItemID() (string, error)]; [read] is what [rand.Read]
    returned for the 8-byte buffer: the bytes it filled, or its error. *)
Definition generateItemID (read : result (list Byte.byte)) : result string :=
  match read with
  | Err e => Err e
  | Ok bytes => Ok (String.append "item_" (EncodeToString bytes))
  end.

(** [func generateSaleID() (string, error)]: [read] is what [rand.Read]
    gives for the 8 bytes, [unix] is [time.Now().Unix()], which is read only
    after the bytes; [%d] of an [int64] is its decimal form. *)
Definition generateSaleID (read : result (list Byte.byte)) (unix : Z)
  : result string :=
  match read with
  | Err e => Err e
  | Ok bytes =>
      let timestamp := unix in
      Ok (String.append "sale_"
            (String.append (Config.Itoa timestamp)
               (String.append "_" (EncodeToString bytes))))
  end.

(** The runes of a string, for a string of ASCII characters (a [range] over
    a Go string decodes UTF-8; on ASCII the runes are the bytes). *)
Definition runes (s : string) : list Z :=
  map (fun c => Z.of_N (N_of_ascii c)) (String.list_ascii_of_string s).

(** The seed loop of [generateImageURL]. *)
Definition seed_of (itemID : string) : Z :=
  fold_left (fun seed char => wrap64 (seed + char)) (runes itemID) 0.

(** [func generateImageURL(itemID string) string], for an item id of ASCII
    characters. *)
Definition generateImageURL (itemID : string) : string :=
  let width := 400 in
  let height := 400 in
  let seed := seed_of itemID in
  String.append "https://picsum.photos/seed/"
    (String.append (Config.Itoa seed)
       (String.append "/"
          (String.append (Config.Itoa width)
             (String.append "/" (Config.Itoa height))))).

(** [models.Item], with the fields of the literal in [generateItems]. *)
Record Item := mkItem {
  ItemID : string;
  SaleID : string;
  Name : string;
  ImageURL : string
}.

Section WithRandomness.

(** The randomness of the run: what [rand.Read] returns in the [i]-th call
    of [generateItemID], and what the [i]-th call of [generateItemName]
    returns. *)
Variable read_at : nat -> result (list Byte.byte).
Variable name_at : nat -> result string.

(** The loop of [generateItems], from index [i] for [n] more items. *)
Fixpoint generateItems_loop (saleID : string) (i n : nat) (items : list Item)
  : result (list Item) :=
  match n with
  | O => Ok items
  | S n' =>
      match generateItemID (read_at i) with
      | Err e => Err e
      | Ok itemID =>
          match name_at i with
          | Err e => Err e
          | Ok itemName =>
              let imageURL := generateImageURL itemID in
              generateItems_loop saleID (S i) n'
                (items ++ [mkItem itemID saleID itemName imageURL])
          end
      end
  end.

(** [func (s *Scheduler) generateItems(saleID, count)]; [None] is the
    run-time panic of [make] with a negative length. *)
Definition generateItems (saleID : string) (count : Z)
  : option (result (list Item)) :=
  if count <? 0 then None
  else Some (generateItems_loop saleID 0 (Z.to_nat count) []).

(** The item that the [k]-th turn of the loop builds from its randomness. *)
Definition built (saleID : string) (k : nat) (it : Item) : Prop :=
  exists bs name,
    read_at k = Ok bs /\ name_at k = Ok name /\
    it = mkItem (String.append "item_" (EncodeToString bs)) saleID name
           (generateImageURL (String.append "item_" (EncodeToString bs))).

(** The [k]-th turn of the loop fails with [e]. *)
Definition fails_at (k : nat) (e : error) : Prop :=
  read_at k = Err e \/ (exists bs, read_at k = Ok bs) /\ name_at k = Err e.

End WithRandomness.

End Generators.

(** ** package scheduler: the events that matter to [Start] *)

Module SchedulerRuns.
Import Scheduler.

(** The number of ticks of the sale ticker that the main loop of [Start]
    serves: those before the context is done. *)
Fixpoint ticks_served (evs : list event) : nat :=
  match evs with
  | TickerC :: rest => S (ticks_served rest)
  | CleanupTickerC :: rest => ticks_served rest
  | _ => O
  end.

End SchedulerRuns.

(* ===================================================================== *)
(** * Part II: properties *)
(* ===================================================================== *)

(** ** Integers and time *)

Section GoFacts.
Import GoInt GoTime.

Lemma wrap64_id z : in_int64 z -> wrap64 z = z.
Proof.
  unfold in_int64, minInt64, maxInt64, wrap64. intros H.
  rewrite Z.mod_small; lia.
Qed.

Lemma Sub_range t u : in_int64 (Sub t u).
Proof.
  unfold Sub, in_int64, minInt64, maxInt64.
  repeat case_match; lia.
Qed.

Lemma Sub_exact t u : in_int64 (t - u) -> Sub t u = t - u.
Proof.
  unfold Sub, in_int64, minInt64, maxInt64. intros H.
  repeat case_match; lia.
Qed.

(** *** The float64 of [Seconds] *)

Lemma rhe_cases a b :
  0 < b ->
  exists q r, a = b * q + r /\ 0 <= r < b /\
    (round_half_even a b = q /\ 2 * r <= b \/
     round_half_even a b = q + 1 /\ b <= 2 * r).
Proof.
  intros Hb. exists (a / b), (a mod b).
  pose proof (Z.div_mod a b ltac:(lia)).
  pose proof (Z.mod_pos_bound a b Hb).
  split; [done|]. split; [done|].
  unfold round_half_even.
  destruct (2 * (a mod b) <? b) eqn:H1.
  - left. apply Z.ltb_lt in H1. lia.
  - apply Z.ltb_ge in H1.
    destruct (b <? 2 * (a mod b)) eqn:H2.
    + right. lia.
    + apply Z.ltb_ge in H2. destruct (Z.even (a / b)); [left|right]; lia.
Qed.

Lemma rhe_le a b k : 0 < b -> a <= k * b -> round_half_even a b <= k.
Proof.
  intros Hb Hk. destruct (rhe_cases a b Hb) as (q & r & Ha & Hr & [[-> H]|[-> H]]);
    nia.
Qed.

Lemma rhe_ge a b k : 0 < b -> k * b <= a -> k <= round_half_even a b.
Proof.
  intros Hb Hk. destruct (rhe_cases a b Hb) as (q & r & Ha & Hr & [[-> H]|[-> H]]);
    nia.
Qed.

Lemma rhe_lt a b k :
  0 < b -> b < 2 * (k * b - a) -> round_half_even a b <= k - 1.
Proof.
  intros Hb Hk. destruct (rhe_cases a b Hb) as (q & r & Ha & Hr & [[-> H]|[-> H]]);
    nia.
Qed.

(** The binade of a quotient that is at least 2^52 units. *)
Lemma binade a b :
  0 < b -> 2 ^ 52 * b <= a ->
  52 <= Z.log2 (a / b) /\
  2 ^ Z.log2 (a / b) * b <= a < 2 ^ (Z.log2 (a / b) + 1) * b.
Proof.
  intros Hb Ha.
  assert (2 ^ 52 <= a / b) as Hq by (apply Z.div_le_lower_bound; lia).
  assert (0 < a / b) as Hpos by lia.
  pose proof (Z.log2_spec (a / b) Hpos) as [Hlo Hhi].
  replace (Z.succ (Z.log2 (a / b))) with (Z.log2 (a / b) + 1) in Hhi by lia.
  pose proof (Z.log2_le_mono _ _ Hq) as Hmono.
  rewrite Z.log2_pow2 in Hmono by lia.
  pose proof (Z.div_mod a b ltac:(lia)) as Hdm.
  pose proof (Z.mod_pos_bound a b Hb) as Hr.
  split; [lia|]. split; nia.
Qed.

Lemma pow2_split N m : 0 <= m <= N -> 2 ^ N = 2 ^ m * 2 ^ (N - m).
Proof. intros H. rewrite <- Z.pow_add_r by lia. f_equal. lia. Qed.

Lemma ulp_le a b N :
  0 <= N -> 0 < b -> 2 ^ 52 * b <= a -> a < 2 ^ (N + 53) * b ->
  52 <= Z.log2 (a / b) /\ Z.log2 (a / b) - 52 <= N.
Proof.
  intros HN Hb Ha Hlt. destruct (binade a b Hb Ha) as (Hp & Hlo & Hhi).
  split; [done|].
  assert (2 ^ Z.log2 (a / b) < 2 ^ (N + 53)) as Hpow
    by (apply (Z.mul_lt_mono_pos_r b); lia).
  apply Z.pow_lt_mono_r_iff in Hpow; lia.
Qed.

Lemma nearest_nonneg a b : 0 <= a -> 0 < b -> 0 <= float64_nearest a b.
Proof.
  intros Ha Hb. unfold float64_nearest.
  destruct (a =? 0) eqn:Hz; [lia|]. apply Z.eqb_neq in Hz.
  set (ulp := 2 ^ (Z.log2 (a * float64_unit / b) - 52)).
  assert (0 <= ulp) as Hu by (unfold ulp; apply Z.pow_nonneg; lia).
  destruct (Z.eq_dec ulp 0) as [->|Hne]; [lia|].
  apply Z.mul_nonneg_nonneg; [done|].
  apply (rhe_ge _ _ 0); [|unfold float64_unit]; nia.
Qed.

(** A value that does not exceed a point of the grid of its binade is
    not rounded above it; one that is not below it is not rounded below it;
    and one more than half a step below it is rounded below it. *)
Lemma nearest_le a b G N :
  0 <= N -> 0 < a -> 0 < b -> 2 ^ 52 * b <= a * float64_unit ->
  a * float64_unit < 2 ^ (N + 53) * b ->
  a * float64_unit <= G * 2 ^ N * b ->
  float64_nearest a b <= G * 2 ^ N.
Proof.
  intros HN0 Ha Hb Hlo Hhi HG. unfold float64_nearest.
  rewrite (proj2 (Z.eqb_neq _ _)) by lia.
  destruct (ulp_le _ _ N HN0 Hb Hlo Hhi) as [Hp HN].
  set (m := Z.log2 (a * float64_unit / b) - 52) in *.
  rewrite (pow2_split N m) by lia.
  assert (0 < 2 ^ m) as Hu by (apply Z.pow_pos_nonneg; lia).
  replace (G * (2 ^ m * 2 ^ (N - m))) with (2 ^ m * (G * 2 ^ (N - m))) by lia.
  apply Z.mul_le_mono_nonneg_l; [lia|].
  apply rhe_le; [nia|].
  rewrite (pow2_split N m) in HG by lia. nia.
Qed.

Lemma nearest_ge a b G N :
  0 <= N -> 0 < a -> 0 < b -> 2 ^ 52 * b <= a * float64_unit ->
  a * float64_unit < 2 ^ (N + 53) * b ->
  G * 2 ^ N * b <= a * float64_unit ->
  G * 2 ^ N <= float64_nearest a b.
Proof.
  intros HN0 Ha Hb Hlo Hhi HG. unfold float64_nearest.
  rewrite (proj2 (Z.eqb_neq _ _)) by lia.
  destruct (ulp_le _ _ N HN0 Hb Hlo Hhi) as [Hp HN].
  set (m := Z.log2 (a * float64_unit / b) - 52) in *.
  rewrite (pow2_split N m) by lia.
  assert (0 < 2 ^ m) as Hu by (apply Z.pow_pos_nonneg; lia).
  replace (G * (2 ^ m * 2 ^ (N - m))) with (2 ^ m * (G * 2 ^ (N - m))) by lia.
  apply Z.mul_le_mono_nonneg_l; [lia|].
  apply rhe_ge; [nia|].
  rewrite (pow2_split N m) in HG by lia. nia.
Qed.

Lemma nearest_lt a b G N :
  0 <= N -> 0 < a -> 0 < b -> 2 ^ 52 * b <= a * float64_unit ->
  a * float64_unit < 2 ^ (N + 53) * b ->
  b * 2 ^ N < 2 * (G * 2 ^ N * b - a * float64_unit) ->
  float64_nearest a b < G * 2 ^ N.
Proof.
  intros HN0 Ha Hb Hlo Hhi HG. unfold float64_nearest.
  rewrite (proj2 (Z.eqb_neq _ _)) by lia.
  destruct (ulp_le _ _ N HN0 Hb Hlo Hhi) as [Hp HN].
  set (m := Z.log2 (a * float64_unit / b) - 52) in *.
  assert (0 < 2 ^ m) as Hu by (apply Z.pow_pos_nonneg; lia).
  assert (0 < 2 ^ (N - m)) as Hv by (apply Z.pow_pos_nonneg; lia).
  rewrite (pow2_split N m) in HG |- * by lia.
  assert (round_half_even (a * float64_unit) (b * 2 ^ m) <=
          G * 2 ^ (N - m) - 1) as Hr.
  { apply rhe_lt; [nia|].
    assert (2 ^ m <= 2 ^ m * 2 ^ (N - m)) by nia. nia. }
  nia.
Qed.

Lemma nearest_ge_52 a b :
  0 < a -> 0 < b -> 2 ^ 52 * b <= a * float64_unit ->
  2 ^ 52 <= float64_nearest a b.
Proof.
  intros Ha Hb Hlo. unfold float64_nearest.
  rewrite (proj2 (Z.eqb_neq _ _)) by lia.
  destruct (binade _ _ Hb Hlo) as (Hp & Hl & _).
  set (p := Z.log2 (a * float64_unit / b)) in *.
  assert (0 < 2 ^ (p - 52)) as Hu by (apply Z.pow_pos_nonneg; lia).
  assert (2 ^ 52 <= round_half_even (a * float64_unit) (b * 2 ^ (p - 52)))
    as Hr.
  { apply rhe_ge; [nia|].
    rewrite (pow2_split p 52) in Hl by lia. lia. }
  nia.
Qed.

(** The fraction [float64(nsec) / 1e9] stays a little below one. *)
Lemma fraction_range nsec :
  0 <= nsec < 1000000000 ->
  let f := float64_nearest nsec 1000000000 in
  0 <= f <= (2 ^ 53 - 9007199) * 2 ^ 29 /\
  (0 < nsec -> 2 ^ 52 <= f) /\
  (nsec <= 854775808 -> f <= 7 * 2 ^ 50 * 2 ^ 29).
Proof.
  intros Hn. cbv zeta.
  destruct (Z.eq_dec nsec 0) as [->|Hne].
  { unfold float64_nearest. cbn [Z.eqb]. lia. }
  assert (2 ^ 52 * 1000000000 <= nsec * float64_unit) as Hlo
    by (unfold float64_unit; lia).
  assert (nsec * float64_unit < 2 ^ (29 + 53) * 1000000000) as Hhi
    by (unfold float64_unit; simpl Z.add; lia).
  split; [split|split].
  - apply nearest_nonneg; lia.
  - apply nearest_le; try lia. unfold float64_unit. lia.
  - intros _. apply nearest_ge_52; lia.
  - intros Hs. apply nearest_le; try lia. unfold float64_unit. lia.
Qed.

Lemma Seconds_abs_range a :
  0 <= a <= 2 ^ 63 ->
  let sec := a / Second in
  sec * float64_unit <= Seconds_abs a <= (sec + 1) * float64_unit /\
  (sec < 2 ^ 24 -> Seconds_abs a < (sec + 1) * float64_unit) /\
  (a mod Second <= 854775808 -> Seconds_abs a < (sec + 1) * float64_unit).
Proof.
  intros Ha. cbv zeta. unfold Seconds_abs.
  pose proof (Z.mod_pos_bound a Second ltac:(unfold Second; lia)) as Hr.
  assert (0 <= a / Second <= 9223372036) as Hsec.
  { split; [apply Z.div_pos; unfold Second; lia|].
    apply Z.lt_succ_r, Z.div_lt_upper_bound; unfold Second; lia. }
  assert (0 <= a mod Second < 1000000000) as Hr' by exact Hr.
  destruct (fraction_range (a mod Second) Hr') as ((Hf0 & Hf1) & Hf2 & Hf3).
  cbv zeta in *.
  set (sec := a / Second) in *.
  set (f := float64_nearest (a mod Second) 1000000000) in *.
  set (y := sec * float64_unit + f).
  assert (0 < float64_unit) as Hu by (unfold float64_unit; lia).
  destruct (Z.eq_dec y 0) as [Hy|Hy].
  { rewrite Hy. unfold float64_nearest. cbn [Z.eqb].
    assert (sec = 0) as -> by (unfold y, float64_unit in *; nia).
    unfold float64_unit. lia. }
  assert (2 ^ 52 <= y) as Hy52.
  { destruct (Z.eq_dec sec 0) as [Hs|Hs].
    - assert (0 < a mod Second).
      { destruct (Z.eq_dec (a mod Second) 0) as [Hz|Hz]; [|lia].
        exfalso. apply Hy. unfold y, f. rewrite Hs, Hz.
        unfold float64_nearest. cbn [Z.eqb]. lia. }
      unfold y. rewrite Hs. lia.
    - unfold y, float64_unit in *. lia. }
  assert (y < (sec + 1) * float64_unit) as Hylt
    by (unfold y, float64_unit in *; lia).
  assert (0 < y) as Hypos by lia.
  assert (2 ^ 52 * float64_unit <= y * float64_unit) as Hlo by nia.
  assert (y * float64_unit < 2 ^ (63 + 53) * float64_unit) as Hhi.
  { apply Z.mul_lt_mono_pos_r; [lia|]. unfold float64_unit in *. simpl Z.add.
    lia. }
  split; [split|split].
  - replace (sec * float64_unit) with (sec * 2 ^ 19 * 2 ^ 63)
      by (unfold float64_unit; lia).
    apply nearest_ge; try lia.
    replace (sec * 2 ^ 19 * 2 ^ 63) with (sec * float64_unit)
      by (unfold float64_unit; lia).
    apply Z.mul_le_mono_nonneg_r; [lia|]. unfold y. lia.
  - replace ((sec + 1) * float64_unit) with ((sec + 1) * 2 ^ 19 * 2 ^ 63)
      by (unfold float64_unit; lia).
    apply nearest_le; try lia.
    replace ((sec + 1) * 2 ^ 19 * 2 ^ 63) with ((sec + 1) * float64_unit)
      by (unfold float64_unit; lia).
    apply Z.mul_le_mono_nonneg_r; lia.
  - intros Hsmall.
    replace ((sec + 1) * float64_unit) with ((sec + 1) * 2 ^ 29 * 2 ^ 53)
      by (unfold float64_unit; lia).
    apply nearest_lt; try lia.
    + apply Z.mul_lt_mono_pos_r; [lia|]. unfold float64_unit in *.
      simpl Z.add. lia.
    + replace ((sec + 1) * 2 ^ 29 * 2 ^ 53) with ((sec + 1) * float64_unit)
        by (unfold float64_unit; lia).
      replace ((sec + 1) * float64_unit * float64_unit - y * float64_unit)
        with (float64_unit * ((sec + 1) * float64_unit - y)) by lia.
      rewrite Z.mul_assoc, (Z.mul_comm 2 float64_unit), <- Z.mul_assoc.
      apply Z.mul_lt_mono_pos_l; [lia|].
      unfold y, float64_unit in *. lia.
  - intros Hlast.
    specialize (Hf3 Hlast).
    replace ((sec + 1) * float64_unit) with ((sec + 1) * 2 ^ 19 * 2 ^ 63)
      by (unfold float64_unit; lia).
    apply nearest_lt; try lia.
    replace ((sec + 1) * 2 ^ 19 * 2 ^ 63) with ((sec + 1) * float64_unit)
      by (unfold float64_unit; lia).
    replace ((sec + 1) * float64_unit * float64_unit - y * float64_unit)
      with (float64_unit * ((sec + 1) * float64_unit - y)) by lia.
    rewrite Z.mul_assoc, (Z.mul_comm 2 float64_unit), <- Z.mul_assoc.
    apply Z.mul_lt_mono_pos_l; [lia|].
    unfold y, float64_unit in *. lia.
Qed.

Lemma whole_seconds_abs d :
  whole_seconds d = Z.sgn d * (Seconds_abs (Z.abs d) / float64_unit).
Proof.
  unfold whole_seconds, Seconds.
  assert (0 < float64_unit) as Hu by (unfold float64_unit; lia).
  assert (0 <= Seconds_abs (Z.abs d)) as Hs.
  { unfold Seconds_abs. apply nearest_nonneg; [|lia].
    pose proof (Z.mod_pos_bound (Z.abs d) Second ltac:(unfold Second; lia)).
    assert (0 <= Z.abs d / Second)
      by (apply Z.div_pos; unfold Second; lia).
    assert (0 <= float64_nearest (Z.abs d mod Second) 1000000000)
      by (apply nearest_nonneg; lia).
    nia. }
  destruct d as [|p|p]; cbn [Z.sgn].
  - by rewrite !Z.mul_0_l.
  - rewrite !Z.mul_1_l. apply Z.quot_div_nonneg; lia.
  - replace (-1 * Seconds_abs (Z.abs (Z.neg p)))
      with (- Seconds_abs (Z.abs (Z.neg p))) by lia.
    rewrite Z.quot_opp_l by lia. rewrite Z.quot_div_nonneg by lia. lia.
Qed.

Lemma whole_seconds_opp d : whole_seconds (- d) = - whole_seconds d.
Proof.
  rewrite !whole_seconds_abs, Z.sgn_opp, Z.abs_opp. lia.
Qed.

(** Below 2^24 seconds the conversion is exact: the whole seconds of the
    duration. *)
Lemma whole_seconds_exact d :
  0 <= d < 2 ^ 24 * Second -> whole_seconds d = d / Second.
Proof.
  intros Hd. rewrite whole_seconds_abs, Z.abs_eq by lia.
  assert (0 < float64_unit) as Hu by (unfold float64_unit; lia).
  destruct (Seconds_abs_range d) as ((Hlo & _) & Hlt & _).
  { unfold Second in Hd. lia. }
  cbv zeta in *.
  assert (d / Second < 2 ^ 24) as Hsec
    by (apply Z.div_lt_upper_bound; unfold Second in *; lia).
  specialize (Hlt Hsec).
  assert (Seconds_abs d / float64_unit = d / Second) as ->.
  { symmetry. apply (Z.div_unique _ _ _ (Seconds_abs d - d / Second * float64_unit));
      lia. }
  destruct (Z.eq_dec d 0) as [->|Hne]; [done|].
  rewrite Z.sgn_pos by lia. lia.
Qed.

Lemma whole_seconds_bound d :
  in_int64 d -> Z.abs (whole_seconds d) <= 9223372036.
Proof.
  unfold in_int64, minInt64, maxInt64.
  intros Hd. rewrite whole_seconds_abs.
  assert (0 < float64_unit) as Hu by (unfold float64_unit; lia).
  destruct (Seconds_abs_range (Z.abs d)) as ((Hlo & Hhi) & _ & Hlast);
    [lia|].
  cbv zeta in *.
  assert (0 <= Z.abs d / Second <= 9223372036) as Hsec.
  { split; [apply Z.div_pos; unfold Second; lia|].
    apply Z.lt_succ_r, Z.div_lt_upper_bound; unfold Second; lia. }
  assert (0 <= Seconds_abs (Z.abs d) / float64_unit <= 9223372036) as Hq.
  { split; [apply Z.div_pos; nia|].
    destruct (Z.eq_dec (Z.abs d / Second) 9223372036) as [Heq|Hne].
    - apply Z.lt_succ_r, Z.div_lt_upper_bound; [lia|].
      assert (Z.abs d mod Second <= 854775808) as Hm.
      { pose proof (Z.div_mod (Z.abs d) Second ltac:(unfold Second; lia)).
        unfold Second in *. lia. }
      specialize (Hlast Hm). rewrite Heq in Hlast. lia.
    - apply Z.lt_succ_r, Z.div_lt_upper_bound; [lia|]. nia. }
  destruct d as [|p|p]; cbn [Z.sgn]; lia.
Qed.

Lemma whole_seconds_sign d :
  (0 <= d -> 0 <= whole_seconds d) /\ (d <= 0 -> whole_seconds d <= 0).
Proof.
  rewrite whole_seconds_abs.
  assert (0 < float64_unit) as Hu by (unfold float64_unit; lia).
  assert (0 <= Seconds_abs (Z.abs d) / float64_unit).
  { apply Z.div_pos; [|lia]. unfold Seconds_abs.
    apply nearest_nonneg; [|lia].
    pose proof (Z.mod_pos_bound (Z.abs d) Second ltac:(unfold Second; lia)).
    assert (0 <= Z.abs d / Second)
      by (apply Z.div_pos; unfold Second; lia).
    assert (0 <= float64_nearest (Z.abs d mod Second) 1000000000)
      by (apply nearest_nonneg; lia).
    nia. }
  destruct d as [|p|p]; cbn [Z.sgn]; lia.
Qed.

Lemma whole_seconds_small d : - Second < d < Second -> whole_seconds d = 0.
Proof.
  intros H. destruct (Z.le_gt_cases 0 d).
  - rewrite whole_seconds_exact by (unfold Second in *; lia).
    apply Z.div_small. lia.
  - rewrite <- (Z.opp_involutive d), whole_seconds_opp.
    rewrite whole_seconds_exact by (unfold Second in *; lia).
    rewrite Z.div_small; lia.
Qed.

Lemma whole_seconds_split k r :
  0 <= k < 2 ^ 24 -> 0 <= r < Second -> whole_seconds (k * Second + r) = k.
Proof.
  intros Hk Hr. rewrite whole_seconds_exact by (unfold Second in *; lia).
  symmetry. apply (Z.div_unique _ _ k r); lia.
Qed.

(** The float64 values of some durations: 0.1 s is [0x1.999999999999ap-4],
    1.5 s is exact, 0.999999999 s is [0x1.fffffff768fa1p-1], and
    2^24 s + 999999999 ns is rounded to 16777217. *)
Lemma Seconds_values :
  Seconds 100000000 = 3602879701896397 * 2 ^ 27 /\
  Seconds 1500000000 = 3 * 2 ^ 81 /\
  Seconds 999999999 = 9007199245733793 * 2 ^ 29 /\
  Seconds (2 ^ 24 * Second + 999999999) = 16777217 * float64_unit /\
  Seconds (- 1500000000) = - (3 * 2 ^ 81).
Proof. by vm_compute. Qed.

(** From 2^24 seconds on the conversion is no longer exact: a remainder
    close to one second is rounded up to the next second. *)
Lemma whole_seconds_rounds_up :
  whole_seconds (2 ^ 24 * Second + 999999999) = 2 ^ 24 + 1 /\
  whole_seconds (2 ^ 24 * Second - 1) = 2 ^ 24 - 1 /\
  whole_seconds maxInt64 = 9223372036 /\
  whole_seconds minInt64 = - 9223372036.
Proof. by vm_compute. Qed.

Lemma Truncate_Hour t : Truncate t Hour = Hour * (t / Hour).
Proof.
  unfold Truncate. change (Hour <=? 0) with false. cbv iota.
  pose proof (Z.div_mod t Hour). unfold Hour, Minute, Second in *. lia.
Qed.

Lemma Truncate_Hour_bounds t :
  Truncate t Hour <= t < Truncate t Hour + Hour.
Proof.
  unfold Truncate. change (Hour <=? 0) with false. cbv iota.
  pose proof (Z.mod_pos_bound t Hour). unfold Hour, Minute, Second in *. lia.
Qed.

Lemma Truncate_Hour_aligned t : (Truncate t Hour) mod Hour = 0.
Proof.
  rewrite Truncate_Hour, Z.mul_comm. apply Z.mod_mul.
  unfold Hour, Minute, Second. lia.
Qed.

Lemma Truncate_Hour_shift t k :
  Truncate (t + k * Hour) Hour = Truncate t Hour + k * Hour.
Proof.
  rewrite !Truncate_Hour, Z.div_add by (unfold Hour, Minute, Second; lia).
  lia.
Qed.

End GoFacts.

(** ** Strings *)

Section StringFacts.

Lemma string_length_append (s r : string) :
  String.length (String.append s r) = (String.length s + String.length r)%nat.
Proof.
  induction s as [|c s IH]; [done|].
  change (S (String.length (String.append s r)) =
          S (String.length s + String.length r)).
  by rewrite IH.
Qed.

Lemma string_append_inj (s1 : string) : forall s2 r1 r2,
  String.length s1 = String.length s2 ->
  String.append s1 r1 = String.append s2 r2 -> s1 = s2 /\ r1 = r2.
Proof.
  induction s1 as [|c s1 IH]; intros [|c' s2] r1 r2 Hlen Heq;
    cbn in Hlen, Heq; try done.
  injection Heq as -> Heq. injection Hlen as Hlen.
  destruct (IH s2 r1 r2 Hlen Heq) as [-> ->]. done.
Qed.

End StringFacts.

(** ** The rate limiter *)

Section RateLimitFacts.
Import GoInt GoTime RateLimit.

Lemma min_spec a b : RateLimit.min a b = Z.min a b.
Proof. unfold RateLimit.min. case_match; lia. Qed.

Lemma tok_set_tokens rl key n key' :
  tok (set_tokens rl key n) key' = if decide (key = key') then n else tok rl key'.
Proof.
  unfold tok, set_tokens; simpl. rewrite lookup_insert.
  case_decide; done.
Qed.

Lemma tok_set_lastRefill rl key t key' :
  tok (set_lastRefill rl key t) key' = tok rl key'.
Proof. reflexivity. Qed.

Lemma tokensToAdd_exact rl now last :
  sane rl ->
  tokensToAdd rl now last = whole_seconds (Sub now last) * rate rl.
Proof.
  intros (Hr & Hb & Hm). unfold tokensToAdd. apply wrap64_id.
  pose proof (whole_seconds_bound _ (Sub_range now last)) as Hs.
  unfold in_int64, minInt64, maxInt64 in *. nia.
Qed.

Lemma tokensToAdd_bound rl now last :
  sane rl -> tokensToAdd rl now last <= rate rl * 9223372036.
Proof.
  intros Hs. rewrite tokensToAdd_exact by done. destruct Hs as (Hr & _).
  pose proof (whole_seconds_bound _ (Sub_range now last)). nia.
Qed.

(** The refill never changes the parameters, and leaves the other keys
    alone. *)
Lemma refill_params rl now key last :
  rate (refill rl now key last) = rate rl /\
  burst (refill rl now key last) = burst rl.
Proof. unfold refill. case_match; done. Qed.

Lemma refill_other rl now key last key' :
  key <> key' -> tok (refill rl now key last) key' = tok rl key'.
Proof.
  intros Hne. unfold refill. case_match; [|done].
  rewrite tok_set_lastRefill, tok_set_tokens. by case_decide.
Qed.

Lemma refill_lastRefill_dom rl now key last key' :
  is_Some (lastRefill rl !! key) ->
  is_Some (lastRefill (refill rl now key last) !! key') <->
  is_Some (lastRefill rl !! key').
Proof.
  intros Hk. unfold refill. case_match; [|done]. simpl.
  rewrite lookup_insert. case_decide; subst; [|done].
  split; [done|]. intros _. by eexists.
Qed.

(** What the refill block computes, in plain arithmetic. *)
Lemma refill_tok rl now key last :
  sane rl -> 0 <= tok rl key <= burst rl ->
  tok (refill rl now key last) key =
    let add := whole_seconds (Sub now last) * rate rl in
    if 0 <? add then Z.min (tok rl key + add) (burst rl) else tok rl key.
Proof.
  intros Hs Ht. unfold refill.
  pose proof (tokensToAdd_bound rl now last Hs) as Hb.
  rewrite tokensToAdd_exact in * by done. cbv zeta.
  destruct (0 <? _) eqn:Hadd; [|done].
  rewrite tok_set_lastRefill, tok_set_tokens, decide_True by done.
  rewrite min_spec, wrap64_id; [done|].
  destruct Hs as (Hr & Hbu & Hm).
  unfold in_int64, minInt64, maxInt64 in *. lia.
Qed.

Lemma refill_tok_range rl now key last :
  sane rl -> 0 <= tok rl key <= burst rl ->
  0 <= tok (refill rl now key last) key <= burst rl.
Proof.
  intros Hs Ht. rewrite refill_tok by done. cbv zeta.
  destruct (0 <? _) eqn:Hadd; lia.
Qed.

(** [Allow] on a key that has been seen. *)
Lemma Allow_seen rl now key last :
  lastRefill rl !! key = Some last ->
  sane rl -> 0 <= tok rl key <= burst rl ->
  let rl1 := refill rl now key last in
  let rl' := fst (Allow rl now key) in
  let ok := snd (Allow rl now key) in
  0 <= tok rl' key <= burst rl' /\
  burst rl' = burst rl /\
  (ok = true -> 0 < tok rl1 key /\ tok rl' key = tok rl1 key - 1) /\
  (ok = false -> tok rl1 key = 0 /\ rl' = rl1).
Proof.
  intros Hl Hs Ht. cbv zeta. unfold Allow. rewrite Hl.
  pose proof (refill_tok_range rl now key last Hs Ht) as Hr.
  pose proof (refill_params rl now key last) as [_ Hb].
  destruct (0 <? tok (refill rl now key last) key) eqn:Hpos; simpl.
  - rewrite tok_set_tokens, decide_True by done.
    rewrite wrap64_id, Hb.
    + repeat split; try lia; done.
    + destruct Hs as (? & ? & ?).
      unfold in_int64, minInt64, maxInt64 in *. lia.
  - rewrite Hb. repeat split; try lia; done.
Qed.

(** [Allow] on a key that has not been seen. *)
Lemma Allow_fresh rl now key :
  lastRefill rl !! key = None ->
  Allow rl now key =
    (set_lastRefill (set_tokens rl key (burst rl)) key now, true).
Proof. intros Hl. unfold Allow. by rewrite Hl. Qed.

Lemma Allow_params rl now key :
  rate (fst (Allow rl now key)) = rate rl /\
  burst (fst (Allow rl now key)) = burst rl.
Proof.
  unfold Allow. destruct (lastRefill rl !! key) as [last|]; [|done].
  pose proof (refill_params rl now key last) as [? ?].
  case_match; simpl; done.
Qed.

Lemma Allow_sane rl now key : sane rl -> sane (fst (Allow rl now key)).
Proof.
  unfold sane. destruct (Allow_params rl now key) as [-> ->]. done.
Qed.

Lemma Allow_other rl now key key' :
  key <> key' ->
  tok (fst (Allow rl now key)) key' = tok rl key' /\
  lastRefill (fst (Allow rl now key)) !! key' = lastRefill rl !! key'.
Proof.
  intros Hne. unfold Allow.
  destruct (lastRefill rl !! key) as [last|] eqn:Hl; cbn [fst].
  - assert (lastRefill (refill rl now key last) !! key' = lastRefill rl !! key')
      as Hdom.
    { unfold refill. case_match; [|done]. simpl. by rewrite lookup_insert_ne. }
    case_match; cbn [fst].
    + rewrite tok_set_tokens, decide_False by done.
      by rewrite refill_other.
    + by rewrite refill_other.
  - rewrite tok_set_lastRefill, tok_set_tokens, decide_False by done.
    split; [done|]. simpl. by rewrite lookup_insert_ne.
Qed.

(** Every call keeps the seen keys within [0, burst]. *)
Lemma Allow_bounded rl now key :
  sane rl -> bounded rl -> bounded (fst (Allow rl now key)).
Proof.
  intros Hs Hb key' Hseen.
  destruct (Allow_params rl now key) as [_ ->].
  destruct (decide (key = key')) as [<-|Hne].
  - destruct (lastRefill rl !! key) as [last|] eqn:Hl.
    + pose proof (Allow_seen rl now key last Hl Hs (Hb key (mk_is_Some _ _ Hl)))
        as (Hr & Hbu & _).
      cbv zeta in Hr. rewrite Hbu in Hr. done.
    + rewrite Allow_fresh by done. cbn [fst].
      rewrite tok_set_lastRefill, tok_set_tokens, decide_True by done.
      destruct Hs as (?&?&?). lia.
  - destruct (Allow_other rl now key key' Hne) as [-> Hd].
    apply Hb. by rewrite <- Hd.
Qed.

Lemma run_cons rl now key calls :
  run rl ((now, key) :: calls) =
    (fst (run (fst (Allow rl now key)) calls),
     snd (Allow rl now key) :: snd (run (fst (Allow rl now key)) calls)).
Proof.
  simpl. destruct (Allow rl now key) as [rl1 ok]. simpl.
  by destruct (run rl1 calls).
Qed.

Lemma run_bounded rl calls :
  sane rl -> bounded rl ->
  sane (fst (run rl calls)) /\ bounded (fst (run rl calls)).
Proof.
  revert rl. induction calls as [|[now key] calls IH]; intros rl Hs Hb.
  - done.
  - rewrite run_cons. simpl. apply IH.
    + by apply Allow_sane.
    + by apply Allow_bounded.
Qed.

(** Calls that arrive less than a second after the last refill of a seen
    key: each one takes a token while there are any, the rest are refused,
    and the time of the last refill stays. *)
Lemma run_within_second rl key last nows :
  sane rl ->
  lastRefill rl !! key = Some last ->
  0 <= tok rl key <= burst rl ->
  Forall (fun t => - Second < t - last < Second) nows ->
  snd (run rl (map (fun t => (t, key)) nows)) =
    repeat true (Nat.min (Z.to_nat (tok rl key)) (length nows)) ++
    repeat false (length nows - Z.to_nat (tok rl key)).
Proof.
  intros Hs Hl Ht Hall. revert rl Hs Hl Ht.
  induction Hall as [|now nows Hnow Hall IH]; intros rl Hs Hl Ht.
  - simpl. by rewrite Nat.min_0_r.
  - cbn [map]. rewrite run_cons. cbn [snd length].
    assert (refill rl now key last = rl) as Hre.
    { unfold refill. rewrite tokensToAdd_exact by done.
      rewrite Sub_exact, whole_seconds_small; [done|lia|].
      unfold in_int64, minInt64, maxInt64, Second in *. lia. }
    pose proof (Allow_seen rl now key last Hl Hs Ht) as (Hr & Hb & Hok & Hno).
    cbv zeta in *. rewrite Hre in *.
    assert (lastRefill (fst (Allow rl now key)) !! key = Some last) as Hl'.
    { unfold Allow. rewrite Hl, Hre. by case_match. }
    rewrite IH; [|by apply Allow_sane|done|lia].
    destruct (snd (Allow rl now key)) eqn:Hres.
    + destruct (Hok eq_refl) as [Hpos ->].
      replace (Z.to_nat (tok rl key)) with (S (Z.to_nat (tok rl key - 1)))
        by lia.
      done.
    + destruct (Hno eq_refl) as [Hz ->]. rewrite Hz. simpl.
      by rewrite Nat.sub_0_r.
Qed.

End RateLimitFacts.

Section RateLimitClaims.
Import GoInt GoTime RateLimit.

Lemma Allow_seen_stays rl now key key' :
  is_Some (lastRefill rl !! key') ->
  is_Some (lastRefill (fst (Allow rl now key)) !! key').
Proof.
  intros Hs. destruct (decide (key = key')) as [<-|Hne].
  - unfold Allow. destruct (lastRefill rl !! key) as [last|] eqn:Hl.
    + assert (is_Some (lastRefill (refill rl now key last) !! key)) as Hr.
      { apply refill_lastRefill_dom; by rewrite Hl. }
      by case_match.
    + by destruct Hs.
  - by destruct (Allow_other rl now key key' Hne) as [_ ->].
Qed.

Lemma run_seen_stays rl calls key :
  is_Some (lastRefill rl !! key) ->
  is_Some (lastRefill (fst (run rl calls)) !! key).
Proof.
  revert rl. induction calls as [|[now k] calls IH]; intros rl Hs; [done|].
  rewrite run_cons. cbn [fst]. by apply IH, Allow_seen_stays.
Qed.

(** C8 (as amended).  The refill counts whole seconds only.  Take limiter
    parameters that keep the arithmetic within [int] ([sane]), a key that
    has been seen and holds between 0 and [burst] tokens, and a time since
    its last refill of [k] whole seconds and a remainder [r] below one
    second, with [k] below 2^24 (about 194 days; up to there the float64 of
    [Seconds] is exact).  The key receives [k * rate] tokens, clamped at
    [burst]; if that is a positive number the time of the last refill
    becomes [now], which drops the remainder [r], and otherwise (less than a
    second elapsed, or a zero rate) nothing changes at all.  The call is
    granted exactly when a token is then available. *)
Theorem refill_counts_whole_seconds
  (rl : RateLimiter) (key : string) (now last k r : Z) :
  sane rl ->
  lastRefill rl !! key = Some last ->
  0 <= tok rl key <= burst rl ->
  0 <= k < 2 ^ 24 -> 0 <= r < Second ->
  now = last + k * Second + r ->
  let rl1 := refill rl now key last in
  tok rl1 key = Z.min (tok rl key + k * rate rl) (burst rl) /\
  lastRefill rl1 !! key = Some (if 0 <? k * rate rl then now else last) /\
  (k * rate rl = 0 -> rl1 = rl) /\
  snd (Allow rl now key) = (0 <? tok rl1 key).
Proof.
  intros Hs Hl Ht Hk Hr ->. cbv zeta.
  assert (whole_seconds (Sub (last + k * Second + r) last) = k) as Hws.
  { rewrite Sub_exact.
    - replace (last + k * Second + r - last) with (k * Second + r) by lia.
      by apply whole_seconds_split.
    - unfold in_int64, minInt64, maxInt64, Second in *. lia. }
  split; [|split; [|split]].
  - rewrite refill_tok by done. cbv zeta. rewrite Hws.
    pose proof (Z.mul_nonneg_nonneg k (rate rl) (proj1 Hk) (proj1 Hs)).
    destruct (0 <? k * rate rl) eqn:Hadd; lia.
  - unfold refill. rewrite tokensToAdd_exact, Hws by done.
    destruct (0 <? k * rate rl); [|done]. simpl. by rewrite lookup_insert_eq.
  - intros Hz. unfold refill. rewrite tokensToAdd_exact, Hws, Hz by done.
    done.
  - unfold Allow. rewrite Hl. by case_match.
Qed.

Lemma refill_counts_whole_seconds_witness :
  let rl := mkRateLimiter 100 200 {[ "10.0.0.7:5141" := 0 ]}
              {[ "10.0.0.7:5141" := 0 ]} in
  let rl1 := refill rl 1900000000 "10.0.0.7:5141" 0 in
  tok rl1 "10.0.0.7:5141" = 100 /\
  lastRefill rl1 !! "10.0.0.7:5141" = Some 1900000000 /\
  snd (Allow rl 1900000000 "10.0.0.7:5141") = true.
Proof.
  pose proof (refill_counts_whole_seconds
                (mkRateLimiter 100 200 {[ "10.0.0.7:5141" := 0 ]}
                   {[ "10.0.0.7:5141" := 0 ]})
                "10.0.0.7:5141" 1900000000 0 1 900000000) as H.
  destruct H as (Ht & Hl & _ & Ha).
  - unfold sane, maxInt64; simpl; lia.
  - reflexivity.
  - vm_compute; split; discriminate.
  - lia.
  - unfold Second; lia.
  - unfold Second; lia.
  - cbv zeta. rewrite Ha, Hl, Ht. vm_compute.
    exact (conj eq_refl (conj eq_refl eq_refl)).
Defined.

(** C8, the claim as stated, fails.  With rate 100 and burst 200, a key with
    no token left asks again half a second after its last refill: a refill
    proportional to the elapsed time credits 50 tokens, the code credits
    none and refuses the request. *)
Lemma refill_not_proportional :
  let rl := mkRateLimiter 100 200 {[ "10.0.0.7:5141" := 0 ]}
              {[ "10.0.0.7:5141" := 0 ]} in
  proportional_refill rl 500000000 "10.0.0.7:5141" 0 = 50 /\
  tok (refill rl 500000000 "10.0.0.7:5141" 0) "10.0.0.7:5141" = 0 /\
  snd (Allow rl 500000000 "10.0.0.7:5141") = false.
Proof. vm_compute. done. Qed.

(** C10.  The first [Allow] for a key that has not been seen sets its count
    to [burst] and grants the request without taking a token, so the key is
    granted [burst + 1] requests in a row (and the next one is refused) when
    they all arrive within a second.  From then on, whatever calls come in
    between, the key's count stays within [0, burst], and a call for it is
    granted exactly when the count after the refill is positive and then
    takes exactly one token. *)
Theorem Allow_fresh_key_burst_plus_one
  (rl : RateLimiter) (key : string) (now : Z) :
  sane rl -> bounded rl -> lastRefill rl !! key = None ->
  let rl1 := fst (Allow rl now key) in
  (snd (Allow rl now key) = true /\
   tok rl1 key = burst rl /\
   lastRefill rl1 !! key = Some now) /\
  (forall nows,
     Forall (fun t => - Second < t - now < Second) nows ->
     length nows = S (Z.to_nat (burst rl)) ->
     snd (run rl (map (fun t => (t, key)) (now :: nows))) =
       repeat true (S (Z.to_nat (burst rl))) ++ [false]) /\
  (forall calls now',
     let rl2 := fst (run rl1 calls) in
     let rl3 := fst (Allow rl2 now' key) in
     exists last,
       lastRefill rl2 !! key = Some last /\
       0 <= tok rl2 key <= burst rl /\
       0 <= tok rl3 key <= burst rl /\
       let avail := tok (refill rl2 now' key last) key in
       if snd (Allow rl2 now' key)
       then 0 < avail /\ tok rl3 key = avail - 1
       else avail = 0 /\ tok rl3 key = 0).
Proof.
  intros Hs Hb Hfresh. cbv zeta.
  rewrite (Allow_fresh rl now key Hfresh). cbn [fst snd].
  set (rl1 := set_lastRefill (set_tokens rl key (burst rl)) key now).
  assert (tok rl1 key = burst rl) as Htok.
  { unfold rl1. by rewrite tok_set_lastRefill, tok_set_tokens, decide_True. }
  assert (lastRefill rl1 !! key = Some now) as Hlast.
  { unfold rl1. simpl. by rewrite lookup_insert_eq. }
  assert (sane rl1) as Hs1 by done.
  assert (bounded rl1) as Hb1.
  { pose proof (Allow_bounded rl now key Hs Hb) as H.
    by rewrite (Allow_fresh rl now key Hfresh) in H. }
  split; [done|split].
  - intros nows Hall Hlen. cbn [map]. rewrite run_cons.
    rewrite (Allow_fresh rl now key Hfresh). cbn [fst snd]. fold rl1.
    rewrite (run_within_second rl1 key now nows); try done.
    + rewrite Htok, Hlen.
      replace (Nat.min _ _) with (Z.to_nat (burst rl)) by lia.
      replace (S (Z.to_nat (burst rl)) - Z.to_nat (burst rl))%nat with 1%nat
        by lia.
      done.
    + rewrite Htok. change (burst rl1) with (burst rl).
      destruct Hs as (?&?&?). lia.
  - intros calls now'.
    destruct (run_bounded rl1 calls Hs1 Hb1) as [Hs2 Hb2].
    set (rl2 := fst (run rl1 calls)) in *.
    assert (burst rl2 = burst rl) as Hbu.
    { unfold rl2. clear. change (burst rl) with (burst rl1).
      generalize rl1. induction calls as [|[t k] calls IH]; intros rl0; [done|].
      rewrite run_cons. cbn [fst]. rewrite IH.
      by destruct (Allow_params rl0 t k). }
    destruct (run_seen_stays rl1 calls key (mk_is_Some _ _ Hlast))
      as [last Hl2]. fold rl2 in Hl2.
    exists last. split; [done|].
    pose proof (Hb2 key (mk_is_Some _ _ Hl2)) as Ht2.
    pose proof (Allow_seen rl2 now' key last Hl2 Hs2 Ht2)
      as (Hr & Hbu' & Hok & Hno).
    cbv zeta in *. rewrite Hbu' in Hr. rewrite Hbu in *.
    split; [done|split; [done|]].
    destruct (snd (Allow rl2 now' key)).
    + by apply Hok.
    + destruct (Hno eq_refl) as [Hz ->]. done.
Qed.

Lemma Allow_fresh_key_burst_plus_one_witness :
  snd (run (NewRateLimiter 100 2)
         [(0, "10.0.0.7:5141"); (1, "10.0.0.7:5141");
          (250000000, "10.0.0.7:5141"); (999999999, "10.0.0.7:5141")])
  = [true; true; true; false].
Proof.
  assert (sane (NewRateLimiter 100 2)) as Hs
    by (unfold sane, maxInt64; simpl; lia).
  assert (bounded (NewRateLimiter 100 2)) as Hb.
  { intros k [x Hx]. simpl in Hx. by rewrite lookup_empty in Hx. }
  destruct (Allow_fresh_key_burst_plus_one
              (NewRateLimiter 100 2) "10.0.0.7:5141" 0 Hs Hb eq_refl)
    as (_ & Hrun & _).
  apply (Hrun [1; 250000000; 999999999]).
  - unfold Second. repeat constructor; lia.
  - reflexivity.
Defined.

End RateLimitClaims.

(** ** The response writer *)

Section HttpFacts.
Import Http.

Lemma Error_status w msg code :
  statusCode w = None -> statusCode (Error w msg code) = Some code.
Proof. intros Hw. unfold Error, Write, WriteHeader. simpl. by rewrite Hw. Qed.

Lemma Encode_status v w :
  statusCode w = None -> statusCode (Encode v w) = Some StatusOK.
Proof. intros Hw. unfold Encode, Write, WriteHeader. by rewrite Hw. Qed.

Lemma Encode_body v w : body (Encode v w) = body w ++ [Json v].
Proof. unfold Encode, Write, WriteHeader. by destruct (statusCode w). Qed.

Lemma Encode_header v w : header (Encode v w) = header w.
Proof. unfold Encode, Write, WriteHeader. by destruct (statusCode w). Qed.

Lemma Error_body w msg code : body (Error w msg code) = body w ++ [Text (String.append msg newline)].
Proof.
  unfold Error, Write, WriteHeader, Header_Set. cbn [statusCode header body].
  by destruct (statusCode w).
Qed.

Lemma Error_header w msg code :
  header (Error w msg code) =
    <["X-Content-Type-Options" := "nosniff"]>
      (<["Content-Type" := "text/plain; charset=utf-8"]> (header w)).
Proof.
  unfold Error, Write, WriteHeader, Header_Set. cbn [statusCode header body].
  by destruct (statusCode w).
Qed.

(** A header name is canonical whatever the case it is written in, unless
    it holds a byte that no field name can hold. *)
Lemma canonical_spellings :
  CanonicalMIMEHeaderKey "access-control-allow-origin" =
    "Access-Control-Allow-Origin" /\
  CanonicalMIMEHeaderKey "CONTENT-TYPE" = "Content-Type" /\
  CanonicalMIMEHeaderKey "content type" = "content type".
Proof. by vm_compute. Qed.

(** The header names the handlers write are in canonical form already. *)
Lemma canonical_names :
  CanonicalMIMEHeaderKey "Content-Type" = "Content-Type" /\
  CanonicalMIMEHeaderKey "X-Content-Type-Options" = "X-Content-Type-Options" /\
  CanonicalMIMEHeaderKey "Access-Control-Allow-Origin" =
    "Access-Control-Allow-Origin" /\
  CanonicalMIMEHeaderKey "Access-Control-Allow-Methods" =
    "Access-Control-Allow-Methods" /\
  CanonicalMIMEHeaderKey "Access-Control-Allow-Headers" =
    "Access-Control-Allow-Headers".
Proof. by vm_compute. Qed.

End HttpFacts.

(** ** The health endpoint *)

Section HealthClaims.
Import Http Health.

(** C9.  Whatever the two pings return, [GET /health] answers with status
    200: the handler never writes a status of its own, so the first write of
    the body sends 200.  A failed ping shows only in the JSON body, where
    [status] and the field of the failed collaborator are ["ERROR"]. *)
Theorem HealthCheck_always_200
  (dbPing redisPing : option error) (unix : Z) (w : ResponseWriter) :
  statusCode w = None ->
  let w' := HealthCheck dbPing redisPing unix w in
  let word (e : option error) : string :=
    if e is None then "OK" else "ERROR" in
  sent_status w' = StatusOK /\
  statusCode w' = Some 200 /\
  header w' !! "Content-Type" = Some "application/json" /\
  body w' = body w ++
    [Json [("status",
            JString (if dbPing is None then word redisPing else "ERROR"));
           ("timestamp", JInt unix);
           ("database", JString (word dbPing));
           ("redis", JString (word redisPing))]].
Proof.
  intros Hw. cbv zeta. unfold HealthCheck, sent_status.
  rewrite Encode_status, Encode_body, Encode_header by done.
  repeat split.
  - simpl. by rewrite lookup_insert_eq.
  - by destruct dbPing, redisPing.
Qed.

Lemma HealthCheck_always_200_witness :
  let w' := HealthCheck (Some ErrUnavailable) (Some ErrUnavailable)
              1761850000 newResponseWriter in
  sent_status w' = 200 /\
  body w' = [Json [("status", JString "ERROR");
                   ("timestamp", JInt 1761850000);
                   ("database", JString "ERROR");
                   ("redis", JString "ERROR")]].
Proof.
  destruct (HealthCheck_always_200 (Some ErrUnavailable) (Some ErrUnavailable)
              1761850000 newResponseWriter eq_refl) as (Hs & _ & _ & Hb).
  split; [exact Hs | exact Hb].
Defined.

End HealthClaims.

(** ** The purchase handler, over any coordinator *)

Section PurchaseFacts.
Import Http Purchase.
Context {C : Type} `{Coordinator C}.

(** Running the handler is running its goroutine for three steps. *)
Lemma PurchaseHandler_steps (db : DB) (co : C) r w :
  PurchaseHandler db co r w =
    let '(db1, co1, t1) := step db co (spawn r w) in
    let '(db2, co2, t2) := step db1 co1 t1 in
    let '(db3, co3, t3) := step db2 co2 t2 in
    (db3, co3, resp t3).
Proof.
  unfold PurchaseHandler, spawn.
  destruct (String.eqb (Query_Get r "code") "") eqn:Hcode; [done|].
  unfold step at 1. cbn [pc checkoutCode userID itemID resp].
  destruct (GetCheckoutSession co (Query_Get r "code")) as [co1 [[u i]|e]];
    [|done].
  unfold step at 1. cbn [pc checkoutCode userID itemID resp].
  destruct (DecrementInventory co1 i) as [co2 [[|]|e]]; done.
Qed.

(** The status of every path through the handler. *)
Lemma PurchaseHandler_status (db : DB) (co : C) r w :
  statusCode w = None ->
  statusCode (PurchaseHandler db co r w).2 = Some
    (if String.eqb (Query_Get r "code") "" then StatusBadRequest
     else
       match GetCheckoutSession co (Query_Get r "code") with
       | (_, Err _) => StatusBadRequest
       | (co1, Ok (_, itemID)) =>
           match DecrementInventory co1 itemID with
           | (_, Err _) => StatusInternalServerError
           | (_, Ok false) => StatusConflict
           | (_, Ok true) => StatusOK
           end
       end).
Proof.
  intros Hw. unfold PurchaseHandler.
  destruct (String.eqb (Query_Get r "code") ""); [by apply Error_status|].
  destruct (GetCheckoutSession co (Query_Get r "code")) as [co1 [[u i]|e]];
    [|by apply Error_status].
  destruct (DecrementInventory co1 i) as [co2 [[|]|e]]; cbn [snd].
  - by apply Encode_status.
  - by apply Error_status.
  - by apply Error_status.
Qed.

(** The handler never touches the durable store. *)
Lemma PurchaseHandler_db (db : DB) (co : C) r w :
  (PurchaseHandler db co r w).1.1 = db.
Proof.
  unfold PurchaseHandler.
  destruct (String.eqb (Query_Get r "code") ""); [done|].
  destruct (GetCheckoutSession co (Query_Get r "code")) as [co1 [[u i]|e]];
    [|done].
  by destruct (DecrementInventory co1 i) as [co2 [[|]|e]].
Qed.

(** What a successful answer carries. *)
Lemma PurchaseHandler_success_body (db : DB) (co : C) r w :
  statusCode w = None ->
  statusCode (PurchaseHandler db co r w).2 = Some StatusOK ->
  body (PurchaseHandler db co r w).2 =
    body w ++ [Json (success_body "purchase_a1b2c3d4e5f6g7h8")] /\
  header (PurchaseHandler db co r w).2 !! "Content-Type" =
    Some "application/json".
Proof.
  intros Hw. unfold PurchaseHandler, recordPurchase.
  destruct (String.eqb (Query_Get r "code") "");
    [cbn [snd]; by rewrite Error_status|].
  destruct (GetCheckoutSession co (Query_Get r "code")) as [co1 [[u i]|e]];
    [|cbn [snd]; by rewrite Error_status].
  destruct (DecrementInventory co1 i) as [co2 [[|]|e]]; cbn [snd];
    try by rewrite Error_status.
  intros _. rewrite Encode_body, Encode_header. split; [done|].
  simpl. by rewrite lookup_insert_eq.
Qed.

(** Over any coordinator, the handler answers 200, 400, 409 or 500. *)
Lemma PurchaseHandler_statuses (db : DB) (co : C) r w :
  statusCode w = None ->
  statusCode (PurchaseHandler db co r w).2 ∈
    [Some StatusOK; Some StatusBadRequest; Some StatusConflict;
     Some StatusInternalServerError].
Proof.
  intros Hw. rewrite PurchaseHandler_status by done.
  destruct (String.eqb (Query_Get r "code") ""); [set_solver|].
  destruct (GetCheckoutSession co (Query_Get r "code")) as [co1 [[u i]|e]];
    [|set_solver].
  destruct (DecrementInventory co1 i) as [co2 [[|]|e]]; set_solver.
Qed.

End PurchaseFacts.

(** ** The purchase handler over the coordinator of the specification *)

Section SpecCoordinatorFacts.
Import Http Purchase.
Variable inventory_key : string -> string.

Abbreviation ops := (specCoordinator inventory_key).

Lemma reach_keeps co :
  sessions (reach co).2 = sessions co /\
  inventory (reach co).2 = inventory co /\
  user_count (reach co).2 = user_count co.
Proof. unfold reach. by destruct (link co). Qed.

Lemma reach_up co : link co = [] -> reach co = (true, co).
Proof. unfold reach. by intros ->. Qed.

Lemma get_keeps co code :
  let co' := (spec_GetCheckoutSession co code).1 in
  sessions co' = sessions co /\
  inventory co' = inventory co /\
  user_count co' = user_count co.
Proof.
  unfold spec_GetCheckoutSession. pose proof (reach_keeps co) as Hr.
  destruct (reach co) as [[] co1]; cbn [snd] in Hr;
    [destruct (sessions co1 !! code)|]; done.
Qed.

Lemma stock_insert co k n k' :
  stock (mkCO (sessions co) (<[k := n]> (inventory co)) (user_count co)
           (link co)) k' =
    if decide (k = k') then n else stock co k'.
Proof.
  unfold stock. cbn [inventory]. rewrite lookup_insert.
  by case_decide.
Qed.

Lemma decrement_spec co item :
  let k := inventory_key item in
  let co' := (spec_DecrementInventory inventory_key co item).1 in
  sessions co' = sessions co /\
  user_count co' = user_count co /\
  (forall k', k' <> k -> stock co' k' = stock co k') /\
  match (spec_DecrementInventory inventory_key co item).2 with
  | Ok true => 0 < stock co k /\ stock co' k = stock co k - 1
  | Ok false => stock co k <= 0 /\ inventory co' = inventory co
  | Err _ => inventory co' = inventory co
  end.
Proof.
  cbv zeta. unfold spec_DecrementInventory.
  pose proof (reach_keeps co) as (Hs & Hi & Hu).
  destruct (reach co) as [up co1]; cbn [fst snd] in *.
  assert (forall k, stock co1 k = stock co k) as Hst
    by (intros k; unfold stock; by rewrite Hi).
  destruct up; cbn [fst snd]; [|done].
  fold (stock co1 (inventory_key item)).
  destruct (0 <? stock co1 (inventory_key item)) eqn:Hpos; cbn [fst snd].
  - cbn [sessions user_count]. repeat split; try done.
    + intros k' Hne. rewrite stock_insert, decide_False by done. apply Hst.
    + rewrite <- Hst. lia.
    + rewrite stock_insert, decide_True by done. by rewrite Hst.
  - repeat split; try done. rewrite <- Hst. lia.
Qed.

(** One step of one goroutine keeps the balance between the counter of a key and
    the granted purchases that drew on it. *)
Lemma step_balance k db co t :
  unanswered t ->
  let s' := step (H := ops) db co t in
  s'.1.1 = db /\
  sessions s'.1.2 = sessions co /\
  user_count s'.1.2 = user_count co /\
  unanswered s'.2 /\
  stock s'.1.2 k + Z.b2z (draws inventory_key k s'.2) =
    stock co k + Z.b2z (draws inventory_key k t) /\
  (0 <= stock co k -> 0 <= stock s'.1.2 k).
Proof.
  intros Hun. cbv zeta. unfold unanswered in *.
  destruct t as [l code u i w]; cbn [pc resp] in Hun.
  destruct l; unfold step; cbn [pc checkoutCode userID itemID resp].
  - (* the session lookup *)
    specialize (Hun ltac:(done)).
    cbn [GetCheckoutSession specCoordinator].
    pose proof (get_keeps co code) as (Hs & Hi & Hu). cbv zeta in *.
    assert (stock (spec_GetCheckoutSession co code).1 k = stock co k) as Hst
      by (unfold stock; by rewrite Hi).
    destruct (spec_GetCheckoutSession co code) as [co1 [[u' i']|e]];
      cbn [fst snd] in *; rewrite Hst; repeat split; try done.
    unfold draws, granted; cbn [pc resp itemID].
    unfold sent_status. by rewrite Error_status.
  - (* the inventory decrement *)
    specialize (Hun ltac:(done)).
    cbn [DecrementInventory specCoordinator].
    pose proof (decrement_spec co i) as (Hs & Hu & Hother & Hres).
    cbv zeta in *.
    destruct (spec_DecrementInventory inventory_key co i) as [co2 [[|]|e]];
      cbn [fst snd] in *.
    + destruct Hres as [Hpos Hdec].
      repeat split; try done.
      * unfold draws, granted; cbn [pc itemID]. cbn [andb].
        destruct (String.eqb_spec (inventory_key i) k) as [<-|Hne];
          cbn [Z.b2z]; [lia|].
        rewrite Hother by done. lia.
      * destruct (decide (k = inventory_key i)) as [->|Hne]; [lia|].
        rewrite Hother by done. done.
    + destruct Hres as [Hz Hinv].
      assert (stock co2 k = stock co k) as ->
        by (unfold stock; by rewrite Hinv).
      repeat split; try done.
      unfold draws, granted; cbn [pc resp itemID].
      unfold sent_status. by rewrite Error_status.
    + assert (stock co2 k = stock co k) as ->
        by (unfold stock; by rewrite Hres).
      repeat split; try done.
      unfold draws, granted; cbn [pc resp itemID].
      unfold sent_status. by rewrite Error_status.
  - (* the record *)
    specialize (Hun ltac:(done)).
    unfold recordPurchase. cbn [fst snd].
    repeat split; try done.
    unfold draws, granted; cbn [pc resp itemID].
    unfold sent_status. by rewrite Encode_status.
  - done.
Qed.

Lemma tally_insert f (ts : list goroutine) i t t' :
  ts !! i = Some t ->
  tally f (<[i := t']> ts) = tally f ts - Z.b2z (f t) + Z.b2z (f t').
Proof.
  revert i. induction ts as [|a ts IH]; intros [|i] Hi; simplify_eq/=.
  - lia.
  - rewrite (IH i Hi). lia.
Qed.

(** The invariant of the system for the counter of key [k] that starts at
    [Q]: what is left and what was granted add up to [Q]. *)
Lemma step_at_invariant k Q (s : system CO) i :
  let inv (s : system CO) :=
    Forall unanswered s.2 /\ 0 <= stock s.1.2 k /\
    stock s.1.2 k + tally (draws inventory_key k) s.2 = Q in
  inv s ->
  inv (step_at (H := ops) s i) /\
  (step_at (H := ops) s i).1.1 = s.1.1 /\
  sessions (step_at (H := ops) s i).1.2 = sessions s.1.2 /\
  user_count (step_at (H := ops) s i).1.2 = user_count s.1.2.
Proof.
  cbv zeta. destruct s as [[db co] ts]. cbn [fst snd].
  intros (Hall & Hpos & Hsum). unfold step_at.
  destruct (ts !! i) as [t|] eqn:Hi; [|done].
  pose proof (step_balance k db co t (proj1 (Forall_lookup _ _) Hall i t Hi))
    as (Hdb & Hs & Hu & Hun & Hbal & Hnn).
  cbv zeta in *.
  destruct (step db co t) as [[db1 co1] t1]. cbn [fst snd] in *.
  repeat split; try done.
  - by apply Forall_insert.
  - by apply Hnn.
  - rewrite (tally_insert _ _ _ _ _ Hi). lia.
Qed.

Lemma exec_invariant k Q (s : system CO) sched :
  Forall unanswered s.2 -> 0 <= stock s.1.2 k ->
  stock s.1.2 k + tally (draws inventory_key k) s.2 = Q ->
  let s' := exec (H := ops) s sched in
  0 <= stock s'.1.2 k /\
  stock s'.1.2 k + tally (draws inventory_key k) s'.2 = Q /\
  s'.1.1 = s.1.1 /\
  sessions s'.1.2 = sessions s.1.2 /\
  user_count s'.1.2 = user_count s.1.2.
Proof.
  cbv zeta. unfold exec. revert s.
  induction sched as [|i sched IH]; intros s Hall Hpos Hsum; [done|].
  cbn [fold_left].
  destruct (step_at_invariant k Q s i) as ((Hall' & Hpos' & Hsum') & Hdb & Hs & Hu);
    [done|].
  destruct (IH _ Hall' Hpos' Hsum') as (? & ? & -> & -> & ->). done.
Qed.

Lemma arrivals_unanswered reqs : Forall unanswered (arrivals reqs).
Proof.
  unfold arrivals. apply Forall_map, Forall_forall. intros r _.
  unfold spawn, unanswered. by case_match.
Qed.

Lemma arrivals_none_granted k reqs :
  tally (draws inventory_key k) (arrivals reqs) = 0.
Proof.
  induction reqs as [|r reqs IH]; [done|].
  cbn [arrivals map tally]. fold (arrivals reqs). rewrite IH.
  unfold draws, granted, spawn.
  destruct (String.eqb (Query_Get r "code") ""); reflexivity.
Qed.

End SpecCoordinatorFacts.

Section SpecCoordinatorRuns.
Import Http Purchase.
Variable inventory_key : string -> string.

Abbreviation ops := (specCoordinator inventory_key).
Abbreviation handler := (PurchaseHandler (H := specCoordinator inventory_key)).

Lemma tally_nonneg f ts : 0 <= tally f ts.
Proof.
  induction ts as [|t ts IH]; cbn [tally]; [done|].
  destruct (f t); cbn [Z.b2z]; lia.
Qed.

(** A reachable coordinator finds the session of a code. *)
Lemma get_up co code s :
  link co = [] -> sessions co !! code = Some s ->
  spec_GetCheckoutSession co code = (co, Ok (user_id s, item_id s)).
Proof.
  intros Hl Hs. unfold spec_GetCheckoutSession.
  rewrite reach_up by done. by rewrite Hs.
Qed.

(** A reachable coordinator with stock left grants the decrement. *)
Lemma decrement_up co item :
  link co = [] -> 0 < stock co (inventory_key item) ->
  spec_DecrementInventory inventory_key co item = (taken inventory_key co item, Ok true).
Proof.
  intros Hl Hpos. unfold spec_DecrementInventory.
  rewrite reach_up by done. fold (stock co (inventory_key item)).
  by rewrite (proj2 (Z.ltb_lt _ _) Hpos).
Qed.

(** A reachable coordinator with no stock left refuses it. *)
Lemma decrement_depleted co item :
  link co = [] -> stock co (inventory_key item) <= 0 ->
  spec_DecrementInventory inventory_key co item = (co, Ok false).
Proof.
  intros Hl Hz. unfold spec_DecrementInventory.
  rewrite reach_up by done. fold (stock co (inventory_key item)).
  by rewrite (proj2 (Z.ltb_ge _ _) Hz).
Qed.

Lemma stock_taken co item :
  stock (taken inventory_key co item) (inventory_key item) =
    stock co (inventory_key item) - 1.
Proof. unfold taken. by rewrite stock_insert, decide_True. Qed.

(** The whole handler on a valid code, with the coordinator reachable and
    stock left. *)
Lemma handler_grants db co r s w :
  Query_Get r "code" <> "" ->
  sessions co !! Query_Get r "code" = Some s ->
  link co = [] -> 0 < stock co (inventory_key (item_id s)) ->
  handler db co r w =
    (db, taken inventory_key co (item_id s),
     Encode (success_body "purchase_a1b2c3d4e5f6g7h8")
       (Header_Set "Content-Type" "application/json" w)).
Proof.
  intros Hcode Hs Hl Hpos. unfold PurchaseHandler.
  rewrite (proj2 (String.eqb_neq _ _) Hcode).
  cbn [GetCheckoutSession DecrementInventory specCoordinator].
  rewrite (get_up co _ s Hl Hs), (decrement_up co _ Hl Hpos). done.
Qed.

(** The whole handler on a valid code when the counter is used up. *)
Lemma handler_sold_out db co r s w :
  Query_Get r "code" <> "" ->
  sessions co !! Query_Get r "code" = Some s ->
  link co = [] -> stock co (inventory_key (item_id s)) <= 0 ->
  handler db co r w = (db, co, Error w "Item sold out" StatusConflict).
Proof.
  intros Hcode Hs Hl Hz. unfold PurchaseHandler.
  rewrite (proj2 (String.eqb_neq _ _) Hcode).
  cbn [GetCheckoutSession DecrementInventory specCoordinator].
  rewrite (get_up co _ s Hl Hs), (decrement_depleted co _ Hl Hz). done.
Qed.

(** The three steps of a goroutine, one by one. *)
Lemma step_lookup db co code u i w s :
  link co = [] -> sessions co !! code = Some s ->
  step (H := ops) db co (mkGoroutine LLookup code u i w) =
    (db, co, mkGoroutine LDecrement code (user_id s) (item_id s) w).
Proof.
  intros Hl Hs. unfold step. cbn [pc checkoutCode userID itemID resp].
  cbn [GetCheckoutSession specCoordinator]. by rewrite (get_up co _ s Hl Hs).
Qed.

Lemma step_decrement db co code u i w :
  link co = [] -> 0 < stock co (inventory_key i) ->
  step (H := ops) db co (mkGoroutine LDecrement code u i w) =
    (db, taken inventory_key co i, mkGoroutine LRecord code u i w).
Proof.
  intros Hl Hpos. unfold step. cbn [pc checkoutCode userID itemID resp].
  cbn [DecrementInventory specCoordinator].
  by rewrite (decrement_up co _ Hl Hpos).
Qed.

Lemma step_record db co code u i w :
  step (H := ops) db co (mkGoroutine LRecord code u i w) =
    (db, co,
     mkGoroutine LDone code u i
       (Encode (success_body "purchase_a1b2c3d4e5f6g7h8")
          (Header_Set "Content-Type" "application/json" w))).
Proof. reflexivity. Qed.

Lemma step_at_first db (co : CO) t ts :
  step_at (H := ops) (db, co, t :: ts) 0 =
    ((step (H := ops) db co t).1, (step (H := ops) db co t).2 :: ts).
Proof.
  unfold step_at. cbn [lookup list_lookup].
  by destruct (step db co t) as [[db1 co1] t1].
Qed.

Lemma step_at_second db (co : CO) t0 t ts :
  step_at (H := ops) (db, co, t0 :: t :: ts) 1 =
    ((step (H := ops) db co t).1, t0 :: (step (H := ops) db co t).2 :: ts).
Proof.
  unfold step_at. cbn [lookup list_lookup].
  by destruct (step db co t) as [[db1 co1] t1].
Qed.

End SpecCoordinatorRuns.

(** ** The purchases of a sale *)

Section SaleAccounting.
Import Http Purchase.
Variable sale_of : string -> string.

Abbreviation item_key := (fun item : string => sale_inventory_key (sale_of item)).

Lemma sale_inventory_key_inj a b :
  sale_inventory_key a = sale_inventory_key b -> a = b.
Proof.
  unfold sale_inventory_key. intros Heq.
  apply string_append_inj in Heq as [_ Heq]; [|done].
  pose proof (f_equal String.length Heq) as Hlen.
  rewrite !string_length_append in Hlen.
  apply string_append_inj in Heq as [Heq _]; [done|lia].
Qed.

Lemma tally_ext (f g : goroutine -> bool) ts :
  Forall (fun t => f t = g t) ts -> tally f ts = tally g ts.
Proof.
  induction 1 as [|t ts Ht _ IH]; [done|]. cbn [tally]. by rewrite Ht, IH.
Qed.

Lemma Error_not_granted l code u i w msg c :
  statusCode w = None -> c <> StatusOK ->
  granted (mkGoroutine l code u i (Error w msg c)) = true -> l <> LDone.
Proof.
  intros Hw Hc Hg ->. unfold granted in Hg. cbn [pc resp] in Hg.
  unfold sent_status in Hg. rewrite Error_status in Hg by done.
  cbn [default from_option] in Hg. unfold id in Hg.
  apply Z.eqb_eq in Hg. done.
Qed.

(** One step keeps with every goroutine the session it has looked up. *)
Lemma step_holds co0 db co t :
  unanswered t -> sessions co = sessions co0 -> holds_session co0 t ->
  holds_session co0 (step (H := saleCoordinator sale_of) db co t).2.
Proof.
  intros Hun Hs Hh. unfold unanswered in Hun.
  destruct t as [l code u i w]; cbn [pc resp] in Hun.
  assert (forall msg c, c <> StatusOK -> statusCode w = None ->
            holds_session co0 (mkGoroutine LDone code u i (Error w msg c)))
    as Hrefused.
  { intros msg c Hc Hw [|[|[_ Hg]]]; try done.
    by destruct (Error_not_granted LDone code u i w msg c Hw Hc Hg). }
  destruct l; unfold step; cbn [pc checkoutCode userID itemID resp].
  - specialize (Hun ltac:(done)).
    cbn [GetCheckoutSession saleCoordinator specCoordinator].
    unfold spec_GetCheckoutSession.
    pose proof (reach_keeps co) as (Hr & _ & _).
    destruct (reach co) as [[] co1]; cbn [snd] in Hr.
    + destruct (sessions co1 !! code) as [ses|] eqn:Hses; cbn [snd].
      * intros _. exists ses. cbn [checkoutCode itemID].
        by rewrite <- Hs, <- Hr.
      * by apply Hrefused.
    + cbn [snd]. by apply Hrefused.
  - specialize (Hun ltac:(done)).
    cbn [DecrementInventory saleCoordinator specCoordinator].
    destruct (spec_DecrementInventory _ co i) as [co2 [[|]|e]]; cbn [snd].
    + intros _. apply Hh. by left.
    + by apply Hrefused.
    + by apply Hrefused.
  - unfold recordPurchase. cbn [snd]. intros _. apply Hh. right. by left.
  - done.
Qed.

Lemma step_at_holds co0 (s : system CO) i :
  Forall unanswered s.2 -> sessions s.1.2 = sessions co0 ->
  Forall (holds_session co0) s.2 ->
  let s' := step_at (H := saleCoordinator sale_of) s i in
  Forall unanswered s'.2 /\ sessions s'.1.2 = sessions co0 /\
  Forall (holds_session co0) s'.2.
Proof.
  cbv zeta. destruct s as [[db co] ts]. cbn [fst snd].
  intros Hun Hs Hh. unfold step_at.
  destruct (ts !! i) as [t|] eqn:Hi; [|done].
  pose proof (proj1 (Forall_lookup _ _) Hun i t Hi) as Hut.
  pose proof (step_balance item_key "" db co t Hut)
    as (_ & Hs' & _ & Hun' & _).
  pose proof (step_holds co0 db co t Hut Hs
                (proj1 (Forall_lookup _ _) Hh i t Hi)) as Hh'.
  cbv zeta in *. unfold saleCoordinator in *.
  destruct (step db co t) as [[db1 co1] t1]. cbn [fst snd] in *.
  split; [by apply Forall_insert|]. split; [congruence|].
  by apply Forall_insert.
Qed.

Lemma exec_holds co0 (s : system CO) sched :
  Forall unanswered s.2 -> sessions s.1.2 = sessions co0 ->
  Forall (holds_session co0) s.2 ->
  Forall (holds_session co0) (exec (H := saleCoordinator sale_of) s sched).2.
Proof.
  unfold exec. revert s.
  induction sched as [|i sched IH]; intros s Hun Hs Hh; [done|].
  cbn [fold_left].
  destruct (step_at_holds co0 s i Hun Hs Hh) as (Hun' & Hs' & Hh').
  by apply IH.
Qed.

Lemma arrivals_hold co0 reqs : Forall (holds_session co0) (arrivals reqs).
Proof.
  unfold arrivals. apply Forall_map, Forall_forall. intros r _.
  unfold spawn. destruct (String.eqb (Query_Get r "code") "").
  - by intros [|[|[_ Hg]]].
  - by intros [|[|[]]].
Qed.

(** The purchases of a sale are the granted purchases that drew on its
    counter. *)
Lemma purchase_of_sale_draws co s t :
  sessions_consistent sale_of co -> holds_session co t ->
  purchase_of_sale co s t = draws item_key (sale_inventory_key s) t.
Proof.
  intros Hcons Hh. unfold purchase_of_sale, draws.
  destruct (granted t) eqn:Hg; [|done]. cbn [andb].
  destruct Hh as (ses & Hses & Hitem).
  { pose proof Hg as Hg'. unfold granted in Hg'.
    destruct (pc t); try done; auto. }
  rewrite Hses, (Hcons _ _ Hses), Hitem.
  destruct (String.eqb_spec (sale_of (itemID t)) s) as [->|Hne].
  - symmetry. by apply String.eqb_eq.
  - symmetry. apply String.eqb_neq. intros Heq.
    by apply sale_inventory_key_inj in Heq.
Qed.

(** The balance of a sale over a run: what its counter has lost is what
    was granted to its sessions, and the purchases table is as it was. *)
Lemma run_balance s db co reqs sched :
  sessions_consistent sale_of co ->
  0 <= stock co (sale_inventory_key s) ->
  let s' := exec (H := saleCoordinator sale_of) (db, co, arrivals reqs) sched in
  let sold := tally (purchase_of_sale co s) s'.2 in
  0 <= sold /\
  stock s'.1.2 (sale_inventory_key s) =
    stock co (sale_inventory_key s) - sold /\
  0 <= stock s'.1.2 (sale_inventory_key s) /\
  s'.1.1 = db.
Proof.
  intros Hcons Hpos. cbv zeta.
  destruct (exec_invariant item_key (sale_inventory_key s)
              (stock co (sale_inventory_key s)) (db, co, arrivals reqs) sched)
    as (Hnn & Hsum & Hdb & _); cbn [fst snd].
  { apply arrivals_unanswered. }
  { done. }
  { rewrite arrivals_none_granted. lia. }
  cbv zeta in *. cbn [fst snd] in *.
  pose proof (exec_holds co (db, co, arrivals reqs) sched
                (arrivals_unanswered reqs) eq_refl (arrivals_hold co reqs))
    as Hh.
  rewrite (tally_ext (purchase_of_sale co s)
             (draws item_key (sale_inventory_key s))).
  - unfold saleCoordinator in *.
    pose proof (tally_nonneg (draws item_key (sale_inventory_key s))
                  (exec (H := specCoordinator item_key)
                     (db, co, arrivals reqs) sched).2).
    repeat split; try lia. done.
  - eapply Forall_impl; [exact Hh|]. intros t Ht.
    by apply purchase_of_sale_draws.
Qed.

End SaleAccounting.

(** ** The claims about the purchase path *)

Section PurchaseClaims.
Import Http Purchase.
Variable inventory_key : string -> string.

Abbreviation ops := (specCoordinator inventory_key).
Abbreviation handler := (PurchaseHandler (H := specCoordinator inventory_key)).


(** C3, on the code.  The handler never deletes the session: a valid code
    presented twice, one request after the other, is granted twice while
    stock lasts, and each grant takes a unit from the counter. *)
Theorem code_redeemed_twice (db : DB) (co : CO) (r : Request) (s : Session)
  (w1 w2 : ResponseWriter) :
  Query_Get r "code" <> "" ->
  sessions co !! Query_Get r "code" = Some s ->
  link co = [] ->
  2 <= stock co (inventory_key (item_id s)) ->
  statusCode w1 = None -> statusCode w2 = None ->
  let first := handler db co r w1 in
  let second := handler first.1.1 first.1.2 r w2 in
  statusCode first.2 = Some StatusOK /\
  statusCode second.2 = Some StatusOK /\
  sessions second.1.2 !! Query_Get r "code" = Some s /\
  stock second.1.2 (inventory_key (item_id s)) =
    stock co (inventory_key (item_id s)) - 2.
Proof.
  intros Hcode Hs Hl Hstock Hw1 Hw2. cbv zeta.
  rewrite (handler_grants inventory_key db co r s w1) by (done || lia).
  cbn [fst snd].
  rewrite (handler_grants inventory_key db _ r s w2);
    [|done|done|done|rewrite stock_taken; lia].
  cbn [fst snd]. rewrite !Encode_status by done.
  repeat split; try done.
  rewrite !stock_taken. lia.
Qed.

(** C4, on the code.  The handler has no per-user check: a user whose
    counter for the sale has reached the cap is served like any other (200,
    never 403), the inventory is decremented and the user's counter is not
    touched; the specification's outcome for the same redemption is
    [UserLimitExceeded]. *)
Theorem capped_user_is_served (cap : Z) (db : DB) (co : CO) (r : Request)
  (s : Session) (w : ResponseWriter) :
  Query_Get r "code" <> "" ->
  sessions co !! Query_Get r "code" = Some s ->
  link co = [] ->
  0 < stock co (inventory_key (item_id s)) ->
  cap <= bought co (sale_id s) (user_id s) ->
  statusCode w = None ->
  let res := handler db co r w in
  spec_outcome inventory_key cap co (Query_Get r "code") = UserLimitExceeded /\
  statusCode res.2 = Some StatusOK /\
  user_count res.1.2 = user_count co /\
  stock res.1.2 (inventory_key (item_id s)) =
    stock co (inventory_key (item_id s)) - 1.
Proof.
  intros Hcode Hs Hl Hstock Hcap Hw. cbv zeta.
  rewrite (handler_grants inventory_key db co r s w) by done.
  cbn [fst snd]. rewrite Encode_status, stock_taken by done.
  repeat split; try done.
  unfold spec_outcome. rewrite (proj2 (String.eqb_neq _ _) Hcode).
  rewrite reach_up, Hs by done. cbn [fst negb].
  by rewrite (proj2 (Z.leb_le _ _) Hcap).
Qed.

(** C1, on the code.  The session lookup and the inventory decrement are two
    calls, and the steps of another handler can run between them.  Two
    requests with the same valid code whose steps alternate: after the two
    lookups both handlers hold the session and the counter is untouched; at
    the end both have answered 200, two units are gone, the session is
    still there and the user's counter has not moved. *)
Theorem lookup_and_decrement_interleave (db : DB) (co : CO) (r : Request)
  (s : Session) :
  Query_Get r "code" <> "" ->
  sessions co !! Query_Get r "code" = Some s ->
  link co = [] ->
  2 <= stock co (inventory_key (item_id s)) ->
  let mid := exec (H := ops) (db, co, arrivals [r; r]) [0; 1]%nat in
  let fin := exec (H := ops) (db, co, arrivals [r; r])
               [0; 1; 0; 1; 0; 1]%nat in
  map pc mid.2 = [LDecrement; LDecrement] /\
  map itemID mid.2 = [item_id s; item_id s] /\
  mid.1.2 = co /\
  map pc fin.2 = [LDone; LDone] /\
  map (fun t => statusCode (resp t)) fin.2 = [Some StatusOK; Some StatusOK] /\
  stock fin.1.2 (inventory_key (item_id s)) =
    stock co (inventory_key (item_id s)) - 2 /\
  sessions fin.1.2 !! Query_Get r "code" = Some s /\
  user_count fin.1.2 = user_count co.
Proof.
  intros Hcode Hs Hl Hstock. cbv zeta.
  assert (arrivals [r; r] =
          [mkGoroutine LLookup (Query_Get r "code") "" "" newResponseWriter;
           mkGoroutine LLookup (Query_Get r "code") "" "" newResponseWriter])
    as ->.
  { unfold arrivals, spawn. cbn [map].
    by rewrite (proj2 (String.eqb_neq _ _) Hcode). }
  unfold exec. cbn [fold_left].
  rewrite step_at_first, (step_lookup _ _ _ _ _ _ _ s Hl Hs). cbn [fst snd].
  rewrite step_at_second, (step_lookup _ _ _ _ _ _ _ s Hl Hs). cbn [fst snd].
  split; [done|]. split; [done|]. split; [done|].
  rewrite step_at_first, step_decrement by (done || lia). cbn [fst snd].
  rewrite step_at_second, step_decrement
    by (done || rewrite stock_taken; lia).
  cbn [fst snd].
  rewrite step_at_first, step_record. cbn [fst snd].
  rewrite step_at_second, step_record. cbn [fst snd map pc resp].
  rewrite !Encode_status, !stock_taken by done.
  repeat split; try done. lia.
Qed.

End PurchaseClaims.

Section PurchaseWitnesses.
Import Http Purchase.


Lemma code_redeemed_twice_witness :
  let first := PurchaseHandler (H := specCoordinator s1_key) (mkDB [])
                 (s1_state 3 0 []) (post "K1") newResponseWriter in
  let second := PurchaseHandler (H := specCoordinator s1_key) first.1.1
                  first.1.2 (post "K1") newResponseWriter in
  statusCode first.2 = Some 200 /\
  statusCode second.2 = Some 200 /\
  sessions second.1.2 !! "K1" = Some (mkSession "u1" "I1" "s1") /\
  stock second.1.2 "sale:s1:inventory" = 1.
Proof.
  apply (code_redeemed_twice s1_key (mkDB []) (s1_state 3 0 []) (post "K1")
           (mkSession "u1" "I1" "s1") newResponseWriter newResponseWriter).
  - by vm_compute.
  - reflexivity.
  - reflexivity.
  - by vm_compute.
  - reflexivity.
  - reflexivity.
Defined.

Lemma capped_user_is_served_witness :
  let res := PurchaseHandler (H := specCoordinator s1_key) (mkDB [])
               (s1_state 3 10 []) (post "K1") newResponseWriter in
  spec_outcome s1_key 10 (s1_state 3 10 []) "K1" = UserLimitExceeded /\
  statusCode res.2 = Some 200 /\
  user_count res.1.2 = {[ ("s1", "u1") := 10 ]} /\
  stock res.1.2 "sale:s1:inventory" = 2.
Proof.
  apply (capped_user_is_served s1_key 10 (mkDB []) (s1_state 3 10 [])
           (post "K1") (mkSession "u1" "I1" "s1") newResponseWriter).
  - by vm_compute.
  - reflexivity.
  - reflexivity.
  - by vm_compute.
  - by vm_compute.
  - reflexivity.
Defined.

Lemma lookup_and_decrement_interleave_witness :
  let fin := exec (H := specCoordinator s1_key)
               (mkDB [], s1_state 3 0 [], arrivals [post "K1"; post "K1"])
               [0; 1; 0; 1; 0; 1]%nat in
  map pc fin.2 = [LDone; LDone] /\
  map (fun t => statusCode (resp t)) fin.2 = [Some 200; Some 200] /\
  stock fin.1.2 "sale:s1:inventory" = 1 /\
  sessions fin.1.2 !! "K1" = Some (mkSession "u1" "I1" "s1").
Proof.
  destruct (lookup_and_decrement_interleave s1_key (mkDB []) (s1_state 3 0 [])
              (post "K1") (mkSession "u1" "I1" "s1"))
    as (_ & _ & _ & Hpc & Hst & Hstock & Hs & _).
  - by vm_compute.
  - reflexivity.
  - reflexivity.
  - by vm_compute.
  - exact (conj Hpc (conj Hst (conj Hstock Hs))).
Defined.

End PurchaseWitnesses.

Section PurchaseAnswers.
Import Http Purchase.

(** C5, on the code.  [recordPurchase] is a placeholder: whatever the user
    and the item, it returns the same constant id and leaves the store as it
    was, so every purchase gets the same [purchase_id] and no row is ever
    inserted by the handler, over any coordinator. *)
Theorem recordPurchase_is_a_placeholder :
  (forall db u i u' i',
     recordPurchase db u i = (db, Ok "purchase_a1b2c3d4e5f6g7h8") /\
     (recordPurchase db u i).2 = (recordPurchase db u' i').2) /\
  (forall (C : Type) (H : Coordinator C) (db : DB) (co : C) r w,
     purchases (PurchaseHandler db co r w).1.1 = purchases db).
Proof.
  split; [done|]. intros. by rewrite PurchaseHandler_db.
Qed.

(** C6 (as amended).  The statuses of [POST /purchase], over any
    coordinator: 400 when the code is missing or the session lookup returns
    an error of any kind; 500 when the inventory decrement returns an error;
    409 when it reports no stock; 200 otherwise, with the JSON body
    [{success: true, purchase_id, message}]. *)
Theorem purchase_status_table {C : Type} `{Coordinator C} (db : DB) (co : C)
  (r : Request) (w : ResponseWriter) :
  statusCode w = None ->
  let w' := (PurchaseHandler db co r w).2 in
  statusCode w' = Some
    (if String.eqb (Query_Get r "code") "" then 400
     else
       match GetCheckoutSession co (Query_Get r "code") with
       | (_, Err _) => 400
       | (co1, Ok (_, itemID)) =>
           match DecrementInventory co1 itemID with
           | (_, Err _) => 500
           | (_, Ok false) => 409
           | (_, Ok true) => 200
           end
       end) /\
  (statusCode w' = Some 200 ->
   body w' = body w ++
     [Json [("message", JString "Purchase completed successfully");
            ("purchase_id", JString "purchase_a1b2c3d4e5f6g7h8");
            ("success", JBool true)]] /\
   header w' !! "Content-Type" = Some "application/json").
Proof.
  intros Hw. cbv zeta.
  pose proof (PurchaseHandler_status db co r w Hw) as Hst.
  split; [exact Hst|].
  intros H200. by apply PurchaseHandler_success_body.
Qed.

Lemma purchase_status_table_witness :
  statusCode
    (PurchaseHandler (H := specCoordinator s1_key) (mkDB [])
       (s1_state 3 0 [true; false]) (post "K1") newResponseWriter).2
  = Some 500.
Proof.
  destruct (purchase_status_table (H := specCoordinator s1_key) (mkDB [])
              (s1_state 3 0 [true; false]) (post "K1") newResponseWriter
              eq_refl) as [Hst _].
  exact Hst.
Defined.

(** C6, the claim as stated, fails.  When the coordinator cannot be reached
    the specification's outcome is [Transient], status 503; the handler
    answers 400 if the session lookup is the call that fails, and 500 if the
    decrement is. *)
Lemma purchase_status_not_as_specified :
  let down := s1_state 3 0 [false] in
  let lost := s1_state 3 0 [true; false] in
  let answer co :=
    statusCode (PurchaseHandler (H := specCoordinator s1_key) (mkDB []) co
                  (post "K1") newResponseWriter).2 in
  spec_outcome s1_key 10 down "K1" = Transient /\
  spec_status Transient = 503 /\
  answer down = Some 400 /\
  answer lost = Some 500 /\
  answer down <> Some (spec_status (spec_outcome s1_key 10 down "K1")).
Proof. vm_compute. repeat split; discriminate. Qed.

End PurchaseAnswers.

(** ** The scheduler *)

Section SchedulerFacts.
Import GoInt GoTime Scheduler.
Variable ItemsPerSale : Z.
Variable generateSaleID : Z -> result string.
Variable CreateSale_ok : list Sale -> Sale -> bool.
Variable provision_ok : Sale -> bool.
Variable GetActiveSale : list Sale -> result (option Sale).
Variable Exec_ok : list SaleRow -> SaleRow -> bool.

Abbreviation newSale := (Scheduler_newSale ItemsPerSale).
Abbreviation create :=
  (Scheduler_createNewSale ItemsPerSale generateSaleID CreateSale_ok
     provision_ok).
Abbreviation loop :=
  (Scheduler_loop ItemsPerSale generateSaleID CreateSale_ok provision_ok).
Abbreviation start :=
  (Scheduler_Start ItemsPerSale generateSaleID CreateSale_ok provision_ok
     GetActiveSale).
Abbreviation start_at :=
  (Scheduler_Start_at ItemsPerSale generateSaleID CreateSale_ok provision_ok
     GetActiveSale).

(** The wait of [Start] ends exactly on the next hour boundary. *)
Lemma wait_reaches_boundary now :
  Add now (waitUntilNextHour now) = Truncate now Hour + Hour.
Proof.
  unfold waitUntilNextHour, Add. rewrite Sub_exact; [lia|].
  pose proof (Truncate_Hour_bounds now).
  unfold in_int64, minInt64, maxInt64, Hour, Minute, Second in *. lia.
Qed.

(** The sale built at an instant is the window that holds the instant. *)
Lemma newSale_aligned id now :
  StartTime (newSale id now) = Hour * (now / Hour) /\
  StartTime (newSale id now) mod Hour = 0 /\
  StartTime (newSale id now) <= now < EndTime (newSale id now) /\
  EndTime (newSale id now) = StartTime (newSale id now) + Hour /\
  TotalItems (newSale id now) = ItemsPerSale /\
  ItemsSold (newSale id now) = 0 /\
  Status (newSale id now) = SaleStatusActive.
Proof.
  unfold Scheduler_newSale. cbn [StartTime EndTime TotalItems ItemsSold Status].
  unfold Add. pose proof (Truncate_Hour_bounds now).
  repeat split; try lia.
  - apply Truncate_Hour.
  - apply Truncate_Hour_aligned.
Qed.

Lemma newSale_on_boundary id now j :
  StartTime (newSale id (Truncate now Hour + j * Hour)) =
    Truncate now Hour + j * Hour.
Proof.
  unfold Scheduler_newSale. cbn [StartTime].
  rewrite Truncate_Hour_shift. f_equal.
  rewrite (Truncate_Hour (Truncate now Hour)), Truncate_Hour.
  rewrite (Z.mul_comm Hour (now / Hour)), Z.div_mul; [lia|].
  unfold Hour, Minute, Second. lia.
Qed.

Lemma create_rows db t s :
  In s (create db t).1 -> In s db \/ exists id, s = newSale id t.
Proof.
  unfold Scheduler_createNewSale.
  destruct (generateSaleID t) as [id|e]; [|by left].
  destruct (CreateSale_ok db (newSale id t)); [|by left].
  destruct (provision_ok (newSale id t)); cbn [fst];
    rewrite in_app_iff; simpl; intros [Hin|[<-|[]]];
    (by left) || (right; by exists id).
Qed.

Lemma create_keeps db t s : In s db -> In s (create db t).1.
Proof.
  unfold Scheduler_createNewSale. intros Hin.
  destruct (generateSaleID t) as [id|e]; [|done].
  destruct (CreateSale_ok db (newSale id t)); [|done].
  destruct (provision_ok (newSale id t)); cbn [fst];
    rewrite in_app_iff; by left.
Qed.

(** Every sale the main loop adds was built at a tick, a whole number
    [j >= 1] of hours after the ticker was made. *)
Lemma loop_rows db ticker evs s :
  In s (loop db ticker evs) ->
  In s db \/ exists j id, 1 <= j /\ s = newSale id (ticker + j * Hour).
Proof.
  revert db ticker. induction evs as [|ev evs IH]; intros db ticker Hin;
    [by left|].
  destruct ev; cbn [Scheduler_loop] in Hin; try by left.
  - apply IH in Hin as [Hin|(j & id & Hj & ->)].
    + apply create_rows in Hin as [Hin|[id ->]]; [by left|].
      right. exists 1, id. split; [lia|]. unfold Add. f_equal; lia.
    + right. exists (j + 1), id. split; [lia|]. unfold Add. f_equal; lia.
  - by apply IH.
Qed.

Lemma loop_keeps db ticker evs s : In s db -> In s (loop db ticker evs).
Proof.
  revert db ticker. induction evs as [|ev evs IH]; intros db ticker Hin;
    [done|].
  destruct ev; cbn [Scheduler_loop]; try done.
  - by apply IH, create_keeps.
  - by apply IH.
Qed.

(** When the id can be generated and the store accepts every sale, the
    [j]-th tick adds the sale built [j] hours after the ticker was made. *)
Lemma loop_creates db ticker (n : nat) j id :
  (forall d s, CreateSale_ok d s = true) ->
  generateSaleID (ticker + j * Hour) = Ok id ->
  1 <= j <= Z.of_nat n ->
  In (newSale id (ticker + j * Hour)) (loop db ticker (repeat TickerC n)).
Proof.
  intros Hok. revert db ticker j.
  induction n as [|n IH]; intros db ticker j Hid Hj; [lia|].
  cbn [repeat Scheduler_loop].
  destruct (decide (j = 1)) as [->|Hne].
  - apply loop_keeps. unfold Scheduler_createNewSale.
    replace (Add ticker Hour) with (ticker + 1 * Hour) by (unfold Add; lia).
    rewrite Hid, Hok.
    destruct (provision_ok _); cbn [fst]; rewrite in_app_iff; right; by left.
  - replace (ticker + j * Hour) with (Add ticker Hour + (j - 1) * Hour)
      by (unfold Add; lia).
    apply IH; [|lia].
    replace (Add ticker Hour + (j - 1) * Hour) with (ticker + j * Hour)
      by (unfold Add; lia).
    done.
Qed.

(** The sales [Start] adds: the one built at startup, and those built at
    the ticks. *)
Lemma start_at_rows db now now' evs s :
  In s (start_at db now now' evs) ->
  In s db \/ (exists id, s = newSale id now) \/
  exists j id,
    1 <= j /\ s = newSale id (Truncate now' Hour + Hour + j * Hour).
Proof.
  unfold Scheduler_Start_at. intros Hin.
  destruct (GetActiveSale db) as [[active|]|e]; [| |by left].
  - destruct evs as [|[] evs]; try by left.
    rewrite wait_reaches_boundary in Hin.
    apply loop_rows in Hin as [Hin|Hin]; [by left|by right; right].
  - assert (forall d, In s d -> In s (create db now).1 ->
                      In s db \/ exists id, s = newSale id now) as Hc
      by (intros d _ H; by apply create_rows).
    destruct (create db now) as [db1 [e|]] eqn:Hcr; cbn [fst] in *.
    + destruct (Hc db1 Hin Hin); [by left|by right; left].
    + destruct evs as [|[] evs];
        try (destruct (Hc db1 Hin Hin); [by left|by right; left]).
      rewrite wait_reaches_boundary in Hin.
      apply loop_rows in Hin as [Hin|Hin]; [|by right; right].
      destruct (Hc db1 Hin Hin); [by left|by right; left].
Qed.

Lemma start_rows db now evs s :
  In s (start db now evs) ->
  In s db \/ (exists id, s = newSale id now) \/
  exists j id,
    1 <= j /\ s = newSale id (Truncate now Hour + Hour + j * Hour).
Proof. apply start_at_rows. Qed.

(** The boundary on which the wait ends gets no sale, also when the wait
    is computed later than the initial sale was made. *)
Lemma start_at_skips_boundary db now now' evs s :
  now <= now' ->
  In s (start_at db now now' evs) -> ~ In s db ->
  StartTime s <> Truncate now' Hour + Hour.
Proof.
  intros Hle Hin Hnew.
  assert (0 < Hour) as Hpos by (unfold Hour, Minute, Second; lia).
  apply start_at_rows in Hin as [Hin|[[id ->]|(j & id & Hj & ->)]]; [done| |].
  - destruct (newSale_aligned id now) as (_ & _ & Hb & _).
    pose proof (Truncate_Hour_bounds now'). lia.
  - replace (Truncate now' Hour + Hour + j * Hour)
      with (Truncate now' Hour + (j + 1) * Hour) by lia.
    rewrite newSale_on_boundary. nia.
Qed.

(** The rows of the second entry point: one per tick of a ticker made at
    startup, each for the window that holds its tick. *)
Lemma StartScheduler_rows db now (n : nat) row :
  In row (StartScheduler Exec_ok db now n) ->
  In row db \/
  exists j, 1 <= j <= Z.of_nat n /\ row = newSaleRow (now + j * Hour).
Proof.
  revert db now. induction n as [|n IH]; intros db now Hin; [by left|].
  cbn [StartScheduler] in Hin. apply IH in Hin as [Hin|(j & Hj & ->)].
  - unfold createNewSale in Hin. destruct (Exec_ok db _); [|by left].
    rewrite in_app_iff in Hin. destruct Hin as [Hin|[<-|[]]]; [by left|].
    right. exists 1. split; [lia|]. unfold Add. f_equal; lia.
  - right. exists (j + 1). split; [lia|]. unfold Add. f_equal; lia.
Qed.

Lemma newSaleRow_aligned now :
  start_time (newSaleRow now) = Hour * (now / Hour) /\
  start_time (newSaleRow now) <= now < end_time (newSaleRow now) /\
  end_time (newSaleRow now) = start_time (newSaleRow now) + Hour /\
  total_items (newSaleRow now) = 10000.
Proof.
  unfold newSaleRow. cbn [start_time end_time total_items].
  unfold Add. pose proof (Truncate_Hour_bounds now).
  repeat split; try lia. apply Truncate_Hour.
Qed.

End SchedulerFacts.

Section SchedulerClaims.
Import GoInt GoTime Scheduler.

(** C7, on the code.  Every sale that [Start] adds to the table was built at
    an instant [t], either the startup instant [now] or a tick of the
    ticker, and is the window that holds [t]: it starts at [floor(t, Hour)],
    ends one hour later and has [ItemsPerSale] items.  But the ticks come
    two, three, ... hours after the hour of [now]: the wait ends on the
    first boundary after startup and only makes the ticker there, so no
    sale is ever created for the window that starts on that boundary. *)
Theorem Scheduler_Start_skips_first_boundary
  (ItemsPerSale : Z) (generateSaleID : Z -> result string)
  (CreateSale_ok : list Sale -> Sale -> bool) (provision_ok : Sale -> bool)
  (GetActiveSale : list Sale -> result (option Sale))
  (db : list Sale) (now : Z) (evs : list event) (s : Sale) :
  In s (Scheduler_Start ItemsPerSale generateSaleID CreateSale_ok provision_ok
          GetActiveSale db now evs) ->
  ~ In s db ->
  (exists t,
     (t = now \/ exists j, 2 <= j /\ t = Truncate now Hour + j * Hour) /\
     StartTime s = Hour * (t / Hour) /\
     StartTime s <= t < EndTime s) /\
  EndTime s = StartTime s + Hour /\
  TotalItems s = ItemsPerSale /\
  StartTime s <> Truncate now Hour + Hour.
Proof.
  intros Hin Hnew.
  apply start_rows in Hin as [Hin|[[id ->]|(j & id & Hj & ->)]]; [done| |].
  - pose proof (newSale_aligned ItemsPerSale id now)
      as (Hst & _ & Hb & He & Ht & _).
    split.
    { exists now. split; [by left|]. by split. }
    repeat split; try done.
    rewrite Hst, <- Truncate_Hour. unfold Hour, Minute, Second. lia.
  - replace (Truncate now Hour + Hour + j * Hour)
      with (Truncate now Hour + (j + 1) * Hour) by lia.
    pose proof (newSale_aligned ItemsPerSale id
                  (Truncate now Hour + (j + 1) * Hour))
      as (Hst & _ & Hb & He & Ht & _).
    split.
    + exists (Truncate now Hour + (j + 1) * Hour).
      split; [right; exists (j + 1); split; [lia|done]|]. by split.
    + repeat split; try done.
      rewrite newSale_on_boundary. unfold Hour, Minute, Second. lia.
Qed.

(** A run of [Start] begun 20 minutes into hour 1000 on an empty table,
    through the wait and two ticks: sales for the hours 1000, 1002 and 1003,
    none for hour 1001.  The second entry point begun at the same instant,
    after two ticks: rows for the hours 1001 and 1002, each inserted 20
    minutes into its hour. *)
Lemma Scheduler_Start_at_10_20 :
  map StartTime
    (Scheduler_Start 10000 (fun _ => Ok "sale") (fun _ _ => true)
       (fun _ => true) spec_GetActiveSale [] (at_minute 1000 20)
       [AfterC; TickerC; TickerC])
  = [hour_start 1000; hour_start 1002; hour_start 1003] /\
  map start_time
    (StartScheduler (fun _ _ => true) [] (at_minute 1000 20) 2)
  = [hour_start 1001; hour_start 1002].
Proof. vm_compute. done. Qed.

Lemma Scheduler_Start_skips_first_boundary_witness :
  let s := mkSale "sale" (hour_start 1002) (hour_start 1003) 10000 0
             SaleStatusActive in
  EndTime s = StartTime s + Hour /\
  TotalItems s = 10000 /\
  StartTime s <> Truncate (at_minute 1000 20) Hour + Hour.
Proof.
  destruct (Scheduler_Start_skips_first_boundary 10000 (fun _ => Ok "sale")
              (fun _ _ => true) (fun _ => true) spec_GetActiveSale []
              (at_minute 1000 20) [AfterC; TickerC; TickerC]
              (mkSale "sale" (hour_start 1002) (hour_start 1003) 10000 0
                 SaleStatusActive)) as (_ & He & Ht & Hskip).
  - vm_compute. right. left. reflexivity.
  - intros [].
  - exact (conj He (conj Ht Hskip)).
Defined.

End SchedulerClaims.

(** ** More on the rate limiter *)

Section RateLimitExtras.
Import GoInt GoTime RateLimit Middleware.

(** What [Allow] does to a key that has been seen, read off the key's own
    entries. *)
Lemma Allow_seen_entries rl now key last :
  lastRefill rl !! key = Some last ->
  let add := tokensToAdd rl now last in
  let avail :=
    if 0 <? add then RateLimit.min (wrap64 (tok rl key + add)) (burst rl)
    else tok rl key in
  snd (Allow rl now key) = (0 <? avail) /\
  tok (fst (Allow rl now key)) key =
    (if 0 <? avail then wrap64 (avail - 1) else avail) /\
  lastRefill (fst (Allow rl now key)) !! key =
    Some (if 0 <? add then now else last).
Proof.
  intros Hl. cbv zeta. unfold Allow. rewrite Hl. unfold refill.
  destruct (0 <? tokensToAdd rl now last) eqn:Hadd.
  - rewrite tok_set_lastRefill, tok_set_tokens, decide_True by done.
    destruct (0 <? RateLimit.min _ _) eqn:Hpos; cbn [fst snd].
    + rewrite tok_set_tokens, decide_True by done.
      repeat split. simpl. by rewrite lookup_insert_eq.
    + rewrite tok_set_lastRefill, tok_set_tokens, decide_True by done.
      repeat split. simpl. by rewrite lookup_insert_eq.
  - destruct (0 <? tok rl key) eqn:Hpos; cbn [fst snd].
    + rewrite tok_set_tokens, decide_True by done. done.
    + done.
Qed.

(** [Allow] reads and writes only the entries of its key. *)
Lemma Allow_local rl rl' now key :
  rate rl = rate rl' -> burst rl = burst rl' ->
  tok rl key = tok rl' key ->
  lastRefill rl !! key = lastRefill rl' !! key ->
  snd (Allow rl now key) = snd (Allow rl' now key) /\
  tok (fst (Allow rl now key)) key = tok (fst (Allow rl' now key)) key /\
  lastRefill (fst (Allow rl now key)) !! key =
    lastRefill (fst (Allow rl' now key)) !! key.
Proof.
  intros Hr Hb Ht Hl.
  destruct (lastRefill rl !! key) as [last|] eqn:Hlast.
  - pose proof (Allow_seen_entries rl now key last Hlast) as (H1 & H2 & H3).
    pose proof (Allow_seen_entries rl' now key last (eq_sym Hl))
      as (H1' & H2' & H3').
    cbv zeta in *. unfold tokensToAdd in *.
    rewrite H1, H2, H3, H1', H2', H3', Hr, Hb, Ht. done.
  - rewrite (Allow_fresh rl now key Hlast).
    rewrite (Allow_fresh rl' now key (eq_sym Hl)). cbn [fst snd].
    rewrite !tok_set_lastRefill, !tok_set_tokens, !decide_True by done.
    split; [done|]. split; [done|]. simpl. by rewrite !lookup_insert_eq.
Qed.

(** X1.  The limiter keeps the keys apart: in any run, the verdicts given to
    a key are those the key would get if the calls for all other keys had
    never been made. *)
Theorem limiter_keys_do_not_interfere
  (rl : RateLimiter) (calls : list (Z * string)) (key : string) :
  map snd
    (filter (fun p : (Z * string) * bool => p.1.2 = key)
       (zip calls (snd (run rl calls)))) =
  snd (run rl (filter (fun c : Z * string => c.2 = key) calls)).
Proof.
  assert (forall rl rl',
            rate rl = rate rl' -> burst rl = burst rl' ->
            tok rl key = tok rl' key ->
            lastRefill rl !! key = lastRefill rl' !! key ->
            map snd
              (filter (fun p : (Z * string) * bool => p.1.2 = key)
                 (zip calls (snd (run rl calls)))) =
            snd (run rl' (filter (fun c : Z * string => c.2 = key) calls)))
    as Hgen; [|by apply Hgen].
  clear rl. induction calls as [|[now k] calls IH]; intros rl rl' Hr Hb Ht Hl;
    [done|].
  rewrite run_cons. cbn [snd zip zip_with].
  destruct (Allow_params rl now k) as [Hr1 Hb1].
  destruct (decide (k = key)) as [->|Hne].
  - rewrite filter_cons_True by done.
    rewrite (filter_cons_True (fun c : Z * string => c.2 = key)) by done.
    rewrite run_cons. cbn [snd map].
    destruct (Allow_params rl' now key) as [Hr1' Hb1'].
    destruct (Allow_local rl rl' now key Hr Hb Ht Hl) as (Hv & Ht' & Hl').
    rewrite Hv. f_equal. apply IH; congruence.
  - rewrite filter_cons_False by done.
    rewrite (filter_cons_False (fun c : Z * string => c.2 = key)) by done.
    destruct (Allow_other rl now k key Hne) as [Ht' Hl'].
    apply IH; congruence.
Qed.

End RateLimitExtras.

Section RateLimitBudget.
Import GoInt GoTime RateLimit Middleware.

Lemma div_superadditive a b : 0 <= a -> 0 <= b ->
  a / Second + b / Second <= (a + b) / Second.
Proof.
  intros Ha Hb. apply Z.div_le_lower_bound; [unfold Second; lia|].
  pose proof (Z.mul_div_le a Second). pose proof (Z.mul_div_le b Second).
  unfold Second in *. lia.
Qed.

Lemma budget_step_key R B key t0 D rl G now :
  0 <= R -> 0 <= B -> R * 9223372036 + B <= maxInt64 ->
  0 <= D < 2 ^ 24 * Second -> t0 <= now <= t0 + D ->
  within_budget R B key t0 D rl G ->
  within_budget R B key t0 D (fst (Allow rl now key))
    (G + Z.b2z (snd (Allow rl now key))).
Proof.
  intros HR HB Hmax HD Hnow (Hr & Hb & last & Hl & Hlast & Htok & Hbud).
  assert (sane rl) as Hs by (unfold sane; rewrite Hr, Hb; done).
  destruct (Allow_params rl now key) as [Hr' Hb'].
  pose proof (Allow_seen rl now key last Hl Hs) as Hseen.
  rewrite Hb in Hseen. specialize (Hseen Htok).
  destruct Hseen as (Hrange & _ & Hok & Hno). cbv zeta in *.
  pose proof (Allow_seen_entries rl now key last Hl) as (_ & _ & Hl').
  cbv zeta in Hl'.
  pose proof (refill_tok rl now key last Hs) as Hre.
  rewrite Hb in Hre. specialize (Hre Htok). cbv zeta in Hre.
  rewrite tokensToAdd_exact in Hl' by done.
  rewrite Sub_exact in Hl', Hre
    by (unfold in_int64, minInt64, maxInt64, Second in *; lia).
  rewrite Hr, Hb in *.
  split; [congruence|]. split; [congruence|].
  eexists. split; [exact Hl'|].
  set (ws := whole_seconds (now - last)) in *.
  destruct (0 <? ws * R) eqn:Hadd.
  - apply Z.ltb_lt in Hadd.
    assert (0 < ws) as Hws by nia.
    assert (0 < now - last) as Hpos.
    { destruct (Z.le_gt_cases (now - last) 0) as [Hle|]; [|done].
      assert (ws <= 0); [|lia]. unfold ws.
      by apply whole_seconds_sign. }
    assert (ws = (now - last) / Second) as Hdiv.
    { unfold ws. apply whole_seconds_exact. lia. }
    pose proof (div_superadditive (last - t0) (now - last)) as Hsup.
    replace (last - t0 + (now - last)) with (now - t0) in Hsup by lia.
    split; [lia|]. split; [lia|].
    destruct (snd (Allow rl now key)); cbn [Z.b2z].
    + destruct (Hok eq_refl) as [_ ->]. nia.
    + destruct (Hno eq_refl) as [Hz ->]. nia.
  - split; [lia|]. split; [lia|].
    destruct (snd (Allow rl now key)); cbn [Z.b2z].
    + destruct (Hok eq_refl) as [_ ->]. lia.
    + destruct (Hno eq_refl) as [Hz ->]. lia.
Qed.

Lemma budget_step_other R B key t0 D rl G now k :
  k <> key ->
  within_budget R B key t0 D rl G ->
  within_budget R B key t0 D (fst (Allow rl now k)) G.
Proof.
  intros Hne (Hr & Hb & last & Hl & Hlast & Htok & Hbud).
  destruct (Allow_params rl now k) as [Hr' Hb'].
  destruct (Allow_other rl now k key Hne) as [Ht' Hl'].
  split; [congruence|]. split; [congruence|].
  exists last. rewrite Ht', Hl'. done.
Qed.

Lemma budget_run R B key t0 D calls :
  0 <= R -> 0 <= B -> R * 9223372036 + B <= maxInt64 ->
  0 <= D < 2 ^ 24 * Second ->
  Forall (fun c : Z * string => c.2 = key -> t0 <= c.1 <= t0 + D) calls ->
  forall rl G,
    within_budget R B key t0 D rl G ->
    G + grants key calls (snd (run rl calls)) <= 1 + B + R * (D / Second).
Proof.
  intros HR HB Hmax HD Hall.
  induction Hall as [|[now k] calls Hc Hall IH]; intros rl G Hbud.
  - cbn [grants]. destruct Hbud as (_ & _ & last & _ & Hlast & Htok & Hb).
    assert ((last - t0) / Second <= D / Second)
      by (apply Z.div_le_mono; unfold Second; lia).
    nia.
  - rewrite run_cons. cbn [snd grants].
    destruct (decide (k = key)) as [->|Hne].
    + pose proof (budget_step_key R B key t0 D rl G now HR HB Hmax HD
                    (Hc eq_refl) Hbud) as Hstep.
      specialize (IH _ _ Hstep). lia.
    + pose proof (budget_step_other R B key t0 D rl G now k Hne Hbud) as Hstep.
      specialize (IH _ _ Hstep). lia.
Qed.

(** X2.  The limit the limiter enforces.  From the first call of a key, at
    [t0], and over any later calls that arrive within a span [D] of it
    (calls for other keys in between as they come), the key is granted at
    most [1 + burst + rate * floor(D / 1s)] requests, for spans below 2^24
    seconds (about 194 days), up to where the float64 of [Seconds] counts
    the whole seconds exactly. *)
Theorem limiter_rate_bound
  (rl : RateLimiter) (key : string) (t0 D : Z) (calls : list (Z * string)) :
  sane rl ->
  lastRefill rl !! key = None ->
  0 <= D < 2 ^ 24 * Second ->
  Forall (fun c : Z * string => c.2 = key -> t0 <= c.1 <= t0 + D) calls ->
  grants key ((t0, key) :: calls) (snd (run rl ((t0, key) :: calls)))
    <= 1 + burst rl + rate rl * (D / Second).
Proof.
  intros (HR & HB & Hmax) Hfresh HD Hall.
  rewrite run_cons. cbn [snd grants]. rewrite decide_True by done.
  rewrite (Allow_fresh rl t0 key Hfresh). cbn [fst snd Z.b2z].
  apply (budget_run (rate rl) (burst rl) key t0 D calls HR HB Hmax HD Hall).
  split; [done|]. split; [done|]. exists t0.
  rewrite tok_set_lastRefill, tok_set_tokens, decide_True by done.
  split; [simpl; by rewrite lookup_insert_eq|].
  replace (t0 - t0) with 0 by lia. rewrite Z.div_0_l by (unfold Second; lia).
  lia.
Qed.

Lemma limiter_rate_bound_witness :
  grants "10.0.0.7:5141"
    [(0, "10.0.0.7:5141"); (400000000, "10.0.0.7:5141");
     (900000000, "10.0.0.9:80"); (1500000000, "10.0.0.7:5141");
     (1600000000, "10.0.0.7:5141"); (1700000000, "10.0.0.7:5141")]
    (snd (run (NewRateLimiter 1 1)
            [(0, "10.0.0.7:5141"); (400000000, "10.0.0.7:5141");
             (900000000, "10.0.0.9:80"); (1500000000, "10.0.0.7:5141");
             (1600000000, "10.0.0.7:5141"); (1700000000, "10.0.0.7:5141")]))
  <= 1 + 1 + 1 * (1999999999 / Second).
Proof.
  apply (limiter_rate_bound (NewRateLimiter 1 1) "10.0.0.7:5141" 0 1999999999
           [(400000000, "10.0.0.7:5141"); (900000000, "10.0.0.9:80");
            (1500000000, "10.0.0.7:5141"); (1600000000, "10.0.0.7:5141");
            (1700000000, "10.0.0.7:5141")]).
  - unfold sane, maxInt64; simpl; lia.
  - reflexivity.
  - unfold Second; lia.
  - repeat constructor; simpl; lia.
Defined.

Lemma run_params rl calls :
  rate (fst (run rl calls)) = rate rl /\
  burst (fst (run rl calls)) = burst rl.
Proof.
  revert rl. induction calls as [|[t k] calls IH]; intros rl; [done|].
  rewrite run_cons. cbn [fst]. destruct (IH (fst (Allow rl t k))) as [-> ->].
  apply Allow_params.
Qed.

Lemma run_seen_iff rl calls key :
  is_Some (lastRefill (fst (run rl calls)) !! key) <->
  is_Some (lastRefill rl !! key) \/ In key (map snd calls).
Proof.
  revert rl. induction calls as [|[now k] calls IH]; intros rl.
  - simpl. tauto.
  - rewrite run_cons. cbn [fst map snd In]. rewrite IH.
    destruct (decide (k = key)) as [->|Hne].
    + assert (is_Some (lastRefill (fst (Allow rl now key)) !! key)) as Hs.
      { destruct (lastRefill rl !! key) as [last|] eqn:Hl.
        - apply Allow_seen_stays. by rewrite Hl.
        - rewrite (Allow_fresh rl now key Hl). simpl.
          by rewrite lookup_insert_eq. }
      tauto.
    + destruct (Allow_other rl now k key Hne) as [_ ->]. tauto.
Qed.

(** With burst 0 no key ever holds a token: a refill is clamped at 0, and
    a call for a key that has been seen is refused. *)
Lemma zero_burst_step rl now key :
  burst rl = 0 -> (forall k, tok rl k <= 0) ->
  (forall k, tok (fst (Allow rl now key)) k <= 0) /\
  (is_Some (lastRefill rl !! key) -> snd (Allow rl now key) = false).
Proof.
  intros Hb Ht. unfold Allow.
  destruct (lastRefill rl !! key) as [last|] eqn:Hl.
  - assert (forall k, tok (refill rl now key last) k <= 0) as Hre.
    { intros k. unfold refill. case_match; [|done].
      rewrite tok_set_lastRefill, tok_set_tokens, min_spec, Hb.
      case_decide; [lia|done]. }
    rewrite (proj2 (Z.ltb_ge 0 _) (Hre key)). done.
  - split; [|by intros [? ?]]. intros k. cbn [fst].
    rewrite tok_set_lastRefill, tok_set_tokens, Hb.
    case_decide; [lia|done].
Qed.

Lemma zero_burst_run r calls :
  forall k, tok (fst (run (NewRateLimiter r 0) calls)) k <= 0.
Proof.
  assert (forall rl, burst rl = 0 -> (forall k, tok rl k <= 0) ->
            forall k, tok (fst (run rl calls)) k <= 0) as Hgen.
  { induction calls as [|[t c] calls IH]; intros rl Hb Ht; [done|].
    rewrite run_cons. cbn [fst]. apply IH.
    - destruct (Allow_params rl t c) as [_ ->]. done.
    - by apply zero_burst_step. }
  apply Hgen; [done|]. intros k. unfold tok. simpl.
  by rewrite lookup_empty.
Qed.

(** X3.  A limiter made with burst 0 still grants the first request of
    every key, and never another one to that key, whatever the rate and
    however long the key waits. *)
Theorem zero_burst_grants_first_call_only
  (r : Z) (calls : list (Z * string)) (now : Z) (key : string) :
  snd (Allow (fst (run (NewRateLimiter r 0) calls)) now key) =
    negb (bool_decide (key ∈ map snd calls)).
Proof.
  pose proof (run_seen_iff (NewRateLimiter r 0) calls key) as Hseen.
  pose proof (zero_burst_run r calls) as Ht.
  set (rl := fst (run (NewRateLimiter r 0) calls)) in *.
  assert (burst rl = 0) as Hb0
    by (unfold rl; by destruct (run_params (NewRateLimiter r 0) calls)).
  case_bool_decide as Hin.
  - apply list_elem_of_In in Hin.
    apply (zero_burst_step rl now key Hb0 Ht).
    apply Hseen. by right.
  - destruct (lastRefill rl !! key) as [last|] eqn:Hl.
    + exfalso. destruct (proj1 Hseen ltac:(by eexists)) as [Hx|Hx].
      * simpl in Hx. rewrite lookup_empty in Hx. by destruct Hx.
      * by apply Hin, list_elem_of_In.
    + by rewrite (Allow_fresh rl now key Hl).
Qed.

(** A key seen once, asking again a day later, under a rate that would
    overflow [int] in a refill. *)
Lemma zero_burst_after_a_day :
  snd (Allow (fst (run (NewRateLimiter maxInt64 0)
                     [(0, "10.0.0.7:5141"); (1, "10.0.0.9:80")]))
         86400000000000 "10.0.0.7:5141") = false.
Proof. by vm_compute. Qed.

End RateLimitBudget.

(** ** The middleware chain *)

Section MiddlewareFacts.
Import Http RateLimit Middleware.

Lemma w_Error_calls {W} `{Writer W} (w : W) msg code :
  w_Error w msg code = play (Error_calls msg code) w.
Proof. reflexivity. Qed.

Lemma play_app {W} `{Writer W} (c1 c2 : list call) (w : W) :
  play (c1 ++ c2) w = play c2 (play c1 w).
Proof. unfold play. by rewrite fold_left_app. Qed.

(** The wrapper of the logging middleware passes every call on. *)
Lemma play_wrapped {W} `{Writer W} (calls : list call) (rw : responseWriter W) :
  wrapped (play calls rw) = play calls (wrapped rw).
Proof.
  revert rw. induction calls as [|c calls IH]; intros rw; [done|].
  unfold play in *. cbn [fold_left]. rewrite IH. by destruct c.
Qed.

Lemma play_no_WriteHeader {W} `{Writer W} (calls : list call)
  (rw : responseWriter W) :
  forallb (fun c => negb (is_WriteHeader c)) calls = true ->
  captured (play calls rw) = captured rw.
Proof.
  revert rw. induction calls as [|c calls IH]; intros rw Hall; [done|].
  cbn [forallb] in Hall. apply andb_true_iff in Hall as [Hc Hall].
  unfold play in *. cbn [fold_left]. rewrite IH by done.
  by destruct c.
Qed.

(** Once the status has been written it stays. *)
Lemma play_status_fixed (calls : list call) (w : ResponseWriter) :
  is_Some (statusCode w) -> statusCode (play calls w) = statusCode w.
Proof.
  revert w. induction calls as [|c calls IH]; intros w [code Hw]; [done|].
  unfold play in *. cbn [fold_left].
  assert (statusCode (play1 w c) = Some code) as Hc.
  { destruct c as [k v|code'|ch];
      cbn [play1 w_Header_Set w_WriteHeader w_Write serverWriter].
    - done.
    - unfold WriteHeader. by rewrite Hw.
    - unfold Write, WriteHeader. by rewrite Hw. }
  rewrite IH by (by rewrite Hc). by rewrite Hc, Hw.
Qed.

(** For orderly calls the status the wrapper has captured is the status the
    client is sent. *)
Lemma captured_is_sent (calls : list call) (w : ResponseWriter) :
  statusCode w = None -> orderly calls = true ->
  captured (play calls (mkResponseWriterWrapper w StatusOK)) =
    sent_status (play calls w).
Proof.
  revert w. induction calls as [|c calls IH]; intros w Hw Hord.
  - unfold sent_status. simpl. by rewrite Hw.
  - destruct c as [k v|code|ch]; cbn [orderly] in Hord.
    + unfold play in *. cbn [fold_left]. by apply IH.
    + unfold play. cbn [fold_left].
      pose proof (play_no_WriteHeader calls
                    (play1 (mkResponseWriterWrapper w StatusOK)
                       (CWriteHeader code)) Hord) as Hc.
      unfold play in Hc. rewrite Hc.
      pose proof (play_status_fixed calls (play1 w (CWriteHeader code)))
        as Hst.
      unfold play in Hst. unfold sent_status. rewrite Hst.
      * cbn [play1 w_WriteHeader serverWriter]. unfold WriteHeader.
        by rewrite Hw.
      * cbn [play1 w_WriteHeader serverWriter]. unfold WriteHeader.
        rewrite Hw. by eexists.
    + unfold play. cbn [fold_left].
      pose proof (play_no_WriteHeader calls
                    (play1 (mkResponseWriterWrapper w StatusOK) (CWrite ch))
                    Hord) as Hc.
      unfold play in Hc. rewrite Hc.
      pose proof (play_status_fixed calls (play1 w (CWrite ch))) as Hst.
      unfold play in Hst. unfold sent_status. rewrite Hst.
      * cbn [play1 w_Write serverWriter]. unfold Write, WriteHeader.
        by rewrite Hw.
      * cbn [play1 w_Write serverWriter]. unfold Write, WriteHeader.
        rewrite Hw. by eexists.
Qed.

(** Calls that do not set a header, under any spelling of its name, leave it
    as it was. *)
Lemma play_header (calls : list call) (w : ResponseWriter) (k : string) :
  (forall k' v,
     In (CHeaderSet k' v) calls -> CanonicalMIMEHeaderKey k' <> k) ->
  header (play calls w) !! k = header w !! k.
Proof.
  revert w. induction calls as [|c calls IH]; intros w Hk; [done|].
  unfold play in *. cbn [fold_left]. rewrite IH.
  - destruct c as [k' v|code|ch]; cbn [play1 w_Header_Set w_WriteHeader
                                        w_Write serverWriter].
    + simpl. rewrite lookup_insert_ne; [done|]. apply (Hk k' v). by left.
    + unfold WriteHeader. by destruct (statusCode w).
    + unfold Write, WriteHeader. by destruct (statusCode w).
  - intros k' v Hin. apply (Hk k' v). by right.
Qed.

(** Around a handler given by its calls, the rate limiter is a handler given
    by its calls. *)
Lemma RateLimitMiddleware_scripted {S}
  (f : Z -> S -> HttpRequest -> S * list call) {W} `{Writer W}
  now st r (w : W) :
  RateLimitMiddleware (scripted f) W _ now st r w =
    ((gate_script f now st r).1, play (gate_script f now st r).2 w).
Proof.
  unfold RateLimitMiddleware, gate_script, scripted.
  destruct (Allow st.1 now (RemoteAddr r)) as [limiter [|]]; cbn [negb].
  - by destruct (f now st.2 r).
  - done.
Qed.

Lemma rootHandler_scripted {W} `{Writer W} now s r (w : W) :
  rootHandler W _ now s r w = scripted root_script W _ now s r w.
Proof.
  unfold rootHandler, scripted, root_script.
  by destruct (negb (String.eqb (Path r) "/")).
Qed.

(** The writer after the three header calls of [corsMiddleware]. *)
Lemma cors_headers_set (w : ResponseWriter) :
  let w3 :=
    Header_Set "Access-Control-Allow-Headers" "Content-Type, Authorization"
      (Header_Set "Access-Control-Allow-Methods"
         "GET, POST, PUT, DELETE, OPTIONS"
         (Header_Set "Access-Control-Allow-Origin" "*" w)) in
  statusCode w3 = statusCode w /\ body w3 = body w /\
  header w3 !! "Access-Control-Allow-Origin" = Some "*" /\
  header w3 !! "Access-Control-Allow-Methods" =
    Some "GET, POST, PUT, DELETE, OPTIONS" /\
  header w3 !! "Access-Control-Allow-Headers" =
    Some "Content-Type, Authorization".
Proof.
  cbv zeta. unfold Header_Set. cbn [header statusCode body].
  destruct canonical_names as (_ & _ & -> & -> & ->).
  repeat split; by simplify_map_eq.
Qed.

End MiddlewareFacts.

Section MiddlewareExtras.
Import Http RateLimit Middleware GoInt GoTime.

Lemma RateLimitMiddleware_gate {S : Type}
  (next : Handler S) (rl : RateLimiter) (s : S)
  (reqs : list (Z * HttpRequest)) :
  serve_all (RateLimitMiddleware next) (rl, s) reqs =
    ((fst (run rl (limiter_calls reqs)),
      (serve_all next s
         (admitted reqs (snd (run rl (limiter_calls reqs))))).1),
     answers (snd (run rl (limiter_calls reqs)))
       (serve_all next s
          (admitted reqs (snd (run rl (limiter_calls reqs))))).2).
Proof.
  revert rl s.
  induction reqs as [|[now r] reqs IH]; intros rl s; [done|].
  cbn [limiter_calls map fst snd]. fold (limiter_calls reqs).
  rewrite run_cons. cbn [fst snd serve_all].
  unfold RateLimitMiddleware at 1. cbn [fst snd].
  destruct (Allow rl now (RemoteAddr r)) as [limiter [|]];
    cbn [negb admitted answers fst snd].
  - cbn [serve_all].
    destruct (next ResponseWriter serverWriter now s r newResponseWriter)
      as [s1 w1].
    rewrite IH.
    destruct (serve_all next s1 (admitted reqs (run limiter (limiter_calls reqs)).2))
      as [s2 ws]. done.
  - rewrite IH.
    destruct (serve_all next s (admitted reqs (run limiter (limiter_calls reqs)).2))
      as [s2 ws]. done.
Qed.

Lemma serve_all_length {S : Type} (h : Handler S) (s : S) reqs :
  length (serve_all h s reqs).2 = length reqs.
Proof.
  revert s. induction reqs as [|[now r] reqs IH]; intros s; [done|].
  cbn [serve_all].
  destruct (h ResponseWriter serverWriter now s r newResponseWriter)
    as [s1 w1].
  specialize (IH s1). destruct (serve_all h s1 reqs) as [s2 ws].
  cbn [snd length] in *. by rewrite IH.
Qed.

Lemma admitted_all (reqs more : list (Z * HttpRequest)) oks :
  admitted (reqs ++ more) (repeat true (length reqs) ++ oks) =
    reqs ++ admitted more oks.
Proof.
  induction reqs as [|tr reqs IH]; [done|].
  cbn [length repeat app admitted]. by rewrite IH.
Qed.

Lemma answers_all (served : list ResponseWriter) oks :
  answers (repeat true (length served) ++ oks) served =
    served ++ answers oks [].
Proof.
  induction served as [|w served IH]; [done|].
  cbn [length repeat app answers]. by rewrite IH.
Qed.

(** X4.  [RateLimitMiddleware] serves exactly what the limiter grants.
    When the server handles the requests of a list one after the other, the
    limiter sees one call per request, keyed by the remote address; the
    handler behind it serves the granted requests, in that order, as if the
    others had never come; and every refused request is answered 429 with
    the line "Rate limit exceeded" as plain text. *)
Theorem RateLimitMiddleware_serves_what_is_granted {S : Type}
  (next : Handler S) (rl : RateLimiter) (s : S)
  (reqs : list (Z * HttpRequest)) :
  let oks := snd (run rl (limiter_calls reqs)) in
  let inner := serve_all next s (admitted reqs oks) in
  serve_all (RateLimitMiddleware next) (rl, s) reqs =
    ((fst (run rl (limiter_calls reqs)), inner.1), answers oks inner.2) /\
  statusCode refusal = Some 429 /\
  body refusal = [Text (String.append "Rate limit exceeded" newline)] /\
  header refusal !! "Content-Type" = Some "text/plain; charset=utf-8".
Proof.
  cbv zeta. split; [apply RateLimitMiddleware_gate|].
  split; [done|]. split; [done|].
  unfold refusal. rewrite Error_header.
  by simplify_map_eq.
Qed.

(** X5.  A remote address that has not been seen gets [burst + 1] requests
    through when they arrive within a second, each answered by the handler
    behind the limiter; the next one within that second is answered 429
    and does not reach the handler. *)
Theorem RateLimitMiddleware_burst {S : Type}
  (next : Handler S) (rl : RateLimiter) (s : S) (addr : string) (t0 : Z)
  (r0 : HttpRequest) (more : list (Z * HttpRequest))
  (extra : Z * HttpRequest) :
  sane rl ->
  lastRefill rl !! addr = None ->
  RemoteAddr r0 = addr ->
  Forall (fun tr : Z * HttpRequest =>
            RemoteAddr tr.2 = addr /\ - Second < tr.1 - t0 < Second)
    (more ++ [extra]) ->
  length more = Z.to_nat (burst rl) ->
  let res := serve_all (RateLimitMiddleware next) (rl, s)
               ((t0, r0) :: more ++ [extra]) in
  let alone := serve_all next s ((t0, r0) :: more) in
  res.1.2 = alone.1 /\
  res.2 = alone.2 ++ [refusal].
Proof.
  intros Hs Hfresh Hr0 Hall Hlen. cbv zeta.
  rewrite RateLimitMiddleware_gate. cbn [fst snd].
  assert (limiter_calls ((t0, r0) :: more ++ [extra]) =
          (t0, addr) :: map (fun t => (t, addr)) (map fst (more ++ [extra])))
    as ->.
  { unfold limiter_calls. cbn [map fst snd]. rewrite Hr0. f_equal.
    rewrite map_map. apply map_ext_Forall.
    eapply Forall_impl; [exact Hall|]. by intros [t r] [-> _]. }
  rewrite run_cons, (Allow_fresh rl t0 addr Hfresh). cbn [fst snd].
  set (rl1 := set_lastRefill (set_tokens rl addr (burst rl)) addr t0).
  assert (tok rl1 addr = burst rl) as Htok.
  { unfold rl1. by rewrite tok_set_lastRefill, tok_set_tokens, decide_True. }
  destruct Hs as (HR & HB & Hmax).
  rewrite (run_within_second rl1 addr t0 (map fst (more ++ [extra]))).
  - rewrite Htok, length_map, length_app, Hlen. cbn [length].
    replace (Nat.min _ _) with (length more) by lia.
    replace (Z.to_nat (burst rl) + 1 - Z.to_nat (burst rl))%nat with 1%nat
      by lia.
    cbn [repeat].
    change (true :: repeat true (length more) ++ [false])
      with (repeat true (length ((t0, r0) :: more)) ++ [false]).
    change ((t0, r0) :: more ++ [extra])
      with (((t0, r0) :: more) ++ [extra]).
    rewrite admitted_all. cbn [admitted]. rewrite app_nil_r.
    rewrite <- (serve_all_length next s ((t0, r0) :: more)).
    rewrite answers_all. done.
  - done.
  - unfold rl1. simpl. by rewrite lookup_insert_eq.
  - rewrite Htok. change (burst rl1) with (burst rl). lia.
  - apply Forall_map. eapply Forall_impl; [exact Hall|]. by intros [t r] [_ H].
Qed.

Lemma RateLimitMiddleware_burst_witness :
  let get t := (t, mkHttpRequest "GET" "/" "10.0.0.7:5141" (mkRequest [])) in
  let res := serve_all (RateLimitMiddleware rootHandler)
               (NewRateLimiter 100 1, tt) [get 0; get 1; get 2] in
  res.1.2 = tt /\
  res.2 = (serve_all rootHandler tt [get 0; get 1]).2 ++ [refusal].
Proof.
  apply (RateLimitMiddleware_burst rootHandler (NewRateLimiter 100 1) tt
           "10.0.0.7:5141" 0
           (mkHttpRequest "GET" "/" "10.0.0.7:5141" (mkRequest []))
           [(1, mkHttpRequest "GET" "/" "10.0.0.7:5141" (mkRequest []))]
           (2, mkHttpRequest "GET" "/" "10.0.0.7:5141" (mkRequest []))).
  - unfold sane, maxInt64; simpl; lia.
  - reflexivity.
  - reflexivity.
  - unfold Second. repeat constructor; simpl; lia.
  - reflexivity.
Defined.

(** X6.  A preflight request stops at [corsMiddleware]: the chain answers
    200 with the three CORS headers and nothing in the body, writes no log
    line, takes no token from the limiter and never reaches the mux. *)
Theorem preflight_stops_at_cors {S : Type} (mux : Handler S) (now : Z)
  (st : list LogLine * (RateLimiter * S)) (r : HttpRequest)
  (w : ResponseWriter) :
  Method r = "OPTIONS" -> statusCode w = None ->
  let res := finalHandler mux ResponseWriter _ now st r w in
  res.1 = st /\
  statusCode res.2 = Some StatusOK /\
  body res.2 = body w /\
  header res.2 !! "Access-Control-Allow-Origin" = Some "*" /\
  header res.2 !! "Access-Control-Allow-Methods" =
    Some "GET, POST, PUT, DELETE, OPTIONS" /\
  header res.2 !! "Access-Control-Allow-Headers" =
    Some "Content-Type, Authorization".
Proof.
  intros Hm Hw. cbv zeta. unfold finalHandler, corsMiddleware.
  rewrite Hm. cbn [String.eqb Ascii.eqb Bool.eqb fst snd].
  cbn [w_WriteHeader w_Header_Set serverWriter].
  pose proof (cors_headers_set w) as (Hs & Hb & H1 & H2 & H3).
  cbv zeta in *. unfold WriteHeader. rewrite Hs, Hw.
  cbn [statusCode body header]. done.
Qed.

Lemma preflight_stops_at_cors_witness :
  let st := ([], (NewRateLimiter 100 0, tt)) in
  let res := finalHandler rootHandler ResponseWriter _ 0 st
               (mkHttpRequest "OPTIONS" "/purchase" "10.0.0.7:5141"
                  (mkRequest [])) newResponseWriter in
  res.1 = st /\ statusCode res.2 = Some 200 /\ body res.2 = [].
Proof.
  destruct (preflight_stops_at_cors rootHandler 0
              ([], (NewRateLimiter 100 0, tt))
              (mkHttpRequest "OPTIONS" "/purchase" "10.0.0.7:5141"
                 (mkRequest [])) newResponseWriter eq_refl eq_refl)
    as (Hst & Hs & Hb & _).
  exact (conj Hst (conj Hs Hb)).
Defined.

End MiddlewareExtras.

Section ChainExtras.
Import Http RateLimit Middleware.

Lemma gate_script_orderly {S : Type}
  (f : Z -> S -> HttpRequest -> S * list call) now st r :
  orderly (f now st.2 r).2 = true ->
  orderly (gate_script f now st r).2 = true.
Proof.
  intros Hord. unfold gate_script.
  destruct (Allow st.1 now (RemoteAddr r)) as [limiter [|]]; cbn [negb].
  - by destruct (f now st.2 r).
  - done.
Qed.

Lemma gate_script_keeps_cors {S : Type}
  (f : Z -> S -> HttpRequest -> S * list call) now st r :
  keeps_cors (f now st.2 r).2 ->
  keeps_cors (gate_script f now st r).2.
Proof.
  intros Hk. unfold gate_script.
  destruct (Allow st.1 now (RemoteAddr r)) as [limiter [|]]; cbn [negb].
  - by destruct (f now st.2 r).
  - intros k v Hin Hc. cbn [snd Error_calls In] in Hin.
    unfold cors_keys in Hc. cbn [In] in Hc.
    destruct Hin as [Hin|[Hin|[Hin|[Hin|[]]]]]; try discriminate;
      injection Hin as <- <-; intuition discriminate.
Qed.

(** X7.  Every answer of the chain carries the three CORS headers with the
    values of [corsMiddleware], the answers of the rate limiter (429) and
    the error answers included, as long as the calls of the mux do not set
    these headers themselves, under any spelling of their names (the writer
    stores a header under the canonical form of its name). *)
Theorem cors_headers_on_every_answer {S : Type}
  (f : Z -> S -> HttpRequest -> S * list call) (now : Z)
  (st : list LogLine * (RateLimiter * S)) (r : HttpRequest)
  (w : ResponseWriter) :
  keeps_cors (f now st.2.2 r).2 ->
  let res := finalHandler (scripted f) ResponseWriter _ now st r w in
  header res.2 !! "Access-Control-Allow-Origin" = Some "*" /\
  header res.2 !! "Access-Control-Allow-Methods" =
    Some "GET, POST, PUT, DELETE, OPTIONS" /\
  header res.2 !! "Access-Control-Allow-Headers" =
    Some "Content-Type, Authorization".
Proof.
  intros Hk. cbv zeta. unfold finalHandler, corsMiddleware.
  cbn [w_WriteHeader w_Header_Set serverWriter].
  pose proof (cors_headers_set w) as (Hs & Hb & H1 & H2 & H3).
  cbv zeta in *.
  destruct (String.eqb (Method r) "OPTIONS").
  - cbn [snd]. unfold WriteHeader.
    by destruct (statusCode _).
  - unfold loggingMiddleware. rewrite RateLimitMiddleware_scripted.
    cbn [fst snd]. rewrite play_wrapped. cbn [wrapped].
    pose proof (gate_script_keeps_cors f now st.2 r Hk) as Hg.
    rewrite !play_header; [done| | |];
      intros k' v Hin Heq; apply (Hg _ v Hin); rewrite Heq;
      unfold cors_keys; simpl; tauto.
Qed.

Lemma cors_headers_on_every_answer_witness :
  let res := finalHandler (scripted root_script) ResponseWriter _ 0
               ([], (NewRateLimiter 100 0, tt))
               (mkHttpRequest "GET" "/nowhere" "10.0.0.7:5141"
                  (mkRequest [])) newResponseWriter in
  header res.2 !! "Access-Control-Allow-Origin" = Some "*".
Proof.
  destruct (cors_headers_on_every_answer root_script 0
              ([], (NewRateLimiter 100 0, tt))
              (mkHttpRequest "GET" "/nowhere" "10.0.0.7:5141" (mkRequest []))
              newResponseWriter) as [H _].
  - intros k v Hin Hc. cbn in Hin, Hc.
    destruct Hin as [Hin|[Hin|[Hin|[Hin|[]]]]]; try discriminate;
      injection Hin as <- <-; intuition discriminate.
  - exact H.
Defined.



(** Outside that condition the line can be wrong: a handler that writes the
    body and then calls [WriteHeader(404)] is logged with 404 while the
    client was sent 200. *)
Lemma log_status_of_a_late_WriteHeader :
  let late (_ : Z) (s : unit) (_ : HttpRequest) :=
    (s, [CWrite (Text "ok"); CWriteHeader 404]) in
  let res := finalHandler (scripted late) ResponseWriter _ 0
               ([], (NewRateLimiter 100 0, tt))
               (mkHttpRequest "GET" "/" "10.0.0.7:5141" (mkRequest []))
               newResponseWriter in
  map log_status res.1.1 = [404] /\ sent_status res.2 = 200.
Proof. by vm_compute. Qed.

End ChainExtras.

(** ** The configuration *)

Section ConfigFacts.
Import GoInt Config.
Import Stdlib.Strings.Ascii.

Lemma digits_first d :
  d <> Decimal.Nil ->
  exists c rest,
    DecimalString.NilZero.string_of_uint d = String c rest /\
    Ascii.eqb c "-" = false /\ Ascii.eqb c "+" = false.
Proof. destruct d; intros Hd; try done; by do 2 eexists. Qed.

Lemma Atoi_digits d :
  d <> Decimal.Nil ->
  Atoi (DecimalString.NilZero.string_of_uint d) =
    if (minInt64 <=? Z.of_uint d) && (Z.of_uint d <=? maxInt64)
    then Some (Z.of_uint d) else None.
Proof.
  intros Hd. destruct (digits_first d Hd) as (c & rest & Hs & Hm & Hp).
  unfold Atoi. rewrite Hs, Hm, Hp. cbn [orb]. rewrite <- Hs.
  by rewrite DecimalString.NilZero.usu.
Qed.

Lemma Atoi_minus_digits d :
  d <> Decimal.Nil ->
  Atoi (String "-" (DecimalString.NilZero.string_of_uint d)) =
    if (minInt64 <=? - Z.of_uint d) && (- Z.of_uint d <=? maxInt64)
    then Some (- Z.of_uint d) else None.
Proof.
  intros Hd. unfold Atoi. cbn [Ascii.eqb Bool.eqb orb].
  by rewrite DecimalString.NilZero.usu.
Qed.

(** Parsing what [Itoa] printed gives the number back, if it is an [int]. *)
Lemma Atoi_Itoa n :
  Atoi (Itoa n) =
    if (minInt64 <=? n) && (n <=? maxInt64) then Some n else None.
Proof.
  unfold Itoa. destruct n as [|p|p]; cbn [Z.to_int].
  - reflexivity.
  - cbn [DecimalString.NilZero.string_of_int].
    rewrite Atoi_digits by apply DecimalPos.Unsigned.to_uint_nonnil.
    unfold Z.of_uint. by rewrite DecimalPos.Unsigned.of_to.
  - cbn [DecimalString.NilZero.string_of_int].
    rewrite Atoi_minus_digits by apply DecimalPos.Unsigned.to_uint_nonnil.
    unfold Z.of_uint. by rewrite DecimalPos.Unsigned.of_to.
Qed.

Lemma Itoa_nonempty n : Itoa n <> "".
Proof.
  unfold Itoa. destruct n as [|p|p]; cbn [Z.to_int]; try done.
  cbn [DecimalString.NilZero.string_of_int].
  destruct (digits_first (Pos.to_uint p)
              (DecimalPos.Unsigned.to_uint_nonnil p)) as (c & rest & -> & _).
  done.
Qed.

Lemma uint_of_char_not_digit c o :
  not_digit c -> DecimalString.uint_of_char c o = None.
Proof.
  intros Hc. destruct o as [d|]; [|done]. unfold not_digit in Hc.
  destruct c as [[|] [|] [|] [|] [|] [|] [|] [|]]; try done;
    vm_compute in Hc; destruct Hc as [Hc|Hc]; discriminate.
Qed.

Lemma uint_of_string_not_digit pre c post :
  not_digit c ->
  DecimalString.NilEmpty.uint_of_string (pre ++ String c post) = None.
Proof.
  intros Hc. induction pre as [|a pre IH].
  - change ("" +:+ String c post) with (String c post).
    cbn [DecimalString.NilEmpty.uint_of_string].
    by apply uint_of_char_not_digit.
  - change (String a pre +:+ String c post)
      with (String a (pre +:+ String c post)).
    cbn [DecimalString.NilEmpty.uint_of_string].
    rewrite IH. done.
Qed.

Lemma Atoi_not_digit c0 pre c post :
  not_digit c -> Atoi (String c0 (pre ++ String c post)) = None.
Proof.
  intros Hc. unfold Atoi.
  destruct (Ascii.eqb c0 "-" || Ascii.eqb c0 "+").
  - unfold DecimalString.NilZero.uint_of_string.
    rewrite uint_of_string_not_digit by done.
    by destruct (pre ++ String c post)%string.
  - unfold DecimalString.NilZero.uint_of_string.
    change (String c0 (pre ++ String c post))
      with ((String c0 pre) ++ String c post)%string.
    by rewrite uint_of_string_not_digit.
Qed.

Lemma Getenv_filter (env : gmap string string) key :
  Getenv (filter (fun kv : string * string => kv.2 <> "") env) key =
    Getenv env key.
Proof.
  unfold Getenv.
  destruct (env !! key) as [v|] eqn:Hv.
  - destruct (decide (v = "")) as [->|Hne].
    + rewrite (proj2 (map_lookup_filter_None _ _ _)); [done|].
      right. intros x Hx. simplify_eq. simpl. tauto.
    + by rewrite (map_lookup_filter_Some_2 _ _ _ _ Hv Hne).
  - rewrite (proj2 (map_lookup_filter_None _ _ _)); [done|]. by left.
Qed.

End ConfigFacts.

Section ConfigExtras.
Import GoInt Config.
Import Stdlib.Strings.Ascii.

(** X9.  [getEnvInt] reads back every [int] from its decimal form, with no
    check of the range an option allows (a negative or huge port is taken as
    it is); a decimal number that does not fit an [int] is not an error but
    silently gives the default. *)
Theorem getEnvInt_reads_decimal
  (env : gmap string string) (key : string) (d n : Z) :
  env !! key = Some (Itoa n) ->
  (in_int64 n -> getEnvInt env key d = n) /\
  (~ in_int64 n -> getEnvInt env key d = d).
Proof.
  intros Hv. unfold getEnvInt, Getenv. rewrite Hv. cbn [default from_option].
  unfold id.
  rewrite (proj2 (String.eqb_neq _ _) (Itoa_nonempty n)). cbn [negb].
  rewrite Atoi_Itoa. unfold in_int64.
  split; intros Hn.
  - rewrite (proj2 (Z.leb_le _ _) (proj1 Hn)).
    by rewrite (proj2 (Z.leb_le _ _) (proj2 Hn)).
  - destruct (minInt64 <=? n) eqn:H1; [|done].
    destruct (n <=? maxInt64) eqn:H2; [|done].
    exfalso. apply Hn. split; [by apply Z.leb_le|by apply Z.leb_le].
Qed.

Lemma getEnvInt_reads_decimal_witness :
  getEnvInt {[ "PORT" := "-1" ]} "PORT" 8080 = -1 /\
  getEnvInt {[ "PORT" := "9223372036854775808" ]} "PORT" 8080 = 8080.
Proof.
  split.
  - apply (getEnvInt_reads_decimal {[ "PORT" := "-1" ]} "PORT" 8080 (-1)).
    + vm_compute. reflexivity.
    + unfold in_int64, minInt64, maxInt64. lia.
  - apply (getEnvInt_reads_decimal
             {[ "PORT" := "9223372036854775808" ]} "PORT" 8080
             9223372036854775808).
    + vm_compute. reflexivity.
    + unfold in_int64, minInt64, maxInt64. lia.
Defined.

(** X10.  [getEnvInt] never fails: it gives the default when the variable is
    not set, when it is set to the empty string, and when its value has a
    character, after the first one, that is not a decimal digit. *)
Theorem getEnvInt_falls_back
  (env : gmap string string) (key : string) (d : Z) :
  (env !! key = None \/ env !! key = Some "" \/
   exists c0 pre c post,
     env !! key = Some (String c0 (pre ++ String c post)) /\ not_digit c) ->
  getEnvInt env key d = d.
Proof.
  unfold getEnvInt, Getenv.
  intros [Hv|[Hv|(c0 & pre & c & post & Hv & Hc)]]; rewrite Hv;
    cbn [default from_option]; unfold id.
  - done.
  - done.
  - cbn [String.eqb negb]. by rewrite Atoi_not_digit.
Qed.

Lemma getEnvInt_falls_back_witness :
  getEnvInt {[ "PORT" := "80 80" ]} "PORT" 8080 = 8080.
Proof.
  apply (getEnvInt_falls_back {[ "PORT" := "80 80" ]} "PORT" 8080).
  right. right. exists "8"%char, "0", " "%char, "80".
  split; [reflexivity|]. left. by vm_compute.
Defined.

(** X11.  For [loadConfig] a variable set to the empty string is a variable
    that is not set: removing such variables from the environment changes no
    field of the configuration. *)
Theorem loadConfig_empty_is_unset (env : gmap string string) :
  loadConfig (filter (fun kv : string * string => kv.2 <> "") env) =
    loadConfig env.
Proof.
  unfold loadConfig, getEnv, getEnvInt. by rewrite !Getenv_filter.
Qed.

End ConfigExtras.

(** ** The generators of the scheduler *)

Section GeneratorFacts.
Import GoInt Config Generators.
Import Stdlib.Strings.Ascii.

(** The two digits of a byte determine the byte. *)
Lemma byte_of_hex_digits (b : Byte.byte) :
  let unhex := fun c : ascii =>
    if (N_of_ascii c <? 58)%N then (N_of_ascii c - 48)%N
    else (N_of_ascii c - 87)%N in
  Byte.of_N
    (16 * unhex (hexdigit (N.shiftr (Byte.to_N b) 4)) +
     unhex (hexdigit (N.land (Byte.to_N b) 15)))%N = Some b.
Proof. destruct b; reflexivity. Qed.

Lemma EncodeToString_inj bs bs' :
  EncodeToString bs = EncodeToString bs' -> bs = bs'.
Proof.
  revert bs'. induction bs as [|b bs IH]; intros [|b' bs'] Heq;
    try done; cbn [EncodeToString] in Heq.
  injection Heq as H1 H2 Hrest.
  pose proof (byte_of_hex_digits b) as Hb.
  pose proof (byte_of_hex_digits b') as Hb'.
  cbv zeta in Hb, Hb'. rewrite H1, H2, Hb' in Hb.
  injection Hb as ->. f_equal. by apply IH.
Qed.

Lemma EncodeToString_length bs :
  String.length (EncodeToString bs) = (2 * length bs)%nat.
Proof.
  induction bs as [|b bs IH]; [done|].
  cbn [EncodeToString String.length length]. rewrite IH. lia.
Qed.

(** The code of a hexadecimal digit lies between ['0'] and ['f']. *)
Lemma hexdigit_code (b : Byte.byte) :
  (48 <= N_of_ascii (hexdigit (N.shiftr (Byte.to_N b) 4)) <= 102)%N /\
  (48 <= N_of_ascii (hexdigit (N.land (Byte.to_N b) 15)) <= 102)%N.
Proof. destruct b; vm_compute; repeat split; discriminate. Qed.

Lemma runes_cons c s : runes (String c s) = Z.of_N (N_of_ascii c) :: runes s.
Proof. reflexivity. Qed.

Lemma runes_length s : length (runes s) = String.length s.
Proof.
  induction s as [|c s IH]; [done|].
  rewrite runes_cons. cbn [length String.length]. by rewrite IH.
Qed.

Lemma runes_range s : Forall (fun x => 0 <= x <= 255) (runes s).
Proof.
  induction s as [|c s IH]; [constructor|].
  rewrite runes_cons. constructor; [|done].
  pose proof (N_ascii_bounded c). lia.
Qed.

(** Without overflow the seed loop is a plain sum. *)
Lemma seed_loop_sum (l : list Z) (acc : Z) :
  0 <= acc -> Forall (fun x => 0 <= x <= 255) l ->
  acc + 255 * Z.of_nat (length l) <= maxInt64 ->
  fold_left (fun seed char => wrap64 (seed + char)) l acc =
    acc + foldr Z.add 0 l.
Proof.
  revert acc. induction l as [|x l IH]; intros acc Hacc Hall Hmax.
  - simpl. lia.
  - apply Forall_cons in Hall as [Hx Hall]. cbn [fold_left foldr].
    cbn [length] in Hmax.
    rewrite wrap64_id
      by (unfold in_int64, minInt64, maxInt64 in *; lia).
    rewrite IH; [lia|lia|done|lia].
Qed.

Lemma runes_hex bs :
  foldr Z.add 0 (runes (EncodeToString bs)) = digit_sum bs.
Proof.
  induction bs as [|b bs IH]; [done|].
  cbn [EncodeToString]. rewrite !runes_cons. cbn [foldr].
  rewrite IH. unfold digit_sum. cbn [foldr]. lia.
Qed.

Lemma digit_sum_bounds bs :
  96 * Z.of_nat (length bs) <= digit_sum bs <= 204 * Z.of_nat (length bs).
Proof.
  induction bs as [|b bs IH]; [done|].
  unfold digit_sum in *. cbn [foldr length].
  destruct (hexdigit_code b) as [[? ?] [? ?]]. lia.
Qed.

Lemma item_id_eq bs :
  String.append "item_" (EncodeToString bs) =
    String "i" (String "t" (String "e" (String "m" (String "_"
      (EncodeToString bs))))).
Proof. reflexivity. Qed.

(** The seed of a generated item id. *)
Lemma seed_of_item_id bs :
  Z.of_nat (length bs) <= 1000000 ->
  seed_of (String.append "item_" (EncodeToString bs)) = 526 + digit_sum bs.
Proof.
  intros Hlen. unfold seed_of. rewrite seed_loop_sum.
  - rewrite item_id_eq, !runes_cons. cbn [foldr]. rewrite runes_hex.
    vm_compute (Z.of_N (N_of_ascii "i")).
    vm_compute (Z.of_N (N_of_ascii "t")).
    vm_compute (Z.of_N (N_of_ascii "e")).
    vm_compute (Z.of_N (N_of_ascii "m")).
    vm_compute (Z.of_N (N_of_ascii "_")).
    lia.
  - done.
  - apply runes_range.
  - rewrite runes_length, item_id_eq. cbn [String.length].
    rewrite EncodeToString_length. unfold maxInt64. lia.
Qed.

Lemma digit_sum_perm bs bs' : bs ≡ₚ bs' -> digit_sum bs = digit_sum bs'.
Proof.
  induction 1 as [|b l l' _ IH|b b' l|l l' l'' _ IH1 _ IH2];
    unfold digit_sum in *; cbn [foldr]; lia.
Qed.

Lemma item_id_ascii bs :
  Forall (fun c => (N_of_ascii c < 128)%N)
    (String.list_ascii_of_string (String.append "item_" (EncodeToString bs))).
Proof.
  rewrite item_id_eq. cbn [String.list_ascii_of_string].
  repeat (constructor; [by vm_compute|]).
  induction bs as [|b bs IH]; [constructor|].
  cbn [EncodeToString String.list_ascii_of_string].
  destruct (hexdigit_code b) as [[? ?] [? ?]].
  constructor; [lia|]. constructor; [lia|]. done.
Qed.

End GeneratorFacts.

Section GenerateItemsFacts.
Import GoInt Config Generators.
Variable read_at : nat -> result (list Byte.byte).
Variable name_at : nat -> result string.

Abbreviation gen_loop := (generateItems_loop read_at name_at).

Lemma gen_loop_ok saleID n : forall i items res,
  gen_loop saleID i n items = Ok res ->
  length res = (length items + n)%nat /\
  (forall k, (k < length items)%nat -> res !! k = items !! k) /\
  (forall j, (j < n)%nat ->
     exists it, res !! (length items + j)%nat = Some it /\
                built read_at name_at saleID (i + j) it).
Proof.
  induction n as [|n IH]; intros i items res Hok; cbn [generateItems_loop] in Hok.
  - injection Hok as <-. split; [lia|]. split; [done|].
    intros j Hj. lia.
  - unfold generateItemID in Hok.
    destruct (read_at i) as [bs|e] eqn:Hr; [|done].
    destruct (name_at i) as [name|e] eqn:Hn; [|done].
    apply IH in Hok as (Hlen & Hpre & Hnew).
    rewrite length_app in *. cbn [length] in *.
    split; [lia|]. split.
    + intros k Hk. rewrite Hpre by lia. by rewrite lookup_app_l.
    + intros [|j] Hj.
      * eexists. split.
        -- rewrite Nat.add_0_r, Hpre by lia.
           rewrite lookup_app_r by lia. rewrite Nat.sub_diag. reflexivity.
        -- rewrite Nat.add_0_r. by exists bs, name.
      * destruct (Hnew j ltac:(lia)) as (it & Hit & Hb).
        exists it. split.
        -- rewrite <- Hit. f_equal. lia.
        -- replace (i + S j)%nat with (S i + j)%nat by lia. done.
Qed.

Lemma gen_loop_err saleID n : forall i items e,
  gen_loop saleID i n items = Err e ->
  exists j, (j < n)%nat /\ fails_at read_at name_at (i + j) e /\
    forall j', (j' < j)%nat ->
      (exists bs, read_at (i + j') = Ok bs) /\
      (exists name, name_at (i + j') = Ok name).
Proof.
  induction n as [|n IH]; intros i items e Herr;
    cbn [generateItems_loop] in Herr; [done|].
  unfold generateItemID in Herr.
  destruct (read_at i) as [bs|e'] eqn:Hr.
  - destruct (name_at i) as [name|e''] eqn:Hn.
    + apply IH in Herr as (j & Hj & Hf & Hbefore).
      exists (S j). split; [lia|]. split.
      * replace (i + S j)%nat with (S i + j)%nat by lia. done.
      * intros [|j'] Hj'.
        -- rewrite Nat.add_0_r. split; by eexists.
        -- replace (i + S j')%nat with (S i + j')%nat by lia.
           apply Hbefore. lia.
    + injection Herr as ->. exists 0%nat. split; [lia|]. split.
      * rewrite Nat.add_0_r. right. split; [by eexists|done].
      * intros j' Hj'. lia.
  - injection Herr as ->. exists 0%nat. split; [lia|]. split.
    + rewrite Nat.add_0_r. by left.
    + intros j' Hj'. lia.
Qed.

Lemma gen_loop_total saleID n i items :
  (forall j, (j < n)%nat ->
     (exists bs, read_at (i + j) = Ok bs) /\
     (exists name, name_at (i + j) = Ok name)) ->
  exists res, gen_loop saleID i n items = Ok res.
Proof.
  revert i items. induction n as [|n IH]; intros i items Hall;
    cbn [generateItems_loop]; [by eexists|].
  destruct (Hall 0%nat ltac:(lia)) as [[bs Hr] [name Hn]].
  rewrite Nat.add_0_r in Hr, Hn. unfold generateItemID. rewrite Hr, Hn.
  apply IH. intros j Hj.
  replace (S i + j)%nat with (i + S j)%nat by lia. apply Hall. lia.
Qed.

End GenerateItemsFacts.

Section GeneratorExtras.
Import GoInt Config Generators.
Import Stdlib.Strings.Ascii.

Lemma item_id_inj bs bs' :
  String.append "item_" (EncodeToString bs) =
    String.append "item_" (EncodeToString bs') -> bs = bs'.
Proof.
  rewrite !item_id_eq. intros Heq. injection Heq as Heq.
  by apply EncodeToString_inj.
Qed.

(** X12.  The item id made from the bytes that [rand.Read] filled is
    ["item_"] followed by two lowercase hexadecimal digits per byte, all
    ASCII, and it determines the bytes: two ids are equal only if the random
    bytes were. *)
Theorem generateItemID_determines_bytes (bs : list Byte.byte) :
  exists id,
    generateItemID (Ok bs) = Ok id /\
    String.length id = (5 + 2 * length bs)%nat /\
    Forall (fun c => (N_of_ascii c < 128)%N) (String.list_ascii_of_string id) /\
    forall bs', generateItemID (Ok bs') = Ok id -> bs' = bs.
Proof.
  eexists. split; [reflexivity|]. split; [|split].
  - rewrite item_id_eq. cbn [String.length]. rewrite EncodeToString_length.
    lia.
  - apply item_id_ascii.
  - intros bs' Heq. cbn [generateItemID] in Heq.
    assert (String.append "item_" (EncodeToString bs') =
            String.append "item_" (EncodeToString bs)) as Hid by congruence.
    by apply item_id_inj.
Qed.

Lemma generateItemID_determines_bytes_witness :
  generateItemID (Ok [Byte.x00; Byte.xff]) = Ok "item_00ff" /\
  forall bs', generateItemID (Ok bs') = Ok "item_00ff" ->
              bs' = [Byte.x00; Byte.xff].
Proof.
  destruct (generateItemID_determines_bytes [Byte.x00; Byte.xff])
    as (id & Hid & _ & _ & Hinj).
  injection Hid as <-. split; [reflexivity|]. exact Hinj.
Defined.

(** X13.  The image of a generated item: the seed is the sum of the
    character codes of the id, which for the id of 8 random bytes lies
    between 1294 and 2158, so all items share at most 865 image URLs; the
    URL is [https://picsum.photos/seed/<seed>/400/400]. *)
Theorem generateImageURL_seed_range (bs : list Byte.byte) :
  length bs = 8%nat ->
  let id := String.append "item_" (EncodeToString bs) in
  1294 <= seed_of id <= 2158 /\
  generateImageURL id =
    String.append "https://picsum.photos/seed/"
      (String.append (Itoa (seed_of id)) "/400/400").
Proof.
  intros Hlen. cbv zeta. rewrite seed_of_item_id by lia.
  pose proof (digit_sum_bounds bs) as Hb. rewrite Hlen in Hb.
  split; [lia|]. unfold generateImageURL.
  rewrite seed_of_item_id by lia. reflexivity.
Qed.

Lemma generateImageURL_seed_range_witness :
  generateImageURL "item_00ff1aa100ff1aa1" =
    "https://picsum.photos/seed/1710/400/400".
Proof.
  destruct (generateImageURL_seed_range
              [Byte.x00; Byte.xff; Byte.x1a; Byte.xa1;
               Byte.x00; Byte.xff; Byte.x1a; Byte.xa1] eq_refl) as [_ H].
  exact H.
Defined.

(** X14.  The image URL does not tell items apart: it depends only on which
    bytes the id was made from, not on their order, so two different ids
    whose random bytes are a rearrangement of each other get the same
    URL. *)
Theorem generateImageURL_ignores_order (bs bs' : list Byte.byte) :
  bs ≡ₚ bs' ->
  Z.of_nat (length bs) <= 1000000 ->
  generateImageURL (String.append "item_" (EncodeToString bs)) =
    generateImageURL (String.append "item_" (EncodeToString bs')).
Proof.
  intros Hp Hlen. unfold generateImageURL.
  rewrite !seed_of_item_id by (rewrite <- ?Hp; done).
  by rewrite (digit_sum_perm bs bs' Hp).
Qed.

Lemma generateImageURL_ignores_order_witness :
  "item_01ab" <> "item_ab01" /\
  generateImageURL "item_01ab" = generateImageURL "item_ab01".
Proof.
  split; [discriminate|].
  apply (generateImageURL_ignores_order [Byte.x01; Byte.xab]
           [Byte.xab; Byte.x01]).
  - apply Permutation_swap.
  - simpl. lia.
Defined.

End GeneratorExtras.

Section GenerateItemsExtras.
Import GoInt Config Generators.
Variable read_at : nat -> result (list Byte.byte).
Variable name_at : nat -> result string.

Abbreviation gen := (generateItems read_at name_at).

Lemma generateItems_built (saleID : string) (count : Z) (items : list Item) :
  gen saleID count = Some (Ok items) ->
  Z.of_nat (length items) = count /\
  forall j, (j < length items)%nat ->
    exists it, items !! j = Some it /\ built read_at name_at saleID j it.
Proof.
  unfold generateItems. destruct (count <? 0) eqn:Hc; [done|].
  apply Z.ltb_ge in Hc. intros [= Hok].
  apply gen_loop_ok in Hok as (Hlen & _ & Hnew). cbn [length] in *.
  split; [lia|]. intros j Hj.
  destruct (Hnew j ltac:(lia)) as (it & Hit & Hb). by exists it.
Qed.

(** X15.  A call of [generateItems] that succeeds returns exactly [count]
    items, the [j]-th one built in the [j]-th turn of the loop: its id from
    the bytes read in that turn, the name generated in that turn, the id of
    the sale it was asked for, and the image URL of its own id. *)
Theorem generateItems_shape (saleID : string) (count : Z) (items : list Item) :
  gen saleID count = Some (Ok items) ->
  Z.of_nat (length items) = count /\
  forall j, (j < length items)%nat ->
    exists it, items !! j = Some it /\ built read_at name_at saleID j it.
Proof.
  unfold generateItems. destruct (count <? 0) eqn:Hc; [done|].
  apply Z.ltb_ge in Hc. intros [= Hok].
  apply gen_loop_ok in Hok as (Hlen & _ & Hnew). cbn [length] in *.
  split; [lia|]. intros j Hj.
  destruct (Hnew j ltac:(lia)) as (it & Hit & Hb). by exists it.
Qed.

(** X16.  [generateItems] is all or nothing.  For a count that is not
    negative it returns the items exactly when every turn finds its
    randomness, and otherwise no item at all but the error of the first turn
    that fails, the error of the id before that of the name; a negative
    count is the panic of [make]. *)
Theorem generateItems_all_or_nothing (saleID : string) (count : Z) :
  (count < 0 <-> gen saleID count = None) /\
  (0 <= count ->
   ((forall j, Z.of_nat j < count ->
       (exists bs, read_at j = Ok bs) /\ (exists name, name_at j = Ok name))
    <-> exists items, gen saleID count = Some (Ok items)) /\
   (forall e, gen saleID count = Some (Err e) ->
      exists j, Z.of_nat j < count /\ fails_at read_at name_at j e /\
        forall j', (j' < j)%nat ->
          (exists bs, read_at j' = Ok bs) /\
          (exists name, name_at j' = Ok name))).
Proof.
  unfold generateItems. split.
  - destruct (count <? 0) eqn:Hc.
    + apply Z.ltb_lt in Hc. done.
    + apply Z.ltb_ge in Hc. split; [lia|done].
  - intros Hc. rewrite (proj2 (Z.ltb_ge _ _) Hc). split; [split|].
    + intros Hall.
      destruct (gen_loop_total read_at name_at saleID (Z.to_nat count) 0 [])
        as [res Hres].
      * intros j Hj. apply Hall. lia.
      * exists res. by rewrite Hres.
    + intros [items [= Hok]] j Hj.
      apply gen_loop_ok in Hok as (_ & _ & Hnew).
      destruct (Hnew j ltac:(lia)) as (it & _ & bs & name & Hr & Hn & _).
      split; by eexists.
    + intros e [= Herr].
      apply gen_loop_err in Herr as (j & Hj & Hf & Hbefore).
      exists j. split; [lia|]. split; [done|]. done.
Qed.

(** X17.  Nothing in [generateItems] checks that the ids are unique: the
    items it returns have pairwise different ids exactly when no two turns
    read the same random bytes. *)
Theorem generateItems_ids_unique_iff (saleID : string) (count : Z)
  (items : list Item) :
  gen saleID count = Some (Ok items) ->
  NoDup (map ItemID items) <->
  forall j j' bs, (j < j' < length items)%nat ->
    read_at j = Ok bs -> read_at j' <> Ok bs.
Proof.
  intros Hok. apply generateItems_built in Hok as [_ Hb].
  rewrite NoDup_alt. split.
  - intros Hnd j j' bs [Hlt Hj'] Hr Hr'.
    destruct (Hb j ltac:(lia)) as (it & Hit & bs1 & n1 & Hr1 & _ & ->).
    destruct (Hb j' Hj') as (it' & Hit' & bs2 & n2 & Hr2 & _ & ->).
    assert (bs1 = bs) as -> by congruence.
    assert (bs2 = bs) as -> by congruence.
    assert (j = j') as Heq; [|lia].
    apply (Hnd j j' (String.append "item_" (EncodeToString bs)));
      rewrite list_lookup_fmap; [by rewrite Hit|by rewrite Hit'].
  - intros Hdist a b x Ha Hb'.
    rewrite list_lookup_fmap in Ha, Hb'.
    destruct (items !! a) as [ia|] eqn:Hia; [|done].
    destruct (items !! b) as [ib|] eqn:Hib; [|done].
    pose proof (lookup_lt_Some _ _ _ Hia) as Hla.
    pose proof (lookup_lt_Some _ _ _ Hib) as Hlb.
    destruct (Hb a Hla) as (it & Hit & bs1 & n1 & Hr1 & _ & ->).
    destruct (Hb b Hlb) as (it' & Hit' & bs2 & n2 & Hr2 & _ & ->).
    assert (ia = mkItem (String.append "item_" (EncodeToString bs1)) saleID n1
              (generateImageURL (String.append "item_" (EncodeToString bs1))))
      as -> by congruence.
    assert (ib = mkItem (String.append "item_" (EncodeToString bs2)) saleID n2
              (generateImageURL (String.append "item_" (EncodeToString bs2))))
      as -> by congruence.
    cbn [fmap option_fmap option_map ItemID] in Ha, Hb'.
    assert (bs1 = bs2) as Hbs.
    { apply item_id_inj. congruence. }
    subst bs2.
    destruct (decide (a = b)) as [|Hne]; [done|]. exfalso.
    destruct (decide (a < b)%nat).
    + by apply (Hdist a b bs1 ltac:(lia)).
    + by apply (Hdist b a bs1 ltac:(lia)).
Qed.

End GenerateItemsExtras.

Section GenerateItemsWitnesses.
Import GoInt Config Generators.

Lemma generateItems_shape_witness :
  let read_at := fun j : nat =>
    match j with O => Ok [Byte.x01] | _ => Ok [Byte.x02] end in
  let name_at := fun _ : nat => Ok "Premium Phone" in
  let items :=
    [mkItem "item_01" "sale_1" "Premium Phone"
       "https://picsum.photos/seed/623/400/400";
     mkItem "item_02" "sale_1" "Premium Phone"
       "https://picsum.photos/seed/624/400/400"] in
  generateItems read_at name_at "sale_1" 2 = Some (Ok items) /\
  Z.of_nat (length items) = 2 /\
  forall j, (j < length items)%nat ->
    exists it, items !! j = Some it /\ built read_at name_at "sale_1" j it.
Proof.
  cbv zeta. split; [by vm_compute|].
  apply (generateItems_shape
           (fun j : nat =>
              match j with O => Ok [Byte.x01] | _ => Ok [Byte.x02] end)
           (fun _ : nat => Ok "Premium Phone") "sale_1" 2).
  by vm_compute.
Defined.

Lemma generateItems_all_or_nothing_witness :
  let read_at := fun j : nat =>
    match j with O => Ok [Byte.x01] | _ => Err ErrUnavailable end in
  let name_at := fun _ : nat => Ok "Premium Phone" in
  generateItems read_at name_at "sale_1" 2 = Some (Err ErrUnavailable) /\
  exists j, Z.of_nat j < 2 /\ fails_at read_at name_at j ErrUnavailable.
Proof.
  cbv zeta. split; [by vm_compute|].
  destruct (generateItems_all_or_nothing
              (fun j : nat =>
                 match j with O => Ok [Byte.x01] | _ => Err ErrUnavailable end)
              (fun _ : nat => Ok "Premium Phone") "sale_1" 2) as [_ H].
  destruct (H ltac:(lia)) as [_ Herr].
  destruct (Herr ErrUnavailable ltac:(by vm_compute)) as (j & Hj & Hf & _).
  by exists j.
Defined.

Lemma generateItems_ids_unique_iff_witness :
  let read_at := fun _ : nat => Ok [Byte.x01] in
  let name_at := fun j : nat =>
    match j with O => Ok "Premium Phone" | _ => Ok "Smart Watch" end in
  exists items,
    generateItems read_at name_at "sale_1" 2 = Some (Ok items) /\
    ~ NoDup (map ItemID items).
Proof.
  cbv zeta. eexists. split; [by vm_compute|].
  intros Hnd.
  pose proof (proj1 (generateItems_ids_unique_iff (fun _ : nat => Ok [Byte.x01])
            (fun j : nat =>
               match j with O => Ok "Premium Phone" | _ => Ok "Smart Watch" end)
            "sale_1" 2 _ eq_refl) Hnd) as Hdist.
  by apply (Hdist 0%nat 1%nat [Byte.x01]); [simpl; lia|..].
Defined.

End GenerateItemsWitnesses.

(** ** The scheduler: what a run leaves in the table *)

Section SchedulerRunFacts.
Import GoInt GoTime Scheduler SchedulerRuns.
Variable ItemsPerSale : Z.
Variable generateSaleID : Z -> result string.
Variable CreateSale_ok : list Sale -> Sale -> bool.
Variable provision_ok : Sale -> bool.
Variable GetActiveSale : list Sale -> result (option Sale).
Variable Exec_ok : list SaleRow -> SaleRow -> bool.

Abbreviation newSale' := (Scheduler_newSale ItemsPerSale).
Abbreviation create' :=
  (Scheduler_createNewSale ItemsPerSale generateSaleID CreateSale_ok
     provision_ok).
Abbreviation loop' :=
  (Scheduler_loop ItemsPerSale generateSaleID CreateSale_ok provision_ok).
Abbreviation start' :=
  (Scheduler_Start ItemsPerSale generateSaleID CreateSale_ok provision_ok
     GetActiveSale).

Lemma fold_ticks_shift ticker n : forall s d,
  fold_left (fun d j => (create' d (ticker + Z.of_nat j * Hour)).1)
    (seq (S s) n) d =
  fold_left (fun d j => (create' d (Add ticker Hour + Z.of_nat j * Hour)).1)
    (seq s n) d.
Proof.
  induction n as [|n IH]; intros s d; cbn [seq fold_left]; [done|].
  rewrite IH.
  replace (ticker + Z.of_nat (S s) * Hour)
    with (Add ticker Hour + Z.of_nat s * Hour) by (unfold Add; lia).
  done.
Qed.

(** The main loop attempts one creation per served tick, an hour apart. *)
Lemma loop_fold evs : forall db ticker,
  loop' db ticker evs =
  fold_left (fun d j => (create' d (ticker + Z.of_nat j * Hour)).1)
    (seq 1 (ticks_served evs)) db.
Proof.
  induction evs as [|ev evs IH]; intros db ticker; [done|].
  destruct ev; cbn [Scheduler_loop ticks_served seq fold_left]; try done.
  rewrite IH, (fold_ticks_shift ticker _ 1).
  replace (ticker + Z.of_nat 1 * Hour) with (Add ticker Hour)
    by (unfold Add; lia).
  done.
Qed.

(** With a store that accepts every sale each attempt whose id could be
    generated adds its row, whether or not the provisioning after it
    succeeds; an attempt whose id generation fails adds nothing. *)
Lemma fold_ticks_accepting ticker n :
  (forall d s, CreateSale_ok d s = true) ->
  forall s d,
  fold_left (fun d j => (create' d (ticker + Z.of_nat j * Hour)).1)
    (seq s n) d =
  d ++ flat_map (fun j => attempted ItemsPerSale generateSaleID
                            (ticker + Z.of_nat j * Hour)) (seq s n).
Proof.
  intros Hok. induction n as [|n IH]; intros s d; cbn [seq fold_left flat_map].
  - by rewrite app_nil_r.
  - rewrite IH. unfold Scheduler_createNewSale at 1, attempted at 2.
    destruct (generateSaleID _) as [id|e]; cbn [fst]; [|done].
    rewrite Hok.
    destruct (provision_ok _); cbn [fst]; by rewrite <- app_assoc.
Qed.

Lemma attempted_StartTime now j :
  map StartTime
    (attempted ItemsPerSale generateSaleID (Truncate now Hour + j * Hour)) =
  match generateSaleID (Truncate now Hour + j * Hour) with
  | Ok _ => [Truncate now Hour + j * Hour]
  | Err _ => []
  end.
Proof.
  unfold attempted. destruct (generateSaleID _) as [id|e]; [|done].
  cbn [map]. by rewrite newSale_on_boundary.
Qed.

End SchedulerRunFacts.

Section SchedulerExtras.
Import GoInt GoTime Scheduler SchedulerRuns.

(** X18.  The wait before the main loop is never zero and never more than an
    hour, it ends exactly on an hour boundary, and a scheduler started
    exactly on a boundary waits the whole hour to the next one. *)
Theorem waitUntilNextHour_range (now : Z) :
  0 < waitUntilNextHour now <= Hour /\
  (now + waitUntilNextHour now) mod Hour = 0 /\
  (waitUntilNextHour now = Hour <-> now mod Hour = 0).
Proof.
  pose proof (wait_reaches_boundary now) as Hw. unfold Add in Hw.
  pose proof (Truncate_Hour_bounds now) as Hb.
  assert (0 < Hour) as Hpos by (unfold Hour, Minute, Second; lia).
  split; [lia|]. split.
  - rewrite Hw.
    replace (Truncate now Hour + Hour) with (Truncate now Hour + 1 * Hour)
      by lia.
    rewrite Z.mod_add by lia. apply Truncate_Hour_aligned.
  - assert (Truncate now Hour = now - now mod Hour) as Ht.
    { unfold Truncate. by rewrite (proj2 (Z.leb_gt _ _) Hpos). }
    lia.
Qed.

(** X19.  After a startup that succeeds, the table [Start] leaves depends on
    the events only through the number of ticks of the sale ticker served
    before the context is done: tick [j] attempts one creation, [j] hours
    after the boundary the wait ended on.  A failed creation neither stops
    nor shifts the later ones, and the cleanup ticks and whatever follows
    the end of the context change nothing. *)
Theorem Scheduler_Start_one_attempt_per_tick
  (ItemsPerSale : Z) (generateSaleID : Z -> result string)
  (CreateSale_ok : list Sale -> Sale -> bool) (provision_ok : Sale -> bool)
  (GetActiveSale : list Sale -> result (option Sale))
  (db : list Sale) (now : Z) (evs : list event) (active : option Sale) :
  let create :=
    Scheduler_createNewSale ItemsPerSale generateSaleID CreateSale_ok
      provision_ok in
  GetActiveSale db = Ok active ->
  (active = None -> (create db now).2 = None) ->
  Scheduler_Start ItemsPerSale generateSaleID CreateSale_ok provision_ok
    GetActiveSale db now (AfterC :: evs) =
  fold_left
    (fun d j => (create d (Truncate now Hour + Hour + Z.of_nat j * Hour)).1)
    (seq 1 (ticks_served evs))
    (if active is None then (create db now).1 else db).
Proof.
  cbv zeta. intros Hact Hcr. unfold Scheduler_Start, Scheduler_Start_at.
  rewrite Hact.
  destruct active as [a|].
  - by rewrite loop_fold, wait_reaches_boundary.
  - specialize (Hcr eq_refl).
    destruct (Scheduler_createNewSale _ _ _ _ db now) as [db1 res].
    cbn [fst snd] in *. subst res.
    by rewrite loop_fold, wait_reaches_boundary.
Qed.

(** X20.  The timetable of [Start] with a store that accepts every sale.
    After the rows it found and the sale made at startup when none was
    active, the table holds, in order, one sale for each served tick whose
    sale id could be generated, kept even when its provisioning failed; a
    tick whose id generation fails adds nothing.  The ticks fall two, three,
    ... hours after the start of the hour in which the wait was computed
    (the reading [now'] of [waitUntilNextHour], which may come later than
    the reading [now] of the initial creation), so when every id is
    generated the sales of the ticks are those of these hours, one each. *)
Theorem Scheduler_Start_timetable
  (ItemsPerSale : Z) (generateSaleID : Z -> result string)
  (CreateSale_ok : list Sale -> Sale -> bool) (provision_ok : Sale -> bool)
  (GetActiveSale : list Sale -> result (option Sale))
  (db : list Sale) (now now' : Z) (evs : list event) (active : option Sale)
  (id0 : string) :
  let newSale := Scheduler_newSale ItemsPerSale in
  let hours := seq 2 (ticks_served evs) in
  let tick j := Truncate now' Hour + Z.of_nat j * Hour in
  (forall d s, CreateSale_ok d s = true) ->
  GetActiveSale db = Ok active ->
  (active = None ->
   generateSaleID now = Ok id0 /\ provision_ok (newSale id0 now) = true) ->
  let table :=
    Scheduler_Start_at ItemsPerSale generateSaleID CreateSale_ok provision_ok
      GetActiveSale db now now' (AfterC :: evs) in
  let ticked :=
    flat_map (fun j => attempted ItemsPerSale generateSaleID (tick j)) hours in
  table =
    db ++ (if active is None then [newSale id0 now] else []) ++ ticked /\
  ((forall j, In j hours -> exists id, generateSaleID (tick j) = Ok id) ->
   map StartTime ticked = map tick hours).
Proof.
  cbv zeta. intros Hok Hact Hprov. split.
  - unfold Scheduler_Start_at. rewrite Hact.
    assert (forall d,
      Scheduler_loop ItemsPerSale generateSaleID CreateSale_ok provision_ok d
        (Add now' (waitUntilNextHour now')) evs =
      d ++ flat_map
             (fun j => attempted ItemsPerSale generateSaleID
                         (Truncate now' Hour + Z.of_nat j * Hour))
             (seq 2 (ticks_served evs))) as Hloop.
    { intros d. rewrite loop_fold, wait_reaches_boundary.
      rewrite (fold_ticks_accepting _ _ _ _ _ _ Hok).
      f_equal. rewrite <- (seq_shift _ 1), !flat_map_concat_map, map_map.
      f_equal. apply map_ext. intros j. f_equal. lia. }
    destruct active as [a|].
    + by rewrite Hloop.
    + destruct (Hprov eq_refl) as [Hid Hp].
      unfold Scheduler_createNewSale. rewrite Hid, Hok, Hp.
      by rewrite Hloop, <- app_assoc.
  - intros Hids. induction (seq 2 (ticks_served evs)) as [|j hours IH];
      [done|].
    cbn [flat_map map]. rewrite map_app, attempted_StartTime.
    destruct (Hids j ltac:(by left)) as [id ->]. cbn [app]. f_equal.
    apply IH. intros j' Hj'. apply Hids. by right.
Qed.

(** X21.  A startup that fails ends the scheduler for good: when the lookup
    of the active sale fails the table is left as it was, and when the
    creation of the initial sale fails no tick is ever served, whatever
    events follow; the table is then as it was (the sale id could not be
    generated, or the store refused the sale) or, when the failure came
    after the insertion of the sale, holds that sale without what
    provisioning would have added. *)
Theorem Scheduler_Start_startup_failure
  (ItemsPerSale : Z) (generateSaleID : Z -> result string)
  (CreateSale_ok : list Sale -> Sale -> bool) (provision_ok : Sale -> bool)
  (GetActiveSale : list Sale -> result (option Sale))
  (db : list Sale) (now : Z) (evs : list event) :
  let newSale := Scheduler_newSale ItemsPerSale in
  let table :=
    Scheduler_Start ItemsPerSale generateSaleID CreateSale_ok provision_ok
      GetActiveSale db now evs in
  (forall e, GetActiveSale db = Err e -> table = db) /\
  (GetActiveSale db = Ok None ->
   match generateSaleID now with
   | Err _ => table = db
   | Ok id =>
       CreateSale_ok db (newSale id now) && provision_ok (newSale id now)
         = false ->
       table = (if CreateSale_ok db (newSale id now)
                then db ++ [newSale id now] else db)
   end).
Proof.
  cbv zeta. unfold Scheduler_Start, Scheduler_Start_at. split.
  - by intros e ->.
  - intros ->. unfold Scheduler_createNewSale.
    destruct (generateSaleID now) as [id|e]; [|done].
    intros Hfail.
    destruct (CreateSale_ok db _); [|done].
    destruct (provision_ok _); done.
Qed.

(** X22.  The second entry point with a store that accepts every row: after
    [n] ticks the table holds, after the rows it had, exactly [n] rows of
    10000 items, one for each of the [n] hours that follow the hour of
    startup, in order; the hour of startup gets none. *)
Theorem StartScheduler_timetable
  (Exec_ok : list SaleRow -> SaleRow -> bool)
  (db : list SaleRow) (now : Z) (n : nat) :
  (forall d r, Exec_ok d r = true) ->
  StartScheduler Exec_ok db now n =
    db ++ map (fun j => mkSaleRow (Truncate now Hour + Z.of_nat j * Hour)
                          (Truncate now Hour + Z.of_nat j * Hour + Hour)
                          10000)
            (seq 1 n).
Proof.
  intros Hok. revert db now. induction n as [|n IH]; intros db now.
  - cbn [StartScheduler seq map]. by rewrite app_nil_r.
  - cbn [StartScheduler seq map]. rewrite IH. unfold createNewSale.
    rewrite Hok, <- app_assoc. f_equal. cbn [app]. f_equal.
    + unfold newSaleRow, Add.
      rewrite Truncate_Hour_shift. f_equal; lia.
    + rewrite <- (seq_shift _ 1), map_map. apply map_ext. intros j.
      unfold Add. rewrite Truncate_Hour_shift. f_equal; lia.
Qed.

End SchedulerExtras.

Section SchedulerWitnesses.
Import GoInt GoTime Scheduler SchedulerRuns.

Lemma Scheduler_Start_one_attempt_per_tick_witness :
  let start :=
    Scheduler_Start 10000 (fun _ => Ok "sale") (fun _ _ => true)
      (fun _ => true) spec_GetActiveSale [] (at_minute 1000 20) in
  start [AfterC; CleanupTickerC; TickerC; CleanupTickerC; CtxDone; TickerC] =
  start [AfterC; TickerC].
Proof.
  cbv zeta.
  exact (eq_trans
    (Scheduler_Start_one_attempt_per_tick 10000 (fun _ => Ok "sale")
       (fun _ _ => true) (fun _ => true) spec_GetActiveSale []
       (at_minute 1000 20)
       [CleanupTickerC; TickerC; CleanupTickerC; CtxDone; TickerC] None
       eq_refl (fun _ => eq_refl))
    (eq_sym
       (Scheduler_Start_one_attempt_per_tick 10000 (fun _ => Ok "sale")
          (fun _ _ => true) (fun _ => true) spec_GetActiveSale []
          (at_minute 1000 20) [TickerC] None eq_refl (fun _ => eq_refl)))).
Defined.

Lemma Scheduler_Start_timetable_witness :
  map StartTime
    (Scheduler_Start_at 10000
       (fun t => if t =? hour_start 1003 then Err ErrUnavailable
                 else Ok "sale")
       (fun _ _ => true) (fun s => StartTime s <=? hour_start 1000)
       spec_GetActiveSale [] (at_minute 1000 20) (at_minute 1000 21)
       [AfterC; TickerC; CleanupTickerC; TickerC; TickerC]) =
  [hour_start 1000; hour_start 1002; hour_start 1004].
Proof.
  destruct (Scheduler_Start_timetable 10000
              (fun t => if t =? hour_start 1003 then Err ErrUnavailable
                        else Ok "sale")
              (fun _ _ => true) (fun s => StartTime s <=? hour_start 1000)
              spec_GetActiveSale [] (at_minute 1000 20) (at_minute 1000 21)
              [TickerC; CleanupTickerC; TickerC; TickerC] None "sale"
              (fun _ _ => eq_refl) eq_refl
              (fun _ => conj eq_refl eq_refl)) as [-> _].
  by vm_compute.
Defined.

Lemma Scheduler_Start_startup_failure_witness :
  Scheduler_Start 10000 (fun _ => Ok "sale") (fun _ _ => true)
    (fun _ => false) spec_GetActiveSale [] (at_minute 1000 20)
    [AfterC; TickerC; TickerC] =
  [Scheduler_newSale 10000 "sale" (at_minute 1000 20)].
Proof.
  exact (proj2
    (Scheduler_Start_startup_failure 10000 (fun _ => Ok "sale")
       (fun _ _ => true) (fun _ => false) spec_GetActiveSale []
       (at_minute 1000 20) [AfterC; TickerC; TickerC]) eq_refl eq_refl).
Defined.

Lemma StartScheduler_timetable_witness :
  StartScheduler (fun _ _ => true) [] (at_minute 1000 20) 2 =
  [mkSaleRow (hour_start 1001) (hour_start 1002) 10000;
   mkSaleRow (hour_start 1002) (hour_start 1003) 10000].
Proof.
  rewrite (StartScheduler_timetable (fun _ _ => true) [] (at_minute 1000 20) 2
             (fun _ _ => eq_refl)).
  by vm_compute.
Defined.

End SchedulerWitnesses.

(** ** The purchase endpoint: the answers that refuse *)

Section PurchaseExtras.
Import Http Purchase.

(** X23.  Every answer of [POST /purchase] other than the success is a plain
    text line, not a JSON document: content type [text/plain], [nosniff],
    and one of four messages, each with its status and followed by a line
    feed.  The message of a failed recording is never sent.  No refusal touches the purchases table, and a
    request without a code does not reach the coordinator at all. *)
Theorem PurchaseHandler_refusals {C : Type} `{Coordinator C}
  (db : DB) (co : C) (r : Request) (w : ResponseWriter) :
  statusCode w = None ->
  let out := PurchaseHandler db co r w in
  statusCode out.2 <> Some StatusOK ->
  out.1.1 = db /\
  header out.2 !! "Content-Type" = Some "text/plain; charset=utf-8" /\
  header out.2 !! "X-Content-Type-Options" = Some "nosniff" /\
  (exists msg,
     body out.2 = body w ++ [Text (String.append msg newline)] /\
     (statusCode out.2, msg) ∈
       [(Some 400, "Missing checkout code");
        (Some 400, "Invalid or expired checkout code");
        (Some 409, "Item sold out");
        (Some 500, "Error processing purchase")]) /\
  (Query_Get r "code" = "" -> out.1.2 = co).
Proof.
  intros Hw. cbv zeta. unfold PurchaseHandler, recordPurchase.
  assert (forall (msg : string) (code : Z) (P : Prop),
    P ->
    (Some code, msg) ∈
       [(Some 400, "Missing checkout code");
        (Some 400, "Invalid or expired checkout code");
        (Some 409, "Item sold out");
        (Some 500, "Error processing purchase")] ->
    header (Error w msg code) !! "Content-Type" =
      Some "text/plain; charset=utf-8" /\
    header (Error w msg code) !! "X-Content-Type-Options" = Some "nosniff" /\
    (exists msg',
       body (Error w msg code) =
         body w ++ [Text (String.append msg' newline)] /\
       (statusCode (Error w msg code), msg') ∈
         [(Some 400, "Missing checkout code");
          (Some 400, "Invalid or expired checkout code");
          (Some 409, "Item sold out");
          (Some 500, "Error processing purchase")]) /\ P) as Hrefuse.
  { intros msg code P HP Hin.
    rewrite Error_status, Error_body, Error_header by done.
    split; [by simplify_map_eq|]. split; [by simplify_map_eq|].
    split; [|done]. by exists msg. }
  destruct (String.eqb_spec (Query_Get r "code") "") as [Hc|Hc].
  - cbn [fst snd]. intros _. split; [done|].
    apply Hrefuse; [done|apply list_elem_of_In; simpl; auto 10].
  - destruct (GetCheckoutSession co (Query_Get r "code")) as [co1 [[u i]|e]].
    + destruct (DecrementInventory co1 i) as [co2 [[|]|e]]; cbn [fst snd].
      * intros Hne. exfalso. apply Hne. by apply Encode_status.
      * intros _. split; [done|]. apply Hrefuse; [done|apply list_elem_of_In; simpl; auto 10].
      * intros _. split; [done|]. apply Hrefuse; [done|apply list_elem_of_In; simpl; auto 10].
    + cbn [fst snd]. intros _. split; [done|].
      apply Hrefuse; [done|apply list_elem_of_In; simpl; auto 10].
Qed.

Lemma PurchaseHandler_refusals_witness :
  let out :=
    PurchaseHandler (H := specCoordinator s1_key) (mkDB [])
      (s1_state 0 0 [true; true]) (post "K1") newResponseWriter in
  statusCode out.2 = Some 409 /\
  body out.2 = [Text (String.append "Item sold out" newline)] /\
  header out.2 !! "Content-Type" = Some "text/plain; charset=utf-8".
Proof.
  cbv zeta.
  assert (statusCode
            (PurchaseHandler (H := specCoordinator s1_key) (mkDB [])
               (s1_state 0 0 [true; true]) (post "K1") newResponseWriter).2
          <> Some StatusOK) as Hne by (vm_compute; discriminate).
  destruct (PurchaseHandler_refusals (H := specCoordinator s1_key) (mkDB [])
              (s1_state 0 0 [true; true]) (post "K1") newResponseWriter
              eq_refl Hne) as (_ & Hct & _ & _ & _).
  split; [by vm_compute|]. split; [by vm_compute|]. exact Hct.
Defined.

End PurchaseExtras.

(** ** Sale ids *)

Section SaleIdExtras.
Import GoInt Config Generators.
Import Stdlib.Strings.Ascii.

(** X24.  A sale id is [sale_<unix seconds>_<16 hex digits>] and determines
    both parts: two ids made from 8 random bytes are equal only when they
    were made in the same second from the same bytes.  A failed read of the
    random bytes is returned as the error, whatever the clock says. *)
Theorem generateSaleID_determines_parts
  (bs bs' : list Byte.byte) (unix unix' : Z) :
  in_int64 unix -> in_int64 unix' ->
  length bs = 8%nat -> length bs' = 8%nat ->
  (generateSaleID (Ok bs) unix = generateSaleID (Ok bs') unix' <->
   unix = unix' /\ bs = bs') /\
  (forall e, generateSaleID (Err e) unix = Err e).
Proof.
  intros Hu Hu' Hl Hl'. split; [|done]. split; [|by intros [-> ->]].
  cbn [generateSaleID]. intros [= Heq0].
  assert (String.append (Itoa unix) (String "_" (EncodeToString bs)) =
          String.append (Itoa unix') (String "_" (EncodeToString bs')))
    as Heq by exact Heq0.
  clear Heq0.
  assert (String.length (Itoa unix) = String.length (Itoa unix')) as Hlen.
  { pose proof (f_equal String.length Heq) as Hl0.
    rewrite !string_length_append in Hl0. cbn [String.length] in Hl0.
    rewrite !EncodeToString_length, Hl, Hl' in Hl0. lia. }
  apply string_append_inj in Heq as [Hit Hrest]; [|done].
  split.
  - pose proof (Atoi_Itoa unix) as H1. pose proof (Atoi_Itoa unix') as H2.
    unfold in_int64 in Hu, Hu'.
    rewrite (proj2 (Z.leb_le _ _) (proj1 Hu)),
      (proj2 (Z.leb_le _ _) (proj2 Hu)) in H1.
    rewrite (proj2 (Z.leb_le _ _) (proj1 Hu')),
      (proj2 (Z.leb_le _ _) (proj2 Hu')) in H2.
    cbn [andb] in H1, H2. congruence.
  - apply EncodeToString_inj. by injection Hrest.
Qed.

Lemma generateSaleID_determines_parts_witness :
  generateSaleID
    (Ok [Byte.x00; Byte.x01; Byte.x02; Byte.x03;
         Byte.x04; Byte.x05; Byte.x06; Byte.xff]) 1761850000 =
    Ok "sale_1761850000_00010203040506ff" /\
  generateSaleID
    (Ok [Byte.x00; Byte.x01; Byte.x02; Byte.x03;
         Byte.x04; Byte.x05; Byte.x06; Byte.xff]) 1761850000 <>
  generateSaleID
    (Ok [Byte.x00; Byte.x01; Byte.x02; Byte.x03;
         Byte.x04; Byte.x05; Byte.x06; Byte.xff]) 1761850001.
Proof.
  split; [by vm_compute|]. intros Heq.
  assert (in_int64 1761850000 /\ in_int64 1761850001) as [H1 H2]
    by (unfold in_int64, minInt64, maxInt64; lia).
  apply (generateSaleID_determines_parts
           [Byte.x00; Byte.x01; Byte.x02; Byte.x03;
            Byte.x04; Byte.x05; Byte.x06; Byte.xff]
           [Byte.x00; Byte.x01; Byte.x02; Byte.x03;
            Byte.x04; Byte.x05; Byte.x06; Byte.xff]
           1761850000 1761850001 H1 H2 eq_refl eq_refl) in Heq.
  lia.
Defined.

End SaleIdExtras.
